(** * FastStray: trajectory compression by smoothing, correlation scoring
      and non-maximum suppression

    A shallow embedding of [compress.py] (class [FastStray]) and the
    properties of its pipeline.

    - Python [int] is [Z]; [np.float64] and Python [float] are IEEE-754
      binary64 values, modelled bit-exactly by the Standard Library's
      [spec_float] with [prec = 53] and [emax = 1024].
    - The object's attributes are set by side effect, method after method;
      the model threads a record through a small state-and-exception monad,
      an attribute that is not set yet being [None].
    - [scipy.stats.pearsonr] is an external routine: the methods take it as a
      parameter [corr]. *)

From Stdlib Require Import String.
From Stdlib Require Import ZArith List Bool Lia Sorted.
From Stdlib Require Import Floats.SpecFloat.
Import ListNotations.
Local Open Scope Z_scope.

(** ** Binary64 arithmetic *)

Module F64.

Definition prec : Z := 53.
Definition emax : Z := 1024.

Definition float := spec_float.

Definition nan : float := S754_nan.
Definition pinf : float := S754_infinity false.
Definition zero : float := S754_zero false.

(** The float nearest to an integer ([float(z)], [np.float64(z)]). *)
Definition of_Z (z : Z) : float := binary_normalize prec emax z 0 false.

Definition one : float := Eval cbv in of_Z 1.

Definition add : float -> float -> float := SFadd prec emax.
Definition sub : float -> float -> float := SFsub prec emax.
Definition mul : float -> float -> float := SFmul prec emax.
Definition div : float -> float -> float := SFdiv prec emax.
Definition sqrt : float -> float := SFsqrt prec emax.
Definition opp : float -> float := SFopp.
Definition abs : float -> float := SFabs.

(** [==], [<] and [>] of IEEE-754: every comparison with NaN is false. *)
Definition eqb : float -> float -> bool := SFeqb.
Definition ltb : float -> float -> bool := SFltb.
Definition gtb (x y : float) : bool := SFltb y x.
Definition leb : float -> float -> bool := SFleb.

Definition is_nan (x : float) : bool :=
  match x with S754_nan => true | _ => false end.

Definition is_finite (x : float) : bool :=
  match x with S754_zero _ | S754_finite _ _ _ => true | _ => false end.

(** A quotient of two integers, [p / 2^k], for writing literals. *)
Definition dyadic (p : Z) (k : Z) : float := binary_normalize prec emax p (- k) false.

End F64.

Abbreviation float := F64.float.

(** ** Exceptions and results *)

Inductive exn : Type :=
| AttributeError
| IndexError
| KeyError
| ValueError
| ZeroDivisionError.

Inductive result (A : Type) : Type :=
| Ok (a : A)
| Raise (e : exn).
Arguments Ok {A} a.
Arguments Raise {A} e.

Definition rbind {A B} (r : result A) (k : A -> result B) : result B :=
  match r with
  | Ok a => k a
  | Raise e => Raise e
  end.

(** [[*map(f, l)]] for an [f] that may raise: the first failure, in list
    order, is the one that is raised. *)
Fixpoint rmap {A B} (f : A -> result B) (l : list A) : result (list B) :=
  match l with
  | [] => Ok []
  | a :: l' =>
      match f a with
      | Raise e => Raise e
      | Ok b =>
          match rmap f l' with
          | Raise e => Raise e
          | Ok bs => Ok (b :: bs)
          end
      end
  end.

(** ** Arrays and indexing *)

(** [np.arange(lo, hi)] for integers: [lo, lo+1, ..., hi-1], empty when
    [hi <= lo]. *)
Definition arange (lo hi : Z) : list Z :=
  map (fun k => lo + Z.of_nat k) (seq 0 (Z.to_nat (hi - lo))).

(** [range(n)]. *)
Definition range (n : Z) : list Z := arange 0 n.

(** [a[i]] for a sequence of length [len a]: a negative index counts from
    the end, anything outside [-len, len) raises [IndexError]. *)
Definition getitem {A} (a : list A) (i : Z) : result A :=
  let n := Z.of_nat (length a) in
  if (0 <=? i) && (i <? n) then
    match nth_error a (Z.to_nat i) with Some x => Ok x | None => Raise IndexError end
  else if (- n <=? i) && (i <? 0) then
    match nth_error a (Z.to_nat (i + n)) with Some x => Ok x | None => Raise IndexError end
  else Raise IndexError.

(** [a[index, :]] with an integer array [index]: the rows at those
    positions, in the order of [index]. *)
Definition take {A} (a : list A) (index : list Z) : result (list A) :=
  rmap (getitem a) index.

(** ** WindowIndexer: [get_params_idx] *)

Definition get_params_idx (idx value sample_size : Z) : list Z :=
  let inf := Z.max 0 (idx - value) in
  let sup := Z.min (idx + value) sample_size in
  arange inf sup.

(** ** numpy reductions *)

(** [np.add.reduce] along the row axis: the first entry, then the others
    added one by one; the additive identity [0.0] for an empty selection. *)
Definition np_sum (l : list float) : float :=
  match l with
  | [] => F64.zero
  | x :: r => fold_left F64.add r x
  end.

(** [.mean()] of one column: the sum divided by the number of entries
    ([0.0 / 0 = nan] for an empty selection, with a warning only). *)
Definition np_mean (l : list float) : float :=
  F64.div (np_sum l) (F64.of_Z (Z.of_nat (length l))).

(** [rows.mean(axis=0)] of a [(k, 2)] array. *)
Definition mean_axis0 (rows : list (float * float)) : float * float :=
  (np_mean (map fst rows), np_mean (map snd rows)).

(** ** The [FastStray] object *)

(** The dataclass fields [params], [position] and [sample_size], and the
    attributes the methods attach to the instance.  [space = 2] and
    [time = 1] (the defaults, and what [ksi_func] unpacks): a row of
    [position] is [(lon, lat, timestamp)].  [sample_size] is a field of its
    own: its default is computed from the default [position] when the class
    is defined, not from the instance's [position]. *)
Record FastStray : Type := mkFastStray {
  params : list (string * Z);
  position : list (float * float * float);
  sample_size : Z;
  spatial_position : option (list (float * float));
  temporal_position : option (list float);
  filtering_spatial_position : option (list (float * float));
  filtering_temporal_position : option (list float);
  coeff : option (list float);
  max_coeff : option (list float);
  simplified_spatial_position : option (list (float * float));
  simplified_temporal_position : option (list float)
}.

(** [FastStray(params=..., position=..., sample_size=...)]. *)
Definition init (ps : list (string * Z)) (pos : list (float * float * float))
    (n : Z) : FastStray :=
  mkFastStray ps pos n None None None None None None None None.

Definition set_spatial_position v (s : FastStray) : FastStray :=
  mkFastStray (params s) (position s) (sample_size s) (Some v)
    (temporal_position s) (filtering_spatial_position s)
    (filtering_temporal_position s) (coeff s) (max_coeff s)
    (simplified_spatial_position s) (simplified_temporal_position s).

Definition set_temporal_position v (s : FastStray) : FastStray :=
  mkFastStray (params s) (position s) (sample_size s) (spatial_position s)
    (Some v) (filtering_spatial_position s)
    (filtering_temporal_position s) (coeff s) (max_coeff s)
    (simplified_spatial_position s) (simplified_temporal_position s).

Definition set_filtering_spatial_position v (s : FastStray) : FastStray :=
  mkFastStray (params s) (position s) (sample_size s) (spatial_position s)
    (temporal_position s) (Some v)
    (filtering_temporal_position s) (coeff s) (max_coeff s)
    (simplified_spatial_position s) (simplified_temporal_position s).

Definition set_filtering_temporal_position v (s : FastStray) : FastStray :=
  mkFastStray (params s) (position s) (sample_size s) (spatial_position s)
    (temporal_position s) (filtering_spatial_position s)
    (Some v) (coeff s) (max_coeff s)
    (simplified_spatial_position s) (simplified_temporal_position s).

Definition set_coeff v (s : FastStray) : FastStray :=
  mkFastStray (params s) (position s) (sample_size s) (spatial_position s)
    (temporal_position s) (filtering_spatial_position s)
    (filtering_temporal_position s) (Some v) (max_coeff s)
    (simplified_spatial_position s) (simplified_temporal_position s).

Definition set_max_coeff v (s : FastStray) : FastStray :=
  mkFastStray (params s) (position s) (sample_size s) (spatial_position s)
    (temporal_position s) (filtering_spatial_position s)
    (filtering_temporal_position s) (coeff s) (Some v)
    (simplified_spatial_position s) (simplified_temporal_position s).

Definition set_simplified_spatial_position v (s : FastStray) : FastStray :=
  mkFastStray (params s) (position s) (sample_size s) (spatial_position s)
    (temporal_position s) (filtering_spatial_position s)
    (filtering_temporal_position s) (coeff s) (max_coeff s)
    (Some v) (simplified_temporal_position s).

Definition set_simplified_temporal_position v (s : FastStray) : FastStray :=
  mkFastStray (params s) (position s) (sample_size s) (spatial_position s)
    (temporal_position s) (filtering_spatial_position s)
    (filtering_temporal_position s) (coeff s) (max_coeff s)
    (simplified_spatial_position s) (Some v).

(** ** The method monad: state of [self], and exceptions

    A method is a function of the object that returns a value or raises,
    together with the object as the call left it (what was assigned before
    an exception stays assigned). *)

Definition M (A : Type) : Type := FastStray -> result A * FastStray.

Definition ret {A} (a : A) : M A := fun s => (Ok a, s).

Definition bind {A B} (m : M A) (k : A -> M B) : M B :=
  fun s =>
    match m s with
    | (Ok a, s') => k a s'
    | (Raise e, s') => (Raise e, s')
    end.

Definition lift {A} (r : result A) : M A := fun s => (r, s).

(** Reading [self.x]: [AttributeError] while nothing was assigned to it. *)
Definition attr {A} (f : FastStray -> option A) : M A :=
  fun s =>
    match f s with
    | Some a => (Ok a, s)
    | None => (Raise AttributeError, s)
    end.

(** Reading a dataclass field, which is always there. *)
Definition field {A} (f : FastStray -> A) : M A := fun s => (Ok (f s), s).

(** [self.x = v]. *)
Definition assign (f : FastStray -> FastStray) : M unit := fun s => (Ok tt, f s).

Declare Scope method_scope.
Delimit Scope method_scope with method.
Notation "x <- m ;; k" := (bind m (fun x => k))
  (at level 61, m at next level, right associativity) : method_scope.
Notation "m ;; k" := (bind m (fun _ => k))
  (at level 61, right associativity) : method_scope.
Local Open Scope method_scope.

(** [[*map(f, l)]] for a method [f]. *)
Fixpoint mmap {A B} (f : A -> M B) (l : list A) : M (list B) :=
  match l with
  | [] => ret []
  | a :: l' =>
      b <- f a ;;
      bs <- mmap f l' ;;
      ret (b :: bs)
  end.

(** [d[key]] on a dict. *)
Fixpoint dict_get (d : list (string * Z)) (key : string) : result Z :=
  match d with
  | [] => Raise KeyError
  | (k, v) :: d' => if String.eqb k key then Ok v else dict_get d' key
  end.

(** A 2-D array built by [np.array] from a list of rows is 1-D when the
    list is empty: indexing it with [[index, :]] then raises [IndexError]
    (too many indices).  [filtering_spatial_position] is built that way. *)
Definition take_rows {A} (a : list A) (index : list Z) : result (list A) :=
  match a with
  | [] => Raise IndexError
  | _ => take a index
  end.

(** ** Methods that do not call the correlation routine *)

(** [get_index]: one window per index of [range(sample_size)]. *)
Definition get_index (param : string) : M (list (list Z)) :=
  n <- field sample_size ;;
  ps <- field params ;;
  v <- lift (dict_get ps param) ;;
  ret (map (fun i => get_params_idx i v n) (range n)).

(** [mean_position]: [self.spatial_position[index, :].mean(axis=0)]. *)
Definition mean_position (index : list Z) : M (float * float) :=
  sp <- attr spatial_position ;;
  rows <- lift (take sp index) ;;
  ret (mean_axis0 rows).

Definition sub_spatial_array (index : list Z) : M (list (float * float)) :=
  fsp <- attr filtering_spatial_position ;;
  lift (take_rows fsp index).

Definition sub_temporal_array (index : list Z) : M (list float) :=
  ftp <- attr filtering_temporal_position ;;
  lift (take ftp index).

(** The built-in [max] of a sequence: the first item, replaced by each
    later item that is [>] the current one; [ValueError] when empty. *)
Definition py_max (l : list float) : result float :=
  match l with
  | [] => Raise ValueError
  | x :: r => Ok (fold_left (fun cur y => if F64.gtb y cur then y else cur) r x)
  end.

(** [sub_coeff]: [max(map(self.coeff.__getitem__, index))]. *)
Definition sub_coeff (index : list Z) : M float :=
  c <- attr coeff ;;
  vals <- lift (rmap (getitem c) index) ;;
  lift (py_max vals).

(** [moving_average]. *)
Definition moving_average : M unit :=
  pos <- field position ;;
  assign (set_spatial_position (map fst pos)) ;;
  assign (set_temporal_position (map snd pos)) ;;
  idx <- get_index "alpha" ;;
  new_spatial_position <- mmap mean_position idx ;;
  tp <- attr temporal_position ;;
  assign (set_filtering_spatial_position new_spatial_position) ;;
  assign (set_filtering_temporal_position tp).

(** [update_max_coeff]. *)
Definition update_max_coeff : M unit :=
  idx <- get_index "gamma" ;;
  mc <- mmap sub_coeff idx ;;
  assign (set_max_coeff mc).

(** The positions where [a == b] holds elementwise, counted from [i]. *)
Fixpoint where_eq_from (i : Z) (a b : list float) : list Z :=
  match a, b with
  | x :: a', y :: b' =>
      if F64.eqb x y then i :: where_eq_from (i + 1) a' b'
      else where_eq_from (i + 1) a' b'
  | _, _ => []
  end.

(** [np.where(np.array(a) == np.array(b))[0]].  The two lists have one
    entry per window in every run; arrays of different lengths do not
    compare elementwise (broadcasting of a one-element array apart, which
    is not modelled). *)
Definition where_eq (a b : list float) : result (list Z) :=
  if Nat.eqb (length a) (length b) then Ok (where_eq_from 0 a b)
  else Raise ValueError.

(** [simplified_trajectory]. *)
Definition simplified_trajectory : M unit :=
  mc <- attr max_coeff ;;
  c <- attr coeff ;;
  compress_index <- lift (where_eq mc c) ;;
  fsp <- attr filtering_spatial_position ;;
  rows <- lift (take_rows fsp compress_index) ;;
  assign (set_simplified_spatial_position rows) ;;
  ftp <- attr filtering_temporal_position ;;
  ts <- lift (take ftp compress_index) ;;
  assign (set_simplified_temporal_position ts).

(** [a / b] on two Python integers: [ZeroDivisionError] for [b = 0],
    otherwise the float nearest to the exact quotient. *)
Definition int_raw (z : Z) : float :=
  match z with
  | Z0 => S754_zero false
  | Zpos p => S754_finite false p 0
  | Zneg p => S754_finite true p 0
  end.

Definition int_truediv (a b : Z) : result float :=
  if b =? 0 then Raise ZeroDivisionError
  else Ok (F64.div (int_raw a) (int_raw b)).

(** [compression_rate]:
    [1. - (len(simplified_temporal_position) / len(temporal_position))]. *)
Definition compression_rate : M float :=
  stp <- attr simplified_temporal_position ;;
  tp <- attr temporal_position ;;
  q <- lift (int_truediv (Z.of_nat (length stp)) (Z.of_nat (length tp))) ;;
  ret (F64.sub F64.one q).

(** ** Methods around the correlation routine *)

Section Scorer.

(** [corr(x, y)[0]]: the statistic [scipy.stats.pearsonr] returns, or the
    exception it raises. *)
Variable corr : list float -> list float -> result float.

(** [ksi_func]: [pp] has the two spatial columns, [tt] the timestamps.
    [r ** 2] is the product [r * r]; [1. / x] is the IEEE quotient ([inf] for
    a zero [x], NaN for a NaN [x], with a warning only). *)
Definition ksi_func (pp : list (float * float)) (tt : list float) : result float :=
  let ppx := map fst pp in
  let ppy := map snd pp in
  rbind (corr ppx tt) (fun rx =>
  let rat_x := F64.mul rx rx in
  rbind (corr ppy tt) (fun ry =>
  let rat_y := F64.mul ry ry in
  Ok (F64.add (F64.div F64.one rat_x) (F64.div F64.one rat_y)))).

(** [update_coeff]: the two lazy [map]s are consumed in step, so window
    after window the spatial rows are taken, then the timestamps, then
    [ksi_func] is called. *)
Definition update_coeff : M unit :=
  idx <- get_index "beta" ;;
  c <- mmap (fun w =>
               pp <- sub_spatial_array w ;;
               tt <- sub_temporal_array w ;;
               lift (ksi_func pp tt)) idx ;;
  assign (set_coeff c).

(** [run]. *)
Definition run : M unit :=
  moving_average ;;
  update_coeff ;;
  update_max_coeff ;;
  simplified_trajectory.

End Scorer.

(** ** A reference instance of the correlation routine *)

(** [np.sign]. *)
Definition np_sign (x : float) : float :=
  match x with
  | S754_nan => F64.nan
  | S754_zero _ => F64.zero
  | S754_infinity s | S754_finite s _ _ => if s then F64.opp F64.one else F64.one
  end.

(** [(x == x[0]).all()]. *)
Definition all_equal_first (x : list float) : bool :=
  match x with
  | [] => true
  | x0 :: _ => forallb (fun v => F64.eqb v x0) x
  end.

(** [min(r, 1.0)] and [max(r, -1.0)] with the built-ins: the first argument
    stays unless the second compares strictly better. *)
Definition clip_unit (r : float) : float :=
  let r1 := if F64.ltb F64.one r then F64.one else r in
  if F64.gtb (F64.opp F64.one) r1 then F64.opp F64.one else r1.

(** Modelled from the spec: [scipy.stats.pearsonr] (imported as [corr]) is a
    library routine, not part of the repository.  The spec calls it the
    Pearson correlation coefficient of one spatial axis and the timestamps of
    a neighbourhood, undefined for fewer than two samples and for a constant
    axis, where the original yields NaN silently.  The model follows the
    routine's documented steps: [ValueError] for lengths that differ or are
    below 2, NaN for a constant input, the product of the two signs for two
    samples, and otherwise the dot product of the centred and normalised
    vectors clipped to [-1, 1].  Sums run left to right and the norm is the
    square root of the sum of squares; the library's own summation order and
    norm may round the last bits differently. *)
Definition pearsonr (x y : list float) : result float :=
  let n := length x in
  if negb (Nat.eqb n (length y)) then Raise ValueError
  else if Nat.ltb n 2 then Raise ValueError
  else if all_equal_first x || all_equal_first y then Ok F64.nan
  else
    match x, y with
    | [x0; x1], [y0; y1] =>
        Ok (F64.mul (np_sign (F64.sub x1 x0)) (np_sign (F64.sub y1 y0)))
    | _, _ =>
        let xmean := np_mean x in
        let ymean := np_mean y in
        let xm := map (fun v => F64.sub v xmean) x in
        let ym := map (fun v => F64.sub v ymean) y in
        let normxm := F64.sqrt (np_sum (map (fun v => F64.mul v v) xm)) in
        let normym := F64.sqrt (np_sum (map (fun v => F64.mul v v) ym)) in
        let r := np_sum (map (fun p => F64.mul (F64.div (fst p) normxm)
                                               (F64.div (snd p) normym))
                             (combine xm ym)) in
        Ok (clip_unit r)
    end.


(** ** Vocabulary of the specification *)

(** [l[lo:hi]] for [0 <= lo]. *)
Definition slice {A} (lo hi : Z) (l : list A) : list A :=
  firstn (Z.to_nat (hi - lo)) (skipn (Z.to_nat lo) l).

(** The neighbourhood window [[max(0, i - w), min(i + w, n))] of the
    specification, and the entries of a sequence that fall in it. *)
Definition window_lo (i w : Z) : Z := Z.max 0 (i - w).
Definition window_hi (i w n : Z) : Z := Z.min (i + w) n.

Definition window {A} (i w : Z) (l : list A) : list A :=
  slice (window_lo i w) (window_hi i w (Z.of_nat (length l))) l.

(** [l[i]] for an index known to be in range. *)
Definition at_index (l : list float) (i : Z) : float := nth (Z.to_nat i) l F64.nan.

(** The subsequence of [l] at the positions [idx], in the order of [idx]. *)
Definition select {A} (l : list A) (idx : list Z) : list A :=
  flat_map (fun i => match nth_error l (Z.to_nat i) with
                     | Some x => [x]
                     | None => []
                     end) idx.

(** The test of the suppression pass at index [i]: the maximum of the
    scores in the window of half-width [g] compares equal to [score[i]]. *)
Definition local_max (c : list float) (g i : Z) : bool :=
  match py_max (window i g c) with
  | Ok m => F64.eqb m (at_index c i)
  | Raise _ => false
  end.

Definition kept_indices (c : list float) (g : Z) : list Z :=
  filter (local_max c g) (range (Z.of_nat (length c))).

(** [m] is the greatest of [vals]: one of them, and [>=] each of them. *)
Definition greatest_of (m : float) (vals : list float) : Prop :=
  In m vals /\ forall v, In v vals -> F64.leb v m = true.

Definition nan_free (vals : list float) : Prop :=
  forall v, In v vals -> F64.is_nan v = false.

(** The three derived sequences of the specification, as functions of
    their inputs: one entry per index of the sequence. *)
Definition smoothed (a : Z) (sp : list (float * float)) : list (float * float) :=
  map (fun i => mean_axis0 (window i a sp)) (range (Z.of_nat (length sp))).

Definition scores (corr : list float -> list float -> result float) (b : Z)
    (sm : list (float * float)) (ts : list float) : result (list float) :=
  rmap (fun i => ksi_func corr (window i b sm) (window i b ts))
       (range (Z.of_nat (length sm))).

Definition max_scores (g : Z) (c : list float) : result (list float) :=
  rmap (fun i => py_max (window i g c)) (range (Z.of_nat (length c))).

(** ** The order of binary64 values

    Every value but NaN has a rank, a triple compared lexicographically:
    the class (negative infinity, negative, zero, positive, positive
    infinity), then the exponent and the mantissa, negated for negative
    values.  IEEE comparison is the comparison of ranks. *)
Definition rank (x : float) : Z * Z * Z :=
  match x with
  | S754_nan => (0, 0, 0)
  | S754_zero _ => (0, 0, 0)
  | S754_infinity true => (-2, 0, 0)
  | S754_infinity false => (2, 0, 0)
  | S754_finite true m e => (-1, - e, - Zpos m)
  | S754_finite false m e => (1, e, Zpos m)
  end.

Definition lex_compare (t u : Z * Z * Z) : comparison :=
  let '(a, b, c) := t in
  let '(a', b', c') := u in
  match a ?= a' with
  | Eq => match b ?= b' with
          | Eq => c ?= c'
          | r => r
          end
  | r => r
  end.

(** The object after a successful [moving_average] with half-width [a]. *)
Definition smoothed_state (a : Z) (s : FastStray) : FastStray :=
  let sp := map fst (position s) in
  let tp := map snd (position s) in
  set_filtering_temporal_position tp
    (set_filtering_spatial_position (smoothed a sp)
       (set_temporal_position tp (set_spatial_position sp s))).

(** The object after a successful [run] with smoothing half-width [a],
    scores [c], window maxima [mc] and suppression half-width [g]. *)
Definition compressed_state (a g : Z) (c mc : list float) (s : FastStray) : FastStray :=
  let sm := smoothed a (map fst (position s)) in
  let tp := map snd (position s) in
  set_simplified_temporal_position (select tp (kept_indices c g))
    (set_simplified_spatial_position (select sm (kept_indices c g))
       (set_max_coeff mc (set_coeff c (smoothed_state a s)))).

(** ** Sample inputs *)

Definition mk_params (a b g : Z) : list (string * Z) :=
  [("alpha"%string, a); ("beta"%string, b); ("gamma"%string, g)].

Definition point (x y t : Z) : float * float * float :=
  (F64.of_Z x, F64.of_Z y, F64.of_Z t).

(** [n] samples of uniform motion along the diagonal: [x = y = t = k]. *)
Definition diagonal (n : Z) : list (float * float * float) :=
  map (fun k => point k k k) (range n).

(** The diagonal of 8 samples, run with all three half-widths equal to 2. *)
Definition diagonal_run : FastStray := init (mk_params 2 2 2) (diagonal 8) 8.

(** A scoring neighbourhood is degenerate when it has fewer than two samples
    or one of its spatial axes is constant. *)
Definition degenerate (pp : list (float * float)) : bool :=
  Nat.ltb (length pp) 2
  || all_equal_first (map fst pp)
  || all_equal_first (map snd pp).

(** Two samples one second apart at the same longitude. *)
Definition still_pp : list (float * float) :=
  [(F64.of_Z 1, F64.of_Z 0); (F64.of_Z 1, F64.of_Z 1)].
Definition still_tt : list float := [F64.of_Z 0; F64.of_Z 1].

(** What the specification asks of the scorer: a degenerate neighbourhood
    ends in an exception or in a score that is not NaN. *)
Definition surfaces_degenerate
    (corr : list float -> list float -> result float) : Prop :=
  forall pp tt, degenerate pp = true ->
    match ksi_func corr pp tt with
    | Raise _ => True
    | Ok v => F64.is_nan v = false
    end.

(** Three samples of the diagonal, smoothed with half-width 0. *)
Definition unsmoothed_run : FastStray := init (mk_params 0 2 2) (diagonal 3) 3.

(** An instance built on a trajectory of no rows. *)
Definition empty_run (ps : list (string * Z)) : FastStray := init ps [] 0.

(** The score of a neighbourhood whose two correlations are [1] or [-1]. *)
Definition two : float := Eval cbv in F64.of_Z 2.

(** Two samples of the diagonal: every scoring window holds both. *)
Definition two_point_run : FastStray := init (mk_params 1 2 1) (diagonal 2) 2.

(** ** Rounding, in integers

    A shift record [(m, r, s)] locates a non-negative rational [X / U]
    between two integers: [m] is its floor, the round bit [r] tells whether
    the remainder reaches one half, the sticky bit [s] whether it is neither
    zero nor one half. *)
Definition locates (X U : Z) (mrs : shr_record) : Prop :=
  shr_m mrs = X / U /\
  shr_r mrs = (U <=? 2 * (X mod U)) /\
  shr_s mrs = negb (X mod U =? 0) && negb (2 * (X mod U) =? U).

(** [X / U] rounded to the nearest integer, ties to even. *)
Definition round_half_even (X U : Z) : Z :=
  let q := X / U in
  let r := X mod U in
  if 2 * r <? U then q
  else if 2 * r =? U then (if Z.even q then q else q + 1)
  else q + 1.

(** The float of mantissa [M] and exponent [E], for [2^52 <= M <= 2^53]. *)
Definition normal (M E : Z) : float :=
  if M =? 2 ^ 53 then S754_finite false (Z.to_pos (2 ^ 52)) (E + 1)
  else S754_finite false (Z.to_pos M) E.

(** The value of the rate formula on two lengths. *)
Definition rate_of (k n : Z) : float :=
  F64.sub F64.one (F64.div (int_raw k) (int_raw n)).

(** [X / V], with 53 binary digits before the point, times [2^E] is the
    fraction [a / b]. *)
Definition represents (a b X V E : Z) : Prop :=
  0 < V /\ 2 ^ 52 * V <= X < 2 ^ 53 * V /\ E <= 0 /\
  X * b = a * V * 2 ^ (- E).

(** The scores of [diagonal_run]. *)
Definition diagonal_scores : list float :=
  Eval vm_compute in
    match coeff (snd (run pearsonr diagonal_run)) with
    | Some c => c
    | None => []
    end.

(** Six samples with jitter: the longitude rests over the first three, the
    latitude alternates. *)
Definition jitter : list (float * float * float) :=
  [point 0 1 0; point 0 (-1) 1; point 0 1 2;
   point 2 (-1) 3; point (-2) 1 4; point 0 1 5].

Definition jitter_run (g : Z) : FastStray := init (mk_params 1 2 g) jitter 6.

(** ** What the stages read

    The value [update_coeff] computes for one window on an object [s], and
    the one [update_max_coeff] computes, attribute lookups included. *)
Definition score_window (corr : list float -> list float -> result float)
    (s : FastStray) (w : list Z) : result float :=
  match filtering_spatial_position s with
  | None => Raise AttributeError
  | Some sm =>
      rbind (take_rows sm w) (fun pp =>
        match filtering_temporal_position s with
        | None => Raise AttributeError
        | Some ts => rbind (take ts w) (fun tt => ksi_func corr pp tt)
        end)
  end.

Definition max_window (s : FastStray) (w : list Z) : result float :=
  match coeff s with
  | None => Raise AttributeError
  | Some c => rbind (rmap (getitem c) w) py_max
  end.

(** The windows of an object for a half-width [v]. *)
Definition windows (v : Z) (s : FastStray) : list (list Z) :=
  map (fun i => get_params_idx i v (sample_size s)) (range (sample_size s)).

(** [sub] is [l] with some entries left out, the others in their order. *)
Inductive subseq {A : Type} : list A -> list A -> Prop :=
| subseq_nil : subseq [] []
| subseq_skip x sub l : subseq sub l -> subseq sub (x :: l)
| subseq_keep x sub l : subseq sub l -> subseq (x :: sub) (x :: l).

(** A float that is [+0.0], positive, or [+inf]. *)
Definition nonneg_float (x : float) : bool :=
  match x with
  | S754_zero false | S754_infinity false | S754_finite false _ _ => true
  | _ => false
  end.

(** The two coordinates of a row exchanged. *)
Definition swap_axes (p : float * float) : float * float := (snd p, fst p).

(** The diagonal of 3 samples under a [sample_size] of 5, and under one of 2. *)
Definition oversized_run : FastStray := init (mk_params 1 2 1) (diagonal 3) 5.
Definition undersized_run : FastStray := init (mk_params 1 2 1) (diagonal 3) 2.

(** Three samples whose longitude goes out and back while the latitude
    advances. *)
Definition detour_pp : list (float * float) :=
  [(F64.of_Z 0, F64.of_Z 0); (F64.of_Z 1, F64.of_Z 1); (F64.of_Z 0, F64.of_Z 2)].
Definition detour_tt : list float := [F64.of_Z 0; F64.of_Z 1; F64.of_Z 2].

(** ** Readings of "the maximum of a window"

    [greatest_of] asks the value to be [>=] every entry, which no value is
    when an entry is NaN; [unsurpassed] only asks that no entry be greater,
    which lets NaN entries pass. *)
Definition unsurpassed (m : float) (vals : list float) : Prop :=
  In m vals /\ forall v, In v vals -> F64.gtb v m = false.

(** The scores of the jitter trajectory (the same for every [gamma]). *)
Definition jitter_scores : list float :=
  Eval vm_compute in
    match coeff (snd (run pearsonr (jitter_run 1))) with
    | Some c => c
    | None => []
    end.
(** * Properties *)

(** ** Ranges and indexing *)

Lemma arange_length lo hi : length (arange lo hi) = Z.to_nat (hi - lo).
Proof. unfold arange. now rewrite length_map, length_seq. Qed.

Lemma arange_nth lo hi k d :
  (k < Z.to_nat (hi - lo))%nat -> nth k (arange lo hi) d = lo + Z.of_nat k.
Proof.
  intros Hk. unfold arange.
  rewrite nth_indep with (d' := lo + Z.of_nat 0)
    by now rewrite length_map, length_seq.
  change (lo + Z.of_nat 0) with ((fun j => lo + Z.of_nat j) 0%nat).
  rewrite map_nth, seq_nth by assumption. reflexivity.
Qed.

Lemma In_arange lo hi j : In j (arange lo hi) <-> lo <= j < hi.
Proof.
  unfold arange. rewrite in_map_iff. split.
  - intros (k & <- & Hk). apply in_seq in Hk. lia.
  - intros H. exists (Z.to_nat (j - lo)). split; [lia|].
    apply in_seq. lia.
Qed.

Lemma arange_empty lo hi : hi <= lo -> arange lo hi = [].
Proof.
  intros H. unfold arange. replace (Z.to_nat (hi - lo)) with 0%nat by lia.
  reflexivity.
Qed.

Lemma arange_cons lo hi : lo < hi -> arange lo hi = lo :: arange (lo + 1) hi.
Proof.
  intros H. unfold arange.
  replace (Z.to_nat (hi - lo)) with (S (Z.to_nat (hi - (lo + 1)))) by lia.
  cbn [seq map]. f_equal; [lia|].
  rewrite <- seq_shift, map_map. apply map_ext. intros k. lia.
Qed.


Lemma getitem_nth_error {A} (a : list A) (i : Z) :
  0 <= i < Z.of_nat (length a) ->
  exists x, nth_error a (Z.to_nat i) = Some x /\ getitem a i = Ok x.
Proof.
  intros H. unfold getitem.
  replace ((0 <=? i) && (i <? Z.of_nat (length a))) with true
    by (symmetry; apply andb_true_iff; split; [apply Z.leb_le | apply Z.ltb_lt]; lia).
  destruct (nth_error a (Z.to_nat i)) as [x|] eqn:E.
  - now exists x.
  - apply nth_error_None in E. lia.
Qed.

Lemma getitem_out_of_range {A} (a : list A) (i : Z) :
  Z.of_nat (length a) <= i -> getitem a i = Raise IndexError.
Proof.
  intros H. unfold getitem.
  replace ((0 <=? i) && (i <? Z.of_nat (length a))) with false
    by (symmetry; apply andb_false_iff; right; apply Z.ltb_ge; lia).
  replace ((- Z.of_nat (length a) <=? i) && (i <? 0)) with false
    by (symmetry; apply andb_false_iff; right; apply Z.ltb_ge; lia).
  reflexivity.
Qed.

(** ** [rmap] *)

Lemma rmap_ok_map {A B} (f : A -> result B) (g : A -> B) (l : list A) :
  (forall a, In a l -> f a = Ok (g a)) -> rmap f l = Ok (map g l).
Proof.
  induction l as [|a l IH]; intros H; cbn; [reflexivity|].
  rewrite (H a (or_introl eq_refl)), IH; [reflexivity|].
  intros b Hb. apply H. now right.
Qed.

Lemma rmap_ext_in {A B} (f g : A -> result B) (l : list A) :
  (forall a, In a l -> f a = g a) -> rmap f l = rmap g l.
Proof.
  induction l as [|a l IH]; intros H; cbn; [reflexivity|].
  rewrite (H a (or_introl eq_refl)), IH; [reflexivity|].
  intros b Hb. apply H. now right.
Qed.

Lemma rmap_length {A B} (f : A -> result B) (l : list A) bs :
  rmap f l = Ok bs -> length bs = length l.
Proof.
  revert bs. induction l as [|a l IH]; cbn; intros bs H.
  - now inversion H.
  - destruct (f a); [|discriminate]. destruct (rmap f l); [|discriminate].
    inversion H; subst. cbn. f_equal. now apply IH.
Qed.

Lemma rmap_nth_error {A B} (f : A -> result B) (l : list A) bs k a :
  rmap f l = Ok bs -> nth_error l k = Some a ->
  exists b, nth_error bs k = Some b /\ f a = Ok b.
Proof.
  revert bs k. induction l as [|a0 l IH]; cbn; intros bs k H Hk.
  - destruct k; discriminate.
  - destruct (f a0) as [b0|] eqn:E0; [|discriminate].
    destruct (rmap f l) as [bs'|]; [|discriminate].
    inversion H; subst. destruct k as [|k]; cbn in *.
    + inversion Hk; subst. now exists b0.
    + now apply IH.
Qed.

(** Taking a contiguous range of valid positions is slicing. *)
Lemma take_arange {A} (a : list A) (lo hi : Z) :
  0 <= lo -> hi <= Z.of_nat (length a) ->
  take a (arange lo hi) = Ok (slice lo hi a).
Proof.
  intros Hlo Hhi. unfold take, slice.
  destruct (Z_le_gt_dec hi lo) as [Hle|Hgt].
  { rewrite arange_empty by assumption.
    replace (Z.to_nat (hi - lo)) with 0%nat by lia. reflexivity. }
  remember (Z.to_nat (hi - lo)) as k eqn:Hk.
  assert (Hhi' : hi = lo + Z.of_nat k) by lia. subst hi. clear Hk Hgt.
  revert lo Hlo Hhi. induction k as [|k IH]; intros lo Hlo Hhi.
  - rewrite arange_empty by lia. reflexivity.
  - rewrite arange_cons by lia. cbn [rmap].
    destruct (getitem_nth_error a lo) as (x & Hx & ->); [lia|].
    replace (lo + Z.of_nat (S k)) with ((lo + 1) + Z.of_nat k) by lia.
    rewrite IH by lia.
    replace (Z.to_nat (lo + 1)) with (S (Z.to_nat lo)) by lia.
    f_equal.
    clear - Hx. revert Hx. generalize (Z.to_nat lo) as j. intros j.
    revert a. induction j as [|j IHj]; intros [|y a] Hx; cbn in *; try discriminate.
    + now inversion Hx.
    + now apply IHj.
Qed.

(** ** WindowIndexer *)

Lemma get_params_idx_window (i w n : Z) :
  get_params_idx i w n = arange (window_lo i w) (window_hi i w n).
Proof. reflexivity. Qed.

Lemma In_get_params_idx (i w n j : Z) :
  In j (get_params_idx i w n) <-> Z.max 0 (i - w) <= j < Z.min (i + w) n.
Proof. unfold get_params_idx. apply In_arange. Qed.

(** C2.  For a centre in [[0, length)], a half-width [>= 0] and a length
    [>= 1], the window is the ascending range
    [[max(0, c - h), min(c + h, length))]: it has [hi - lo] entries (none when
    [hi <= lo]), its [k]-th entry is [lo + k], an integer is in it exactly
    when [lo <= j < hi], the upper bound [c + h] itself is never in it, every
    entry lies in [[0, length)], and [window(5, 3, 100)] is [2..7], without
    8. *)
Theorem C2_window_is_clipped_half_open_range (c h n : Z) :
  0 <= c < n -> 0 <= h -> 1 <= n ->
  let lo := Z.max 0 (c - h) in
  let hi := Z.min (c + h) n in
  let w := get_params_idx c h n in
  length w = Z.to_nat (hi - lo) /\
  (forall k, (k < length w)%nat -> nth k w 0 = lo + Z.of_nat k) /\
  (forall j, In j w <-> lo <= j < hi) /\
  ~ In (c + h) w /\
  (forall j, In j w -> 0 <= j < n) /\
  get_params_idx 5 3 100 = [2; 3; 4; 5; 6; 7] /\
  ~ In 8 (get_params_idx 5 3 100).
Proof.
  intros Hc Hh Hn lo hi w. subst w. unfold get_params_idx. fold lo hi.
  split; [apply arange_length|].
  split; [intros k Hk; rewrite arange_length in Hk; now apply arange_nth|].
  split; [intros j; apply In_arange|].
  split; [intros Hin; apply In_arange in Hin; subst hi; lia|].
  split; [intros j Hin; apply In_arange in Hin; subst lo hi; lia|].
  split; [reflexivity|].
  intros Hin. apply In_arange in Hin. lia.
Qed.

Lemma C2_window_witness :
  length (get_params_idx 5 3 100) = 6%nat /\ ~ In 8 (get_params_idx 5 3 100).
Proof.
  destruct (C2_window_is_clipped_half_open_range 5 3 100) as (Hlen & _ & _ & _ & _ & _ & H8);
    [lia | lia | lia |].
  split; [exact Hlen | exact H8].
Defined.

(** ** The method monad *)

Lemma bind_ok {A B} (m : M A) (k : A -> M B) s a s' :
  m s = (Ok a, s') -> bind m k s = k a s'.
Proof. intros H. unfold bind. now rewrite H. Qed.

Lemma bind_raise {A B} (m : M A) (k : A -> M B) s e s' :
  m s = (Raise e, s') -> bind m k s = (Raise e, s').
Proof. intros H. unfold bind. now rewrite H. Qed.

Lemma bind_ok_inv {A B} (m : M A) (k : A -> M B) s b s2 :
  bind m k s = (Ok b, s2) -> exists a s1, m s = (Ok a, s1) /\ k a s1 = (Ok b, s2).
Proof.
  unfold bind. destruct (m s) as [[a|e] s1]; intros H.
  - now exists a, s1.
  - discriminate.
Qed.

(** A [map] of calls that only read [self] is a pure [rmap]. *)
Lemma mmap_read_only {A B} (f : A -> M B) (g : A -> result B) (l : list A) s :
  (forall a, In a l -> f a s = (g a, s)) -> mmap f l s = (rmap g l, s).
Proof.
  induction l as [|a l IH]; intros H; cbn [mmap rmap]; [reflexivity|].
  unfold bind at 1. rewrite (H a (or_introl eq_refl)).
  destruct (g a) as [b|e]; [|reflexivity].
  unfold bind at 1. rewrite IH by (intros x Hx; apply H; now right).
  destruct (rmap g l); reflexivity.
Qed.

Lemma get_index_run (param : string) s :
  get_index param s =
    (rbind (dict_get (params s) param)
       (fun v => Ok (map (fun i => get_params_idx i v (sample_size s))
                         (range (sample_size s)))), s).
Proof.
  unfold get_index, bind, field, lift, ret.
  destruct (dict_get (params s) param); reflexivity.
Qed.

Lemma rmap_map {A B C} (f : B -> result C) (h : A -> B) (l : list A) :
  rmap f (map h l) = rmap (fun a => f (h a)) l.
Proof.
  induction l as [|a l IH]; cbn; [reflexivity|]. now rewrite IH.
Qed.

Lemma take_window {A} (l : list A) (i w : Z) :
  take l (get_params_idx i w (Z.of_nat (length l))) = Ok (window i w l).
Proof.
  unfold get_params_idx, window, window_lo, window_hi.
  apply take_arange; lia.
Qed.

Lemma In_range n i : In i (range n) <-> 0 <= i < n.
Proof. unfold range. apply In_arange. Qed.

Lemma range_length n : length (range n) = Z.to_nat n.
Proof. unfold range. rewrite arange_length. f_equal. lia. Qed.

(** ** What each stage computes *)

(** [moving_average], on any object: the two column views are assigned
    first, then the smoothed rows are computed window by window. *)
Lemma moving_average_run s :
  let sp := map fst (position s) in
  let tp := map snd (position s) in
  let s1 := set_temporal_position tp (set_spatial_position sp s) in
  moving_average s =
    match dict_get (params s) "alpha" with
    | Raise e => (Raise e, s1)
    | Ok a =>
        match rmap (fun i => rbind (take sp (get_params_idx i a (sample_size s)))
                               (fun rows => Ok (mean_axis0 rows)))
                   (range (sample_size s)) with
        | Raise e => (Raise e, s1)
        | Ok new =>
            (Ok tt, set_filtering_temporal_position tp
                      (set_filtering_spatial_position new s1))
        end
    end.
Proof.
  intros sp tp s1. unfold moving_average.
  unfold bind at 1. unfold field at 1.
  unfold bind at 1. unfold assign at 1.
  unfold bind at 1. unfold assign at 1.
  unfold bind at 1. rewrite get_index_run. cbn [params sample_size set_spatial_position set_temporal_position].
  fold sp tp. fold s1.
  destruct (dict_get (params s) "alpha") as [a|e]; cbn [rbind]; [|reflexivity].
  unfold bind at 1.
  rewrite mmap_read_only with
    (g := fun w => rbind (take sp w) (fun rows => Ok (mean_axis0 rows))).
  2:{ intros w _. unfold mean_position, bind, attr, lift, ret. cbn.
      unfold rbind. destruct (take _ w); reflexivity. }
  rewrite rmap_map.
  destruct (rmap _ (range (sample_size s))) as [new|e]; [|reflexivity].
  reflexivity.
Qed.

(** With one window per row, no index is out of bounds: smoothing always
    succeeds, and the rows are the window means. *)
Lemma moving_average_ok s a :
  sample_size s = Z.of_nat (length (position s)) ->
  dict_get (params s) "alpha" = Ok a ->
  moving_average s =
    (Ok tt,
     set_filtering_temporal_position (map snd (position s))
       (set_filtering_spatial_position (smoothed a (map fst (position s)))
          (set_temporal_position (map snd (position s))
             (set_spatial_position (map fst (position s)) s)))).
Proof.
  intros Hn Ha. rewrite moving_average_run. cbv zeta. rewrite Ha.
  rewrite rmap_ok_map with
    (g := fun i => mean_axis0 (window i a (map fst (position s)))).
  - unfold smoothed. rewrite length_map, <- Hn. reflexivity.
  - intros i _. rewrite Hn.
    rewrite <- (length_map fst (position s)), take_window. reflexivity.
Qed.

Lemma nth_error_range n i :
  0 <= i < n -> nth_error (range n) (Z.to_nat i) = Some i.
Proof.
  intros H. unfold range.
  rewrite nth_error_nth' with (d := 0) by (rewrite arange_length; lia).
  rewrite arange_nth by lia. f_equal. lia.
Qed.

Lemma nth_error_map_range {B} (f : Z -> B) n i :
  0 <= i < n -> nth_error (map f (range n)) (Z.to_nat i) = Some (f i).
Proof.
  intros H. rewrite nth_error_map, nth_error_range by assumption. reflexivity.
Qed.

Lemma smoothed_length a sp : length (smoothed a sp) = length sp.
Proof. unfold smoothed. rewrite length_map, range_length. lia. Qed.

(** ** Smoother *)

Lemma slice_length {A} (lo hi : Z) (l : list A) :
  0 <= lo -> hi <= Z.of_nat (length l) ->
  Z.of_nat (length (slice lo hi l)) = Z.max 0 (hi - lo).
Proof.
  intros Hlo Hhi. unfold slice. rewrite length_firstn, length_skipn. lia.
Qed.

Lemma np_mean_empty : F64.is_nan (np_mean []) = true.
Proof. reflexivity. Qed.

(** C3.  On a trajectory of [n >= 1] rows (with [sample_size = n]) and for
    every [alpha], [moving_average] returns normally; the smoothed spatial
    sequence has [n] rows of two coordinates, and row [i] is, coordinate by
    coordinate, the arithmetic mean of the input rows at
    [[max(0, i - alpha), min(i + alpha, n))]: their sum, added from the
    first row to the last, divided by their number.  That window holds a row
    exactly when [alpha >= 1]; the mean of no row (for [alpha <= 0]) is NaN.
    The temporal sequence that goes with the smoothed rows is the input's
    timestamp column, unchanged. *)
Theorem C3_moving_average_is_window_mean (s : FastStray) (a : Z) :
  sample_size s = Z.of_nat (length (position s)) ->
  1 <= sample_size s ->
  dict_get (params s) "alpha" = Ok a ->
  let n := sample_size s in
  let sp := map fst (position s) in
  exists s' sm,
    moving_average s = (Ok tt, s') /\
    filtering_spatial_position s' = Some sm /\
    length sm = length (position s) /\
    (forall i, 0 <= i < n ->
       let rows := slice (Z.max 0 (i - a)) (Z.min (i + a) n) sp in
       let count := F64.of_Z (Z.of_nat (length rows)) in
       exists x y,
         nth_error sm (Z.to_nat i) = Some (x, y) /\
         match rows with
         | [] => a <= 0 /\ F64.is_nan x = true /\ F64.is_nan y = true
         | (x0, y0) :: rest =>
             1 <= a /\
             x = F64.div (fold_left F64.add (map fst rest) x0) count /\
             y = F64.div (fold_left F64.add (map snd rest) y0) count
         end) /\
    filtering_temporal_position s' = Some (map snd (position s)) /\
    temporal_position s' = Some (map snd (position s)).
Proof.
  intros Hn H1 Ha n sp.
  eexists. exists (smoothed a sp).
  split; [apply moving_average_ok; eassumption|].
  split; [reflexivity|].
  split; [subst sp; now rewrite smoothed_length, length_map|].
  split; [|split; reflexivity].
  intros i Hi rows count. unfold smoothed.
  assert (Hlen : Z.of_nat (length sp) = n)
    by (subst sp n; now rewrite length_map, Hn).
  rewrite Hlen, nth_error_map_range by assumption.
  assert (Hw : window i a sp = rows)
    by (unfold window, window_lo, window_hi; now rewrite Hlen).
  rewrite Hw. unfold mean_axis0.
  exists (np_mean (map fst rows)), (np_mean (map snd rows)).
  split; [reflexivity|].
  assert (Hrows : Z.of_nat (length rows)
                  = Z.max 0 (Z.min (i + a) n - Z.max 0 (i - a)))
    by (subst rows; apply slice_length; lia).
  subst count. destruct rows as [|[x0 y0] rest].
  - cbn [length] in Hrows. split; [lia|]. split; apply np_mean_empty.
  - cbn [length] in Hrows. split; [lia|].
    unfold np_mean, np_sum. cbn [map fst snd length].
    rewrite !length_map. split; reflexivity.
Qed.

Lemma C3_moving_average_witness :
  exists s' sm,
    moving_average diagonal_run = (Ok tt, s') /\
    filtering_spatial_position s' = Some sm /\
    length sm = 8%nat /\
    nth_error sm 0 = Some (F64.dyadic 1 1, F64.dyadic 1 1) /\
    nth_error sm 3 = Some (F64.dyadic 5 1, F64.dyadic 5 1) /\
    nth_error sm 7 = Some (F64.of_Z 6, F64.of_Z 6) /\
    filtering_temporal_position s' = Some (map snd (diagonal 8)).
Proof.
  destruct (C3_moving_average_is_window_mean diagonal_run 2)
    as (s' & sm & Hrun & Hsm & Hlen & Hrow & Hts & _);
    [reflexivity | change (1 <= 8); lia | reflexivity |].
  exists s', sm.
  split; [exact Hrun|]. split; [exact Hsm|]. split; [exact Hlen|].
  split; [|split; [|split; [|exact Hts]]].
  - destruct (Hrow 0) as (x & y & Hnth & Hmean); [change (0 <= 0 < 8); lia|].
    vm_compute in Hmean. destruct Hmean as (_ & -> & ->). exact Hnth.
  - destruct (Hrow 3) as (x & y & Hnth & Hmean); [change (0 <= 3 < 8); lia|].
    vm_compute in Hmean. destruct Hmean as (_ & -> & ->). exact Hnth.
  - destruct (Hrow 7) as (x & y & Hnth & Hmean); [change (0 <= 7 < 8); lia|].
    vm_compute in Hmean. destruct Hmean as (_ & -> & ->). exact Hnth.
Defined.

Lemma take_rows_take {A} (a : list A) idx :
  0 < Z.of_nat (length a) -> take_rows a idx = take a idx.
Proof. destruct a; cbn; [lia | reflexivity]. Qed.

(** [update_coeff] on an object whose smoothed rows and timestamps are set,
    one per index: the scores, or the first exception of the correlation
    routine. *)
Lemma update_coeff_run corr s b sm ts :
  filtering_spatial_position s = Some sm ->
  filtering_temporal_position s = Some ts ->
  sample_size s = Z.of_nat (length sm) ->
  length ts = length sm ->
  dict_get (params s) "beta" = Ok b ->
  update_coeff corr s =
    match scores corr b sm ts with
    | Ok c => (Ok tt, set_coeff c s)
    | Raise e => (Raise e, s)
    end.
Proof.
  intros Hsm Hts Hn Hlen Hb. unfold update_coeff.
  unfold bind at 1. rewrite get_index_run, Hb. cbn [rbind].
  unfold bind at 1.
  rewrite mmap_read_only with
    (g := fun w => rbind (take_rows sm w)
                     (fun pp => rbind (take ts w) (fun tt => ksi_func corr pp tt))).
  2:{ intros w _. unfold sub_spatial_array, sub_temporal_array, bind, attr, lift.
      rewrite Hsm, Hts. unfold rbind.
      destruct (take_rows sm w); [|reflexivity].
      destruct (take ts w); reflexivity. }
  rewrite rmap_map. unfold scores.
  rewrite rmap_ext_in with
    (g := fun i => ksi_func corr (window i b sm) (window i b ts)).
  - rewrite Hn. destruct (rmap _ _); reflexivity.
  - intros i Hi. apply In_range in Hi.
    assert (take_rows sm (get_params_idx i b (sample_size s))
            = Ok (window i b sm)) as ->.
    { rewrite take_rows_take by lia. rewrite Hn. apply take_window. }
    cbn [rbind]. rewrite Hn, <- Hlen, take_window. reflexivity.
Qed.

(** [update_max_coeff] on an object whose scores are set, one per index. *)
Lemma update_max_coeff_run s g c :
  coeff s = Some c ->
  sample_size s = Z.of_nat (length c) ->
  dict_get (params s) "gamma" = Ok g ->
  update_max_coeff s =
    match max_scores g c with
    | Ok mc => (Ok tt, set_max_coeff mc s)
    | Raise e => (Raise e, s)
    end.
Proof.
  intros Hc Hn Hg. unfold update_max_coeff.
  unfold bind at 1. rewrite get_index_run, Hg. cbn [rbind].
  unfold bind at 1.
  rewrite mmap_read_only with
    (g := fun w => rbind (rmap (getitem c) w) py_max).
  2:{ intros w _. unfold sub_coeff, bind, attr, lift. rewrite Hc.
      unfold rbind. destruct (rmap (getitem c) w); reflexivity. }
  rewrite rmap_map. unfold max_scores.
  rewrite rmap_ext_in with (g := fun i => py_max (window i g c)).
  - rewrite Hn. destruct (rmap _ _); reflexivity.
  - intros i _. rewrite Hn. fold (take c (get_params_idx i g (Z.of_nat (length c)))).
    rewrite take_window. reflexivity.
Qed.

(** ** Selection *)

Lemma take_select {A} (a : list A) (idx : list Z) :
  (forall i, In i idx -> 0 <= i < Z.of_nat (length a)) ->
  take a idx = Ok (select a idx).
Proof.
  unfold take, select. induction idx as [|i idx IH]; intros H; cbn; [reflexivity|].
  destruct (getitem_nth_error a i) as (x & Hx & ->); [apply H; now left|].
  rewrite Hx, IH by (intros j Hj; apply H; now right). reflexivity.
Qed.

Lemma where_eq_from_filter (a b : list float) (k : Z) :
  length a = length b ->
  where_eq_from k a b =
    filter (fun i => F64.eqb (nth (Z.to_nat (i - k)) a F64.nan)
                             (nth (Z.to_nat (i - k)) b F64.nan))
           (arange k (k + Z.of_nat (length a))).
Proof.
  revert b k. induction a as [|x a IH]; intros [|y b] k Hlen; try discriminate.
  - cbn. rewrite arange_empty by lia. reflexivity.
  - cbn [where_eq_from]. rewrite arange_cons by (cbn [length]; lia).
    cbn [filter]. replace (Z.to_nat (k - k)) with 0%nat by lia. cbn [nth].
    assert (Hrec : where_eq_from (k + 1) a b =
      filter (fun i => F64.eqb (nth (Z.to_nat (i - k)) (x :: a) F64.nan)
                               (nth (Z.to_nat (i - k)) (y :: b) F64.nan))
             (arange (k + 1) (k + Z.of_nat (length (x :: a))))).
    { rewrite IH by (cbn in Hlen; lia).
      replace (k + 1 + Z.of_nat (length a)) with (k + Z.of_nat (length (x :: a)))
        by (cbn [length]; lia).
      apply filter_ext_in. intros i Hi. apply In_arange in Hi.
      replace (Z.to_nat (i - k)) with (S (Z.to_nat (i - (k + 1)))) by lia.
      reflexivity. }
    rewrite Hrec. reflexivity.
Qed.

Lemma In_where_eq_from a b k i :
  length a = length b ->
  In i (where_eq_from k a b) -> k <= i < k + Z.of_nat (length a).
Proof.
  intros Hlen Hin. rewrite where_eq_from_filter in Hin by assumption.
  apply filter_In in Hin. destruct Hin as [Hin _]. now apply In_arange in Hin.
Qed.

Lemma max_scores_length g c mc : max_scores g c = Ok mc -> length mc = length c.
Proof.
  intros H. apply rmap_length in H. rewrite H, range_length. lia.
Qed.

Lemma max_scores_nth g c mc i :
  max_scores g c = Ok mc -> 0 <= i < Z.of_nat (length c) ->
  py_max (window i g c) = Ok (nth (Z.to_nat i) mc F64.nan).
Proof.
  intros H Hi.
  destruct (rmap_nth_error _ _ _ (Z.to_nat i) i H (nth_error_range _ _ Hi))
    as (m & Hm & ->).
  f_equal. symmetry. now apply nth_error_nth.
Qed.

(** The positions where the window maximum compares equal to the score are
    the indices that pass the local-maximum test. *)
Lemma where_eq_kept g c mc :
  max_scores g c = Ok mc -> where_eq_from 0 mc c = kept_indices c g.
Proof.
  intros H. pose proof (max_scores_length _ _ _ H) as Hlen.
  rewrite where_eq_from_filter by assumption.
  unfold kept_indices, range. rewrite Hlen. cbn [Z.add].
  apply filter_ext_in. intros i Hi. apply In_arange in Hi.
  unfold local_max. rewrite (max_scores_nth _ _ _ _ H) by lia.
  rewrite Z.sub_0_r. reflexivity.
Qed.

Lemma In_kept_indices c g i :
  In i (kept_indices c g) <->
  0 <= i < Z.of_nat (length c) /\ local_max c g i = true.
Proof.
  unfold kept_indices. rewrite filter_In, In_range. reflexivity.
Qed.

(** [simplified_trajectory] on an object whose scores, window maxima and
    smoothed trajectory are set, one entry per index. *)
Lemma simplified_trajectory_run s g c mc sm ts :
  coeff s = Some c ->
  max_coeff s = Some mc ->
  max_scores g c = Ok mc ->
  filtering_spatial_position s = Some sm ->
  filtering_temporal_position s = Some ts ->
  length sm = length c -> length ts = length c -> (0 < length c)%nat ->
  simplified_trajectory s =
    (Ok tt,
     set_simplified_temporal_position (select ts (kept_indices c g))
       (set_simplified_spatial_position (select sm (kept_indices c g)) s)).
Proof.
  intros Hc Hmc Hmax Hsm Hts Hlsm Hlts Hpos.
  pose proof (max_scores_length _ _ _ Hmax) as Hlen.
  assert (Hin : forall i, In i (kept_indices c g) -> 0 <= i < Z.of_nat (length c))
    by (intros i Hi; now apply In_kept_indices in Hi).
  unfold simplified_trajectory, bind, attr, lift, assign.
  rewrite Hmc, Hc. unfold where_eq. rewrite Hlen, Nat.eqb_refl.
  rewrite (where_eq_kept _ _ _ Hmax). rewrite Hsm.
  rewrite take_rows_take by lia.
  rewrite take_select by (rewrite Hlsm; exact Hin).
  cbn [filtering_temporal_position set_simplified_spatial_position]. rewrite Hts.
  rewrite take_select by (rewrite Hlts; exact Hin).
  reflexivity.
Qed.

(** ** The order of floats *)

Lemma SFcompare_rank (x y : float) :
  F64.is_nan x = false -> F64.is_nan y = false ->
  SFcompare x y = Some (lex_compare (rank x) (rank y)).
Proof.
  destruct x as [sx|sx| |sx mx ex], y as [sy|sy| |sy my ey];
    cbn; intros Hx Hy; try discriminate;
    try (destruct sx); try (destruct sy); cbn; try reflexivity.
  rewrite Z.compare_opp, (Z.compare_antisym ex ey).
  destruct (ex ?= ey); cbn; reflexivity.
Qed.

Lemma SFcompare_nan (x y : float) :
  SFcompare x y <> None -> F64.is_nan x = false /\ F64.is_nan y = false.
Proof.
  destruct x as [sx|sx| |sx mx ex], y as [sy|sy| |sy my ey]; cbn; intros H;
    try (now split); now elim H.
Qed.

Lemma leb_not_nan x y :
  F64.leb x y = true -> F64.is_nan x = false /\ F64.is_nan y = false.
Proof.
  unfold F64.leb, SFleb. intros H. apply SFcompare_nan.
  destruct (SFcompare x y); [discriminate | discriminate].
Qed.

Lemma eqb_not_nan x y :
  F64.eqb x y = true -> F64.is_nan x = false /\ F64.is_nan y = false.
Proof.
  unfold F64.eqb, SFeqb. intros H. apply SFcompare_nan.
  destruct (SFcompare x y); [discriminate | discriminate].
Qed.

Lemma ltb_not_nan x y :
  F64.ltb x y = true -> F64.is_nan x = false /\ F64.is_nan y = false.
Proof.
  unfold F64.ltb, SFltb. intros H. apply SFcompare_nan.
  destruct (SFcompare x y); [discriminate | discriminate].
Qed.

(** Comparisons of values that are not NaN, decided on their ranks. *)
Ltac rank_order :=
  unfold F64.gtb, F64.leb, F64.eqb, F64.ltb, SFleb, SFeqb, SFltb in *;
  repeat match goal with
         | H : context [SFcompare ?x ?y] |- _ =>
             rewrite (SFcompare_rank x y) in H by assumption
         | |- context [SFcompare ?x ?y] =>
             rewrite (SFcompare_rank x y) by assumption
         end;
  repeat match goal with
         | |- context [rank ?x] =>
             let a := fresh "a" in let b := fresh "b" in let c := fresh "c" in
             destruct (rank x) as [[a b] c]
         | H : context [rank ?x] |- _ =>
             let a := fresh "a" in let b := fresh "b" in let c := fresh "c" in
             destruct (rank x) as [[a b] c]
         end;
  cbn [lex_compare] in *;
  repeat match goal with
         | H : context [?p ?= ?q] |- _ => destruct (Z.compare_spec p q)
         | |- context [?p ?= ?q] => destruct (Z.compare_spec p q)
         end;
  subst; try reflexivity; try discriminate; try lia.

Lemma leb_refl x : F64.is_nan x = false -> F64.leb x x = true.
Proof. intros Hx. rank_order. Qed.

Lemma leb_trans x y z :
  F64.leb x y = true -> F64.leb y z = true -> F64.leb x z = true.
Proof.
  intros Hxy Hyz.
  destruct (leb_not_nan _ _ Hxy) as [Hx Hy].
  destruct (leb_not_nan _ _ Hyz) as [_ Hz].
  rank_order.
Qed.

Lemma leb_total x y :
  F64.is_nan x = false -> F64.is_nan y = false ->
  F64.leb x y = true \/ F64.leb y x = true.
Proof.
  intros Hx Hy.
  destruct (F64.leb x y) eqn:E; [now left|]. right. rank_order.
Qed.

Lemma gtb_leb x y :
  F64.is_nan x = false -> F64.is_nan y = false ->
  F64.gtb x y = negb (F64.leb x y).
Proof. intros Hx Hy. rank_order. Qed.

Lemma leb_antisym x y :
  F64.leb x y = true -> F64.leb y x = true -> F64.eqb x y = true.
Proof.
  intros Hxy Hyx. destruct (leb_not_nan _ _ Hxy) as [Hx Hy]. rank_order.
Qed.

Lemma eqb_leb x y : F64.eqb x y = true -> F64.leb x y = true /\ F64.leb y x = true.
Proof.
  intros H. destruct (eqb_not_nan _ _ H) as [Hx Hy]. split; rank_order.
Qed.

Lemma eqb_sym x y : F64.eqb x y = F64.eqb y x.
Proof.
  destruct (F64.is_nan x) eqn:Hx.
  { destruct x; try discriminate. destruct y; reflexivity. }
  destruct (F64.is_nan y) eqn:Hy.
  { destruct y; try discriminate. destruct x; reflexivity. }
  rank_order.
Qed.

Lemma eqb_trans x y z :
  F64.eqb x y = true -> F64.eqb y z = true -> F64.eqb x z = true.
Proof.
  intros Hxy Hyz.
  destruct (eqb_not_nan _ _ Hxy) as [Hx Hy].
  destruct (eqb_not_nan _ _ Hyz) as [_ Hz].
  apply leb_antisym.
  - apply leb_trans with y; [apply (eqb_leb _ _ Hxy) | apply (eqb_leb _ _ Hyz)].
  - apply leb_trans with y; [apply (eqb_leb _ _ Hyz) | apply (eqb_leb _ _ Hxy)].
Qed.

Lemma ltb_leb x y : F64.ltb x y = true -> F64.leb x y = true.
Proof.
  intros H. destruct (ltb_not_nan _ _ H) as [Hx Hy]. rank_order.
Qed.

Lemma ltb_not_leb x y : F64.ltb x y = true -> F64.leb y x = false.
Proof.
  intros H. destruct (ltb_not_nan _ _ H) as [Hx Hy]. rank_order.
Qed.

(** ** The built-in [max] *)

Lemma py_max_In l m : py_max l = Ok m -> In m l.
Proof.
  destruct l as [|x r]; cbn; [discriminate|]. intros H. inversion H as [Hm]. clear H Hm.
  revert x. induction r as [|y r IH]; intros x; cbn [fold_left]; [now left|].
  destruct (IH (if F64.gtb y x then y else x)) as [H|H].
  - destruct (F64.gtb y x); [right; left | left]; exact H.
  - right. right. exact H.
Qed.

Lemma py_max_nonempty l : l <> [] -> exists m, py_max l = Ok m.
Proof. destruct l; [congruence|]. intros _. cbn. eauto. Qed.

Lemma fold_max_upper r : forall x,
  F64.is_nan x = false -> nan_free r ->
  let m := fold_left (fun cur y => if F64.gtb y cur then y else cur) r x in
  F64.is_nan m = false /\ F64.leb x m = true /\
  forall v, In v r -> F64.leb v m = true.
Proof.
  induction r as [|y r IH]; intros x Hx Hr; cbn [fold_left].
  - split; [assumption|]. split; [now apply leb_refl|]. intros v [].
  - assert (Hy : F64.is_nan y = false) by (apply Hr; now left).
    assert (Hr' : nan_free r) by (intros v Hv; apply Hr; now right).
    rewrite (gtb_leb y x Hy Hx).
    destruct (F64.leb y x) eqn:E; cbn [negb].
    + destruct (IH x Hx Hr') as (Hm & Hxm & Hall).
      split; [assumption|]. split; [assumption|].
      intros v [<-|Hv]; [now apply leb_trans with x | now apply Hall].
    + destruct (IH y Hy Hr') as (Hm & Hym & Hall).
      split; [assumption|].
      assert (Hxy : F64.leb x y = true)
        by (destruct (leb_total x y Hx Hy) as [H|H]; [exact H | congruence]).
      split; [now apply leb_trans with y|].
      intros v [<-|Hv]; [assumption | now apply Hall].
Qed.

(** On scores without NaN the built-in [max] is the greatest of them. *)
Lemma py_max_greatest l m :
  nan_free l -> py_max l = Ok m -> greatest_of m l.
Proof.
  intros Hl H. split; [now apply py_max_In|].
  destruct l as [|x r]; [discriminate|]. cbn in H. inversion H as [Hm]. clear H.
  destruct (fold_max_upper r x) as (_ & Hx & Hall).
  - apply Hl. now left.
  - intros v Hv. apply Hl. now right.
  - intros v [<-|Hv]; [exact Hx | now apply Hall].
Qed.

(** ** Windows of a sequence *)

Lemma getitem_at_index (c : list float) i :
  0 <= i < Z.of_nat (length c) -> getitem c i = Ok (at_index c i).
Proof.
  intros H. destruct (getitem_nth_error c i H) as (x & Hx & ->).
  unfold at_index. now rewrite (nth_error_nth _ _ _ Hx).
Qed.

Lemma window_map (c : list float) i g :
  window i g c = map (at_index c) (get_params_idx i g (Z.of_nat (length c))).
Proof.
  pose proof (take_window c i g) as H. unfold take in H.
  rewrite rmap_ok_map with (g := at_index c) in H.
  - now inversion H.
  - intros j Hj. apply In_get_params_idx in Hj. apply getitem_at_index. lia.
Qed.

Lemma In_window (c : list float) i g v :
  In v (window i g c) <->
  exists j, Z.max 0 (i - g) <= j < Z.min (i + g) (Z.of_nat (length c)) /\
            v = at_index c j.
Proof.
  rewrite window_map, in_map_iff. split.
  - intros (j & <- & Hj). exists j. split; [now apply In_get_params_idx | reflexivity].
  - intros (j & Hj & ->). exists j. split; [reflexivity | now apply In_get_params_idx].
Qed.

(** For a half-width of at least 1 the centre is in its own window. *)
Lemma centre_in_window (c : list float) i g :
  1 <= g -> 0 <= i < Z.of_nat (length c) -> In (at_index c i) (window i g c).
Proof.
  intros Hg Hi. apply In_window. exists i. split; [lia | reflexivity].
Qed.

Lemma rmap_total {A B} (f : A -> result B) (l : list A) :
  (forall a, In a l -> exists b, f a = Ok b) -> exists bs, rmap f l = Ok bs.
Proof.
  induction l as [|a l IH]; intros H; cbn; [eauto|].
  destruct (H a (or_introl eq_refl)) as (b & ->).
  destruct IH as (bs & ->); [intros x Hx; apply H; now right|]. eauto.
Qed.

(** With [gamma >= 1] no window is empty: the suppression pass cannot
    raise. *)
Lemma max_scores_total g c : 1 <= g -> exists mc, max_scores g c = Ok mc.
Proof.
  intros Hg. apply rmap_total. intros i Hi. apply In_range in Hi.
  apply py_max_nonempty. intros E.
  pose proof (centre_in_window c i g Hg Hi) as Hin. rewrite E in Hin. exact Hin.
Qed.

Lemma scores_length corr b sm ts c :
  scores corr b sm ts = Ok c -> length c = length sm.
Proof.
  intros H. apply rmap_length in H. rewrite H, range_length. lia.
Qed.

(** The local-maximum test, on a window without NaN: the score is the
    greatest of its window. *)
Lemma local_max_greatest c g i :
  1 <= g -> 0 <= i < Z.of_nat (length c) -> nan_free (window i g c) ->
  local_max c g i = true <-> greatest_of (at_index c i) (window i g c).
Proof.
  intros Hg Hi Hnan. unfold local_max.
  pose proof (centre_in_window c i g Hg Hi) as Hin.
  destruct (py_max (window i g c)) as [m|e] eqn:E.
  2:{ destruct (window i g c); [destruct Hin | discriminate]. }
  pose proof (py_max_greatest _ _ Hnan E) as [Hm Hub].
  split.
  - intros Heq. split; [assumption|].
    intros v Hv. apply leb_trans with m; [now apply Hub | apply (eqb_leb _ _ Heq)].
  - intros [_ Hall]. apply leb_antisym; [now apply Hall | now apply Hub].
Qed.

(** ** The pipeline *)

Lemma moving_average_smoothed_state s a :
  sample_size s = Z.of_nat (length (position s)) ->
  dict_get (params s) "alpha" = Ok a ->
  moving_average s = (Ok tt, smoothed_state a s).
Proof. intros Hn Ha. now apply moving_average_ok. Qed.

Lemma moving_average_ok_inv s s1 :
  sample_size s = Z.of_nat (length (position s)) ->
  moving_average s = (Ok tt, s1) ->
  exists a, dict_get (params s) "alpha" = Ok a /\ s1 = smoothed_state a s.
Proof.
  intros Hn H. destruct (dict_get (params s) "alpha") as [a|e] eqn:Ha.
  - exists a. split; [reflexivity|].
    rewrite (moving_average_smoothed_state s a Hn Ha) in H. now inversion H.
  - rewrite moving_average_run in H. cbv zeta in H. rewrite Ha in H. discriminate.
Qed.

Lemma update_coeff_smoothed corr s a b :
  sample_size s = Z.of_nat (length (position s)) ->
  dict_get (params s) "beta" = Ok b ->
  update_coeff corr (smoothed_state a s) =
    match scores corr b (smoothed a (map fst (position s))) (map snd (position s)) with
    | Ok c => (Ok tt, set_coeff c (smoothed_state a s))
    | Raise e => (Raise e, smoothed_state a s)
    end.
Proof.
  intros Hn Hb. apply update_coeff_run; try reflexivity.
  - cbn. now rewrite smoothed_length, length_map.
  - now rewrite smoothed_length, !length_map.
  - exact Hb.
Qed.

(** The scoring half of [run], when it returns normally. *)
Lemma scoring_ok_inv corr s s1 :
  sample_size s = Z.of_nat (length (position s)) ->
  bind moving_average (fun _ => update_coeff corr) s = (Ok tt, s1) ->
  exists a b c,
    dict_get (params s) "alpha" = Ok a /\
    dict_get (params s) "beta" = Ok b /\
    scores corr b (smoothed a (map fst (position s))) (map snd (position s)) = Ok c /\
    s1 = set_coeff c (smoothed_state a s).
Proof.
  intros Hn H. apply bind_ok_inv in H. destruct H as ([] & sA & Hma & Huc).
  destruct (moving_average_ok_inv _ _ Hn Hma) as (a & Ha & ->).
  exists a.
  destruct (dict_get (params s) "beta") as [b|e] eqn:Hb.
  - exists b. rewrite (update_coeff_smoothed corr s a b Hn Hb) in Huc.
    destruct (scores corr b _ _) as [c|e]; [|discriminate].
    exists c. inversion Huc. auto.
  - unfold update_coeff in Huc. unfold bind at 1 in Huc.
    rewrite get_index_run in Huc. cbn in Huc. rewrite Hb in Huc. discriminate.
Qed.

(** The whole of [run], from the scores on. *)
Lemma run_compressed_state corr s a b g c :
  sample_size s = Z.of_nat (length (position s)) ->
  1 <= sample_size s ->
  dict_get (params s) "alpha" = Ok a ->
  dict_get (params s) "beta" = Ok b ->
  dict_get (params s) "gamma" = Ok g ->
  scores corr b (smoothed a (map fst (position s))) (map snd (position s)) = Ok c ->
  forall mc, max_scores g c = Ok mc ->
  run corr s = (Ok tt, compressed_state a g c mc s).
Proof.
  intros Hn H1 Ha Hb Hg Hc mc Hmc.
  pose proof (scores_length _ _ _ _ _ Hc) as Hlc.
  rewrite smoothed_length, length_map in Hlc.
  unfold run.
  rewrite bind_ok with (a := tt) (s' := smoothed_state a s)
    by now apply moving_average_smoothed_state.
  rewrite bind_ok with (a := tt) (s' := set_coeff c (smoothed_state a s))
    by (rewrite (update_coeff_smoothed corr s a b Hn Hb), Hc; reflexivity).
  rewrite bind_ok with (a := tt) (s' := set_max_coeff mc (set_coeff c (smoothed_state a s))).
  2:{ rewrite update_max_coeff_run with (g := g) (c := c); try reflexivity.
      - now rewrite Hmc.
      - cbn. now rewrite Hlc.
      - exact Hg. }
  rewrite simplified_trajectory_run with (g := g) (c := c) (mc := mc)
    (sm := smoothed a (map fst (position s))) (ts := map snd (position s));
    try reflexivity; try assumption.
  - now rewrite smoothed_length, length_map.
  - now rewrite length_map.
  - lia.
Qed.

(** ** CorrelationScorer *)


Lemma ksi_func_ok corr pp tt rx ry :
  corr (map fst pp) tt = Ok rx ->
  corr (map snd pp) tt = Ok ry ->
  ksi_func corr pp tt
    = Ok (F64.add (F64.div F64.one (F64.mul rx rx))
                  (F64.div F64.one (F64.mul ry ry))).
Proof. intros Hx Hy. unfold ksi_func. rewrite Hx. cbn. rewrite Hy. reflexivity. Qed.



Lemma mul_nan_l y : F64.mul F64.nan y = F64.nan.
Proof. reflexivity. Qed.

Lemma mul_nan_r x : F64.mul x F64.nan = F64.nan.
Proof. destruct x; reflexivity. Qed.

Lemma div_nan_r x : F64.div x F64.nan = F64.nan.
Proof. destruct x; reflexivity. Qed.

Lemma add_nan_l y : F64.add F64.nan y = F64.nan.
Proof. reflexivity. Qed.

Lemma add_nan_r x : F64.add x F64.nan = F64.nan.
Proof. destruct x; reflexivity. Qed.

Lemma is_nan_eq x : F64.is_nan x = true -> x = F64.nan.
Proof. destruct x; try discriminate. reflexivity. Qed.

(** The claim as the specification states it fails: two samples at the same
    longitude are a degenerate neighbourhood, and their score is NaN. *)
Lemma C5_counterexample :
  degenerate still_pp = true /\
  ksi_func pearsonr still_pp still_tt = Ok F64.nan /\
  ~ surfaces_degenerate pearsonr.
Proof.
  split; [reflexivity|]. split; [vm_compute; reflexivity|].
  intros H. specialize (H still_pp still_tt eq_refl).
  vm_compute in H. discriminate.
Qed.

(** C5, amended.  [ksi_func] has no guard of its own: an exception of the
    correlation routine (on the first axis, or else on the second) is the
    exception of the scorer, and when the routine returns NaN for an axis,
    as it does for a constant one, the score is NaN: no sentinel value and
    no error. *)
Theorem C5_scorer_passes_on_what_the_correlation_gives
    (corr : list float -> list float -> result float)
    (pp : list (float * float)) (tt : list float) :
  (forall e, corr (map fst pp) tt = Raise e -> ksi_func corr pp tt = Raise e) /\
  (forall rx e, corr (map fst pp) tt = Ok rx -> corr (map snd pp) tt = Raise e ->
     ksi_func corr pp tt = Raise e) /\
  (forall rx ry, corr (map fst pp) tt = Ok rx -> corr (map snd pp) tt = Ok ry ->
     F64.is_nan rx || F64.is_nan ry = true ->
     ksi_func corr pp tt = Ok F64.nan).
Proof.
  split; [|split].
  - intros e H. unfold ksi_func. now rewrite H.
  - intros rx e Hx Hy. unfold ksi_func. rewrite Hx. cbn. now rewrite Hy.
  - intros rx ry Hx Hy Hnan. rewrite (ksi_func_ok _ _ _ _ _ Hx Hy). f_equal.
    apply orb_true_iff in Hnan. destruct Hnan as [H|H]; apply is_nan_eq in H; subst.
    + rewrite mul_nan_l, div_nan_r. apply add_nan_l.
    + rewrite mul_nan_l, div_nan_r. apply add_nan_r.
Qed.

Lemma C5_scorer_witness :
  ksi_func pearsonr still_pp still_tt = Ok F64.nan.
Proof.
  destruct (C5_scorer_passes_on_what_the_correlation_gives pearsonr still_pp still_tt)
    as (_ & _ & H).
  apply (H F64.nan F64.one);
    vm_compute; reflexivity.
Defined.

(** ** Smoothing with half-width 0 *)

Lemma window_zero_empty {A} (l : list A) i : window i 0 l = [].
Proof.
  unfold window, slice, window_lo, window_hi.
  replace (Z.to_nat _) with 0%nat by lia. reflexivity.
Qed.

Lemma smoothed_zero sp :
  smoothed 0 sp = repeat (F64.nan, F64.nan) (length sp).
Proof.
  unfold smoothed.
  rewrite map_ext with (g := fun _ => (F64.nan, F64.nan))
    by (intros i; now rewrite window_zero_empty).
  rewrite map_const, range_length. f_equal. lia.
Qed.

(** The claim as the specification states it fails: with [alpha = 0] the
    smoothed rows of three samples are not the samples. *)
Lemma C8_counterexample :
  fst (moving_average unsmoothed_run) = Ok tt /\
  filtering_spatial_position (snd (moving_average unsmoothed_run))
    = Some [(F64.nan, F64.nan); (F64.nan, F64.nan); (F64.nan, F64.nan)] /\
  filtering_spatial_position (snd (moving_average unsmoothed_run))
    <> Some (map fst (position unsmoothed_run)).
Proof.
  split; [vm_compute; reflexivity|]. split; [vm_compute; reflexivity|].
  vm_compute. discriminate.
Qed.

(** C8, amended.  With half-width [alpha = 0] every window
    [[max(0, i), min(i, n))] is empty, not a single point: smoothing returns
    normally, every smoothed coordinate is the mean of an empty selection,
    NaN, and the temporal sequence is returned unchanged. *)
Theorem C8_zero_half_width_smooths_to_nan (s : FastStray) :
  sample_size s = Z.of_nat (length (position s)) ->
  dict_get (params s) "alpha" = Ok 0 ->
  (forall i, get_params_idx i 0 (sample_size s) = []) /\
  exists s',
    moving_average s = (Ok tt, s') /\
    filtering_spatial_position s'
      = Some (repeat (F64.nan, F64.nan) (length (position s))) /\
    filtering_temporal_position s' = Some (map snd (position s)).
Proof.
  intros Hn Ha. split.
  - intros i. unfold get_params_idx. apply arange_empty. lia.
  - exists (smoothed_state 0 s).
    split; [now apply moving_average_smoothed_state|].
    split; [|reflexivity].
    cbn. now rewrite smoothed_zero, length_map.
Qed.

Lemma C8_zero_half_width_witness :
  exists s',
    moving_average unsmoothed_run = (Ok tt, s') /\
    filtering_spatial_position s' = Some (repeat (F64.nan, F64.nan) 3).
Proof.
  destruct (C8_zero_half_width_smooths_to_nan unsmoothed_run)
    as (_ & s' & Hrun & Hsm & _); [reflexivity | reflexivity |].
  exists s'. split; assumption.
Defined.

(** ** Quotients of lengths *)

Lemma div_eucl_div_mod a b : Z.div_eucl a b = (a / b, a mod b).
Proof.
  unfold Z.div, Z.modulo. now destruct (Z.div_eucl a b).
Qed.

Lemma new_location_zero nb : new_location nb 0 = loc_Exact.
Proof.
  unfold new_location, new_location_even, new_location_odd.
  destruct (Z.even nb); reflexivity.
Qed.

(** A length divided by itself is [1.0]. *)
Lemma div_self (p : positive) :
  F64.div (int_raw (Zpos p)) (int_raw (Zpos p)) = F64.one.
Proof.
  unfold F64.div, int_raw, SFdiv.
  assert (Hcore : SFdiv_core_binary F64.prec F64.emax (Zpos p) 0 (Zpos p) 0
                  = (2 ^ 53, -53, loc_Exact)).
  { unfold SFdiv_core_binary.
    replace (Z.sub (Z.add (Zdigits2 (Zpos p)) 0) (Z.add (Zdigits2 (Zpos p)) 0))
      with 0 by lia.
    change (Z.min (fexp F64.prec F64.emax 0) (Z.sub 0 0)) with (-53).
    change (Z.sub (Z.sub 0 0) (-53)) with 53.
    cbv iota beta.
    rewrite div_eucl_div_mod, Z.shiftl_mul_pow2 by lia.
    rewrite Z.mul_comm, Z.div_mul, Z.mod_mul by lia.
    rewrite new_location_zero. reflexivity. }
  rewrite Hcore. reflexivity.
Qed.

(** ** TrajectoryCompressor: the compression rate *)

Lemma compression_rate_run s stp tp :
  simplified_temporal_position s = Some stp ->
  temporal_position s = Some tp ->
  compression_rate s =
    (rbind (int_truediv (Z.of_nat (length stp)) (Z.of_nat (length tp)))
       (fun q => Ok (F64.sub F64.one q)), s).
Proof.
  intros Hstp Htp. unfold compression_rate, bind, attr, lift, ret.
  rewrite Hstp, Htp.
  destruct (int_truediv _ _); reflexivity.
Qed.

(** A run on a trajectory of no rows does not complete, whatever the
    parameters and the correlation routine, and leaves the compressed
    trajectory unassigned. *)
Lemma run_empty corr ps :
  exists e s', run corr (empty_run ps) = (Raise e, s') /\
               simplified_temporal_position s' = None.
Proof.
  unfold run, empty_run, moving_average, update_coeff, update_max_coeff,
    simplified_trajectory, get_index, bind, field, assign, lift, attr, ret, init.
  change (range 0) with (@nil Z). cbn.
  destruct (dict_get ps "alpha") as [a|e]; [|eauto]. cbn.
  destruct (dict_get ps "beta") as [b|e]; [|eauto]. cbn.
  destruct (dict_get ps "gamma") as [g|e]; [|eauto]. cbn.
  eauto.
Qed.

(** The claim as the specification states it fails for [n = 0]: a run on no
    rows raises, after it [compression_rate] raises [AttributeError], and on
    temporal attributes that are empty it raises [ZeroDivisionError]; it
    never returns 0. *)
Lemma C6_counterexample :
  let s := snd (run pearsonr (empty_run (mk_params 1 1 1))) in
  let s0 := set_simplified_temporal_position [] (set_temporal_position [] s) in
  fst (run pearsonr (empty_run (mk_params 1 1 1))) = Raise IndexError /\
  fst (compression_rate s) = Raise AttributeError /\
  fst (compression_rate s0) = Raise ZeroDivisionError /\
  fst (compression_rate s0) <> Ok F64.zero.
Proof.
  cbv zeta. repeat split; try (vm_compute; reflexivity).
  vm_compute. discriminate.
Qed.

(** C6, amended.  Once the compressed and the original temporal sequences
    are set, as after every completed run, and the trajectory has
    [n >= 1] rows, [compression_rate] returns [1 - kept_count / n], which is
    [0.0] when [kept_count = n].  For [n = 0] it does not return 0: the
    division raises [ZeroDivisionError]; and no run over zero rows completes,
    so that the compressed sequence is not even set. *)
Theorem C6_compression_rate_value (s : FastStray) (stp tp : list float) :
  simplified_temporal_position s = Some stp ->
  temporal_position s = Some tp ->
  let k := Z.of_nat (length stp) in
  let n := Z.of_nat (length tp) in
  (1 <= n ->
     fst (compression_rate s)
       = Ok (F64.sub F64.one (F64.div (int_raw k) (int_raw n)))) /\
  (1 <= n -> k = n -> fst (compression_rate s) = Ok F64.zero) /\
  (n = 0 -> fst (compression_rate s) = Raise ZeroDivisionError) /\
  (forall corr ps, exists e s',
      run corr (empty_run ps) = (Raise e, s') /\
      fst (compression_rate s') = Raise AttributeError).
Proof.
  intros Hstp Htp k n.
  rewrite (compression_rate_run s stp tp Hstp Htp). cbn [fst]. fold k n.
  split; [|split; [|split]].
  - intros Hn. unfold int_truediv.
    replace (n =? 0) with false by (symmetry; apply Z.eqb_neq; lia).
    reflexivity.
  - intros Hn Hk. unfold int_truediv.
    replace (n =? 0) with false by (symmetry; apply Z.eqb_neq; lia).
    cbn [rbind]. rewrite Hk.
    destruct n as [|p|p]; try lia. rewrite div_self. reflexivity.
  - intros Hn. unfold int_truediv. rewrite Hn. reflexivity.
  - intros corr ps. destruct (run_empty corr ps) as (e & s' & Hrun & Hnone).
    exists e, s'. split; [assumption|].
    unfold compression_rate, bind, attr. now rewrite Hnone.
Qed.

Lemma C6_compression_rate_witness :
  fst (compression_rate (snd (run pearsonr diagonal_run)))
    = Ok (F64.sub F64.one (F64.div (int_raw 2) (int_raw 8))).
Proof.
  destruct (C6_compression_rate_value (snd (run pearsonr diagonal_run))
              [F64.of_Z 2; F64.of_Z 7] (map snd (diagonal 8)))
    as (H & _); [vm_compute; reflexivity | vm_compute; reflexivity |].
  apply H. vm_compute. discriminate.
Defined.

(** ** Equal scores *)

Lemma skipn_nth_error {A} (l : list A) k x :
  nth_error l k = Some x -> skipn k l = x :: skipn (S k) l.
Proof.
  revert l. induction k as [|k IH]; intros [|y l] H; cbn in *; try discriminate.
  - now inversion H.
  - now apply IH.
Qed.

Lemma select_arange {A} (l : list A) (j : nat) :
  (j <= length l)%nat ->
  select l (arange (Z.of_nat (length l - j)) (Z.of_nat (length l)))
    = skipn (length l - j) l.
Proof.
  induction j as [|j IH]; intros Hj.
  - rewrite arange_empty by lia. rewrite Nat.sub_0_r, skipn_all. reflexivity.
  - rewrite arange_cons by lia. unfold select. cbn [flat_map].
    rewrite Nat2Z.id.
    destruct (nth_error l (length l - S j)) as [x|] eqn:E.
    2:{ apply nth_error_None in E. lia. }
    rewrite (skipn_nth_error _ _ _ E). cbn [app]. f_equal.
    replace (S (length l - S j)) with (length l - j)%nat by lia.
    replace (Z.of_nat (length l - S j) + 1) with (Z.of_nat (length l - j)) by lia.
    apply IH. lia.
Qed.

(** Selecting every index gives the sequence back. *)
Lemma select_all {A} (l : list A) : select l (range (Z.of_nat (length l))) = l.
Proof.
  pose proof (select_arange l (length l) (Nat.le_refl _)) as H.
  rewrite Nat.sub_diag in H. exact H.
Qed.

Lemma filter_all {A} (f : A -> bool) (l : list A) :
  (forall x, In x l -> f x = true) -> filter f l = l.
Proof.
  induction l as [|x l IH]; intros H; cbn; [reflexivity|].
  rewrite (H x (or_introl eq_refl)), IH; [reflexivity|].
  intros y Hy. apply H. now right.
Qed.

(** When all the scores of a window compare equal to a number, each of them
    passes the local-maximum test. *)
Lemma local_max_of_equal_scores c g i v :
  1 <= g -> 0 <= i < Z.of_nat (length c) ->
  (forall j, 0 <= j < Z.of_nat (length c) -> F64.eqb (at_index c j) v = true) ->
  local_max c g i = true.
Proof.
  intros Hg Hi Hall. unfold local_max.
  destruct (py_max (window i g c)) as [m|e] eqn:E.
  - apply py_max_In in E. apply In_window in E. destruct E as (j & Hj & ->).
    apply eqb_trans with v; [apply Hall; lia|].
    rewrite eqb_sym. apply Hall. lia.
  - pose proof (centre_in_window c i g Hg Hi) as Hin.
    destruct (window i g c); [destruct Hin | discriminate].
Qed.

Lemma kept_indices_of_equal_scores c g v :
  1 <= g ->
  (forall j, 0 <= j < Z.of_nat (length c) -> F64.eqb (at_index c j) v = true) ->
  kept_indices c g = range (Z.of_nat (length c)).
Proof.
  intros Hg Hall. unfold kept_indices. apply filter_all.
  intros i Hi. apply In_range in Hi. now apply local_max_of_equal_scores with v.
Qed.

Lemma inverse_square_of_unit r :
  F64.abs r = F64.one -> F64.div F64.one (F64.mul r r) = F64.one.
Proof.
  destruct r as [s|s| |s m e]; cbn; try discriminate.
  intros H. inversion H; subst. destruct s; reflexivity.
Qed.

(** When every point is kept the rate is [0.0]. *)
Lemma rate_of_full_selection s stp tp :
  simplified_temporal_position s = Some stp ->
  temporal_position s = Some tp ->
  length stp = length tp -> (1 <= length tp)%nat ->
  fst (compression_rate s) = Ok F64.zero.
Proof.
  intros Hstp Htp Hlen Hpos.
  rewrite (compression_rate_run s stp tp Hstp Htp). cbn [fst].
  unfold int_truediv. rewrite Hlen.
  destruct (Z.of_nat (length tp)) as [|p|p] eqn:E; try lia.
  cbn [Z.eqb rbind]. rewrite div_self. reflexivity.
Qed.

(** ** The perfectly linear trajectory *)

(** The claim as the specification states it fails: on eight samples of the
    exactly linear motion [x = y = t], with half-widths 2, the clipped
    windows at the ends make the smoothed coordinates non-linear in time, the
    scores differ, only indices 2 and 7 are kept and the rate is 0.75. *)
Lemma C9_counterexample :
  let s2 := snd (run pearsonr diagonal_run) in
  position diagonal_run = map (fun k => point k k k) (range 8) /\
  fst (run pearsonr diagonal_run) = Ok tt /\
  simplified_temporal_position s2 = Some [F64.of_Z 2; F64.of_Z 7] /\
  fst (compression_rate s2) = Ok (F64.dyadic 3 2) /\
  fst (compression_rate s2) <> Ok F64.zero.
Proof.
  cbv zeta. split; [reflexivity|].
  split; [vm_compute; reflexivity|].
  split; [vm_compute; reflexivity|].
  split; [vm_compute; reflexivity|].
  vm_compute. discriminate.
Qed.

(** C9, amended.  On a trajectory of [n >= 1] rows with [gamma >= 1], if on
    every scoring window the correlation of each smoothed axis with time is
    exactly [1] or [-1], then the run completes, every score is [2] (the
    least possible), every index is its own local maximum, all [n] points are
    kept and the compression rate is [0].  That the raw coordinates are
    linear in time does not make the correlations unit: at the ends of the
    trajectory the smoothing windows are clipped. *)
Theorem C9_unit_correlations_keep_every_point
    (corr : list float -> list float -> result float)
    (s : FastStray) (a b g : Z) :
  sample_size s = Z.of_nat (length (position s)) ->
  1 <= sample_size s ->
  dict_get (params s) "alpha" = Ok a ->
  dict_get (params s) "beta" = Ok b ->
  dict_get (params s) "gamma" = Ok g ->
  1 <= g ->
  let n := sample_size s in
  let sm := smoothed a (map fst (position s)) in
  let ts := map snd (position s) in
  (forall i, 0 <= i < n ->
     exists rx ry,
       corr (map fst (window i b sm)) (window i b ts) = Ok rx /\
       corr (map snd (window i b sm)) (window i b ts) = Ok ry /\
       F64.abs rx = F64.one /\ F64.abs ry = F64.one) ->
  exists s2,
    run corr s = (Ok tt, s2) /\
    coeff s2 = Some (repeat two (Z.to_nat n)) /\
    kept_indices (repeat two (Z.to_nat n)) g = range n /\
    simplified_spatial_position s2 = Some sm /\
    simplified_temporal_position s2 = Some ts /\
    fst (compression_rate s2) = Ok F64.zero.
Proof.
  intros Hn H1 Ha Hb Hg Hg1 n sm ts Hunit.
  set (c := repeat two (Z.to_nat n)).
  assert (Hlsm : Z.of_nat (length sm) = n)
    by (subst sm n; now rewrite smoothed_length, length_map).
  assert (Hlts : Z.of_nat (length ts) = n)
    by (subst ts n; now rewrite length_map).
  assert (Hlc : Z.of_nat (length c) = n)
    by (subst c; rewrite repeat_length; lia).
  assert (Hc : scores corr b sm ts = Ok c).
  { unfold scores. rewrite rmap_ok_map with (g := fun _ => two).
    - rewrite map_const, range_length. subst c. do 3 f_equal. lia.
    - intros i Hi. apply In_range in Hi. rewrite Hlsm in Hi.
      destruct (Hunit i Hi) as (rx & ry & Hx & Hy & Hax & Hay).
      rewrite (ksi_func_ok _ _ _ _ _ Hx Hy).
      now rewrite (inverse_square_of_unit _ Hax), (inverse_square_of_unit _ Hay). }
  assert (Hkept : kept_indices c g = range n).
  { rewrite kept_indices_of_equal_scores with (v := two); [now rewrite Hlc | assumption |].
    intros j Hj. unfold at_index. subst c.
    rewrite nth_repeat_lt by (rewrite repeat_length in Hj; lia). reflexivity. }
  destruct (max_scores_total g c Hg1) as (mc & Hmc).
  exists (compressed_state a g c mc s).
  split; [now apply run_compressed_state with (b := b)|].
  split; [reflexivity|]. split; [assumption|].
  assert (Hss : select sm (kept_indices c g) = sm)
    by (rewrite Hkept, <- Hlsm; apply select_all).
  assert (Hst : select ts (kept_indices c g) = ts)
    by (rewrite Hkept, <- Hlts; apply select_all).
  split; [cbn; fold sm; now rewrite Hss|].
  split; [cbn; fold ts; now rewrite Hst|].
  apply rate_of_full_selection with (stp := ts) (tp := ts); try reflexivity.
  - cbn. fold ts. now rewrite Hst.
  - lia.
Qed.

Lemma C9_unit_correlations_witness :
  exists s2,
    run pearsonr two_point_run = (Ok tt, s2) /\
    simplified_temporal_position s2 = Some (map snd (diagonal 2)) /\
    fst (compression_rate s2) = Ok F64.zero.
Proof.
  destruct (C9_unit_correlations_keep_every_point pearsonr two_point_run 1 2 1)
    as (s2 & Hrun & _ & _ & _ & Hts & Hrate);
    [reflexivity | cbn; lia | reflexivity | reflexivity | reflexivity | lia | |].
  - intros i Hi.
    assert (Hcase : i = 0 \/ i = 1) by (cbn in Hi; lia).
    exists F64.one, F64.one.
    destruct Hcase; subst i; repeat split; vm_compute; reflexivity.
  - exists s2. repeat split; assumption.
Defined.

(** ** Rounding to binary64 *)

Lemma iter_pos_nat {A} (f : A -> A) (p : positive) (x : A) :
  iter_pos f p x = Nat.iter (Pos.to_nat p) f x.
Proof.
  revert x. induction p as [p IH|p IH|]; intros x; cbn [iter_pos].
  - rewrite !IH. rewrite Pos2Nat.inj_xI.
    replace (S (2 * Pos.to_nat p)) with (Pos.to_nat p + (Pos.to_nat p + 1))%nat by lia.
    rewrite !Nat.iter_add. cbn. reflexivity.
  - rewrite !IH. rewrite Pos2Nat.inj_xO.
    replace (2 * Pos.to_nat p)%nat with (Pos.to_nat p + Pos.to_nat p)%nat by lia.
    rewrite Nat.iter_add. reflexivity.
  - reflexivity.
Qed.

Lemma shr_1_spec m r s :
  0 <= m ->
  shr_1 (Build_shr_record m r s) = Build_shr_record (m / 2) (Z.odd m) (r || s).
Proof.
  intros Hm. rewrite <- Z.div2_div.
  destruct m as [|p|p]; [reflexivity | | lia].
  destruct p; reflexivity.
Qed.

Lemma locates_nonneg X U mrs : 0 <= X -> 0 < U -> locates X U mrs -> 0 <= shr_m mrs.
Proof. intros HX HU (Hm & _). rewrite Hm. apply Z.div_pos; lia. Qed.

(** Comparisons of integers, decided case by case. *)
Ltac zbool :=
  repeat match goal with
         | |- context [?a <=? ?b] => destruct (Z.leb_spec a b)
         | |- context [?a <? ?b] => destruct (Z.ltb_spec a b)
         | |- context [?a =? ?b] => destruct (Z.eqb_spec a b)
         end;
  cbn [negb andb orb]; try reflexivity; try lia.

(** One step to the right doubles the unit. *)
Lemma locates_shr_1 X U mrs :
  0 <= X -> 0 < U -> locates X U mrs -> locates X (2 * U) (shr_1 mrs).
Proof.
  intros HX HU H. pose proof (locates_nonneg X U mrs HX HU H) as Hm0.
  destruct mrs as [m r s]. destruct H as (Hm & Hr & Hs).
  cbn [shr_m shr_r shr_s] in Hm, Hr, Hs, Hm0.
  rewrite shr_1_spec by assumption. unfold locates. cbn [shr_m shr_r shr_s].
  pose proof (Z.div_mod X U ltac:(lia)) as HXU.
  pose proof (Z.mod_pos_bound X U HU) as Hrho.
  pose proof (Z.div_mod m 2 ltac:(lia)) as Hm2.
  pose proof (Z.mod_pos_bound m 2 ltac:(lia)) as Hb.
  pose proof (Z.div_mod X (2 * U) ltac:(lia)) as HX2U.
  pose proof (Z.mod_pos_bound X (2 * U) ltac:(lia)) as Hrho2.
  destruct (Z.div_mod_unique (2 * U) (X / (2 * U)) (m / 2)
              (X mod (2 * U)) ((m mod 2) * U + X mod U)) as [Hq1 Hq2];
    [left; lia | left; nia | nia |].
  split; [lia|].
  rewrite Hq2, Hr, Hs.
  assert (Hodd : Z.odd m = (m mod 2 =? 1)).
  { rewrite Zmod_odd. destruct (Z.odd m); reflexivity. }
  rewrite Hodd.
  assert (Hcase : m mod 2 = 0 \/ m mod 2 = 1) by lia.
  split; destruct Hcase as [-> | ->]; zbool.
Qed.

Lemma locates_shr_iter X U mrs (j : nat) :
  0 <= X -> 0 < U -> locates X U mrs ->
  locates X (U * 2 ^ Z.of_nat j) (Nat.iter j shr_1 mrs).
Proof.
  intros HX HU H. induction j as [|j IH].
  - cbn. now rewrite Z.mul_1_r.
  - cbn [Nat.iter].
    replace (U * 2 ^ Z.of_nat (S j)) with (2 * (U * 2 ^ Z.of_nat j))
      by (rewrite Nat2Z.inj_succ, Z.pow_succ_r by lia; lia).
    apply locates_shr_1; [assumption | | assumption].
    apply Z.mul_pos_pos; [assumption | apply Z.pow_pos_nonneg; lia].
Qed.

(** [shr]: a shift by [n > 0] binary places multiplies the unit by [2^n]. *)
Lemma locates_shr X U mrs e n :
  0 <= X -> 0 < U -> 0 <= n -> locates X U mrs ->
  locates X (U * 2 ^ n) (fst (shr mrs e n)) /\ snd (shr mrs e n) = e + n.
Proof.
  intros HX HU Hn H. destruct n as [|p|p]; [| |lia].
  - cbn. rewrite Z.mul_1_r. split; [assumption | lia].
  - cbn [shr fst snd]. split; [|reflexivity].
    rewrite iter_pos_nat. rewrite <- (positive_nat_Z p).
    now apply locates_shr_iter.
Qed.

Lemma locates_exact m : 0 <= m -> locates m 1 (shr_record_of_loc m loc_Exact).
Proof.
  intros Hm. unfold locates. cbn [shr_record_of_loc shr_m shr_r shr_s].
  rewrite Z.div_1_r, Z.mod_1_r. repeat split.
Qed.

Lemma locates_division X n :
  0 <= X -> 0 < n ->
  locates X n (shr_record_of_loc (X / n) (new_location n (X mod n))).
Proof.
  intros HX Hn. pose proof (Z.mod_pos_bound X n Hn) as Hr.
  unfold locates, new_location, new_location_even, new_location_odd.
  destruct (Z.even n) eqn:Ev.
  - destruct (Z.eqb_spec (X mod n) 0) as [E|E].
    + cbn [shr_record_of_loc shr_m shr_r shr_s]. rewrite E.
      split; [reflexivity|]. split; zbool.
    + destruct (Z.compare_spec (2 * (X mod n)) n);
        cbn [shr_record_of_loc shr_m shr_r shr_s];
        (split; [reflexivity|]); split; zbool.
  - assert (Hodd : n mod 2 = 1).
    { rewrite Zmod_odd, <- Z.negb_even, Ev. reflexivity. }
    assert (Hne : 2 * (X mod n) <> n).
    { intros Heq. rewrite <- Heq in Hodd.
      rewrite Z.mul_comm, Z.mod_mul in Hodd by lia. discriminate. }
    destruct (Z.eqb_spec (X mod n) 0) as [E|E].
    + cbn [shr_record_of_loc shr_m shr_r shr_s]. rewrite E.
      split; [reflexivity|]. split; zbool.
    + destruct (Z.compare_spec (2 * (X mod n) + 1) n);
        cbn [shr_record_of_loc shr_m shr_r shr_s];
        (split; [reflexivity|]); split; zbool.
Qed.

Lemma round_nearest_even_locates X U mrs :
  0 < U -> locates X U mrs ->
  round_nearest_even (shr_m mrs) (loc_of_shr_record mrs) = round_half_even X U.
Proof.
  intros HU (Hm & Hr & Hs). pose proof (Z.mod_pos_bound X U HU) as Hrho.
  destruct mrs as [m r s]. cbn [shr_m shr_r shr_s] in *.
  unfold round_half_even. rewrite <- Hm. subst r s.
  unfold loc_of_shr_record, round_nearest_even.
  zbool.
Qed.

Lemma round_half_even_bounds X U :
  0 < U -> X / U <= round_half_even X U <= X / U + 1.
Proof.
  intros HU. unfold round_half_even.
  destruct (2 * (X mod U) <? U); [lia|].
  destruct (2 * (X mod U) =? U); [destruct (Z.even (X / U)); lia | lia].
Qed.

(** The number of binary digits. *)
Lemma digits2_pos_size p : digits2_pos p = Pos.size p.
Proof. induction p; cbn; congruence. Qed.

Lemma Zdigits2_log2 m : 0 < m -> Zdigits2 m = Z.log2 m + 1.
Proof.
  destruct m as [|p|p]; try lia. intros _. cbn [Zdigits2].
  rewrite digits2_pos_size. destruct p; cbn; lia.
Qed.

Lemma Zdigits2_bounds m :
  0 < m -> 2 ^ (Zdigits2 m - 1) <= m < 2 ^ Zdigits2 m.
Proof.
  intros Hm. rewrite Zdigits2_log2 by assumption.
  replace (Z.log2 m + 1 - 1) with (Z.log2 m) by lia.
  pose proof (Z.log2_spec m Hm). now rewrite <- Z.add_1_r in *.
Qed.

Lemma Zdigits2_unique m d :
  1 <= d -> 2 ^ (d - 1) <= m < 2 ^ d -> Zdigits2 m = d.
Proof.
  intros Hd H.
  assert (Hm : 0 < m) by (pose proof (Z.pow_pos_nonneg 2 (d - 1)); lia).
  rewrite Zdigits2_log2 by assumption.
  rewrite (Z.log2_unique m (d - 1)); [lia | lia |].
  now replace (Z.succ (d - 1)) with d by lia.
Qed.

Lemma fexp_binary64 z : fexp F64.prec F64.emax z = Z.max (z - 53) (-1074).
Proof. reflexivity. Qed.

Lemma shr_m_of_loc m l : shr_m (shr_record_of_loc m l) = m.
Proof. destruct l as [|[]]; reflexivity. Qed.

Lemma pow2_pos e : 0 <= e -> 0 < 2 ^ e.
Proof. intros. apply Z.pow_pos_nonneg; lia. Qed.

(** Rounding a located rational whose floor has at least 53 digits, in the
    range of normal numbers: the mantissa is the rational scaled to 53
    digits and rounded to nearest even. *)
Lemma binary_round_aux_normal X U mx ex lx :
  0 <= X -> 0 < U ->
  locates X U (shr_record_of_loc mx lx) ->
  53 <= Zdigits2 mx ->
  -1074 <= Zdigits2 mx + ex - 53 < 971 ->
  let sh := Zdigits2 mx - 53 in
  let V := U * 2 ^ sh in
  2 ^ 52 <= X / V < 2 ^ 53 /\
  binary_round_aux F64.prec F64.emax false mx ex lx
    = normal (round_half_even X V) (ex + sh).
Proof.
  intros HX HU Hloc Hd Hrange sh V.
  assert (Hmx : mx = X / U)
    by (destruct Hloc as (Hm & _); now rewrite shr_m_of_loc in Hm).
  assert (Hmx0 : 0 < mx).
  { assert (0 <= mx) by (rewrite Hmx; apply Z.div_pos; lia).
    destruct (Z.eq_dec mx 0) as [E|E]; [rewrite E in Hd; cbn in Hd; lia | lia]. }
  pose proof (Zdigits2_bounds mx Hmx0) as Hb.
  assert (Hsh : 0 <= sh) by (subst sh; lia).
  pose proof (pow2_pos sh Hsh) as Hp.
  assert (HV : 0 < V) by (subst V; apply Z.mul_pos_pos; assumption).
  assert (Hdiv : X / V = mx / 2 ^ sh)
    by (subst V; rewrite Hmx, Z.div_div by lia; reflexivity).
  assert (Hbin : 2 ^ 52 <= X / V < 2 ^ 53).
  { rewrite Hdiv.
    assert (Hlow : 2 ^ 52 * 2 ^ sh <= mx).
    { rewrite <- Z.pow_add_r by lia.
      replace (52 + sh) with (Zdigits2 mx - 1) by (subst sh; lia). apply Hb. }
    assert (Hhigh : mx < 2 ^ 53 * 2 ^ sh).
    { rewrite <- Z.pow_add_r by lia.
      replace (53 + sh) with (Zdigits2 mx) by (subst sh; lia). apply Hb. }
    split.
    - apply Z.div_le_lower_bound; [lia|]. now rewrite Z.mul_comm.
    - apply Z.div_lt_upper_bound; [lia|]. now rewrite Z.mul_comm. }
  split; [exact Hbin|].
  unfold binary_round_aux, shr_fexp. rewrite fexp_binary64.
  replace (Z.max (Zdigits2 mx + ex - 53) (-1074) - ex) with sh by (subst sh; lia).
  destruct (locates_shr X U (shr_record_of_loc mx lx) ex sh HX HU Hsh Hloc)
    as [Hloc1 He1].
  destruct (shr (shr_record_of_loc mx lx) ex sh) as [mrs1 e1].
  cbn [fst snd] in Hloc1, He1. fold V in Hloc1. subst e1.
  rewrite (round_nearest_even_locates X V mrs1 HV Hloc1).
  pose proof (round_half_even_bounds X V HV) as HM.
  set (M := round_half_even X V) in *.
  assert (HM2 : 2 ^ 52 <= M <= 2 ^ 53) by lia.
  unfold normal. destruct (Z.eqb_spec M (2 ^ 53)) as [E|E].
  - rewrite E. rewrite fexp_binary64.
    change (Zdigits2 (2 ^ 53)) with 54.
    replace (Z.max (54 + (ex + sh) - 53) (-1074) - (ex + sh)) with 1 by lia.
    cbn [shr_record_of_loc shr iter_pos shr_1 shr_m].
    replace (ex + sh + 1 <=? F64.emax - F64.prec) with true
      by (symmetry; apply Z.leb_le; unfold F64.emax, F64.prec; subst sh; lia).
    reflexivity.
  - assert (HdM : Zdigits2 M = 53) by (apply Zdigits2_unique; lia).
    rewrite HdM, fexp_binary64.
    replace (Z.max (53 + (ex + sh) - 53) (-1074) - (ex + sh)) with 0 by (subst sh; lia).
    cbn [shr_record_of_loc shr shr_m].
    destruct M as [|p|p]; try lia.
    replace (ex + sh <=? F64.emax - F64.prec) with true
      by (symmetry; apply Z.leb_le; unfold F64.emax, F64.prec; subst sh; lia).
    reflexivity.
Qed.

(** Rounding to nearest even is monotone. *)
Lemma round_half_even_mono X V X' V' :
  0 < V -> 0 < V' -> X * V' <= X' * V ->
  round_half_even X V <= round_half_even X' V'.
Proof.
  intros HV HV' Hle.
  pose proof (Z.div_mod X V ltac:(lia)) as HX.
  pose proof (Z.mod_pos_bound X V HV) as Hr.
  pose proof (Z.div_mod X' V' ltac:(lia)) as HX'.
  pose proof (Z.mod_pos_bound X' V' HV') as Hr'.
  pose proof (round_half_even_bounds X V HV) as Hb.
  pose proof (round_half_even_bounds X' V' HV') as Hb'.
  set (q := X / V) in *. set (r := X mod V) in *.
  set (q' := X' / V') in *. set (r' := X' mod V') in *.
  assert (Hq : q <= q').
  { destruct (Z_le_gt_dec q q') as [H|H]; [exact H|]. exfalso.
    assert (q' + 1 <= q) by lia.
    assert (X' * V < (q' + 1) * V' * V) by nia.
    assert ((q' + 1) * V' * V <= q * V * V') by nia.
    nia. }
  destruct (Z.eq_dec q q') as [E|E]; [|lia].
  assert (Hrr : r * V' <= r' * V) by nia.
  fold q r q' r' in Hb, Hb'.
  unfold round_half_even. fold q r q' r'. rewrite <- E.
  destruct (Z.ltb_spec (2 * r) V); destruct (Z.ltb_spec (2 * r') V');
    destruct (Z.eqb_spec (2 * r) V); destruct (Z.eqb_spec (2 * r') V');
    destruct (Z.even q); try lia; exfalso; nia.
Qed.

Lemma round_half_even_exact m : round_half_even m 1 = m.
Proof.
  unfold round_half_even. rewrite Z.div_1_r, Z.mod_1_r. reflexivity.
Qed.

(** The order of normal floats is the order of (exponent, mantissa). *)
Lemma normal_not_nan M E : F64.is_nan (normal M E) = false.
Proof. unfold normal. destruct (M =? 2 ^ 53); reflexivity. Qed.

Lemma rank_normal M E :
  2 ^ 52 <= M <= 2 ^ 53 ->
  rank (normal M E) = (1, (if M =? 2 ^ 53 then E + 1 else E),
                          (if M =? 2 ^ 53 then 2 ^ 52 else M)).
Proof.
  intros HM. unfold normal. destruct (Z.eqb_spec M (2 ^ 53)); cbn [rank].
  - reflexivity.
  - rewrite Z2Pos.id by lia. reflexivity.
Qed.

Lemma normal_leb M E M' E' :
  2 ^ 52 <= M <= 2 ^ 53 -> 2 ^ 52 <= M' <= 2 ^ 53 ->
  E < E' \/ (E = E' /\ M <= M') ->
  F64.leb (normal M E) (normal M' E') = true.
Proof.
  intros HM HM' Hord. unfold F64.leb, SFleb.
  rewrite SFcompare_rank by apply normal_not_nan.
  rewrite !rank_normal by assumption. cbn [lex_compare].
  destruct (Z.eqb_spec M (2 ^ 53)); destruct (Z.eqb_spec M' (2 ^ 53));
    repeat match goal with
           | |- context [?p ?= ?q] => destruct (Z.compare_spec p q)
           end; try reflexivity; lia.
Qed.

(** Rounding is monotone on positive fractions in the normal range. *)
Lemma normal_round_mono a b X V E a' b' X' V' E' :
  0 < b -> 0 < b' ->
  represents a b X V E -> represents a' b' X' V' E' ->
  a * b' <= a' * b ->
  F64.leb (normal (round_half_even X V) E)
          (normal (round_half_even X' V') E') = true.
Proof.
  intros Hb Hb' (HV & Hbin & HE & Hval) (HV' & Hbin' & HE' & Hval') Hle.
  pose proof (round_half_even_bounds X V HV) as HM.
  pose proof (round_half_even_bounds X' V' HV') as HM'.
  assert (Hq : 2 ^ 52 <= X / V < 2 ^ 53).
  { split; [apply Z.div_le_lower_bound; lia | apply Z.div_lt_upper_bound; lia]. }
  assert (Hq' : 2 ^ 52 <= X' / V' < 2 ^ 53).
  { split; [apply Z.div_le_lower_bound; lia | apply Z.div_lt_upper_bound; lia]. }
  apply normal_leb; [lia | lia |].
  set (W := 2 ^ (- E)) in *. set (W' := 2 ^ (- E')) in *.
  assert (HW : 0 < W) by (apply pow2_pos; lia).
  assert (HW' : 0 < W') by (apply pow2_pos; lia).
  (* the order of the values, cross-multiplied *)
  assert (Hcross : X * (V' * W') <= X' * (V * W)).
  { assert (H1 : (X * b) * (b' * (V' * W')) <= (X' * b') * (b * (V * W))).
    { rewrite Hval, Hval'.
      replace (a * V * W * (b' * (V' * W'))) with ((a * b') * (V * W * V' * W')) by ring.
      replace (a' * V' * W' * (b * (V * W))) with ((a' * b) * (V * W * V' * W')) by ring.
      apply Z.mul_le_mono_nonneg_r; [|assumption].
      repeat apply Z.mul_nonneg_nonneg; lia. }
    replace (X * b * (b' * (V' * W'))) with ((X * (V' * W')) * (b * b')) in H1 by ring.
    replace (X' * b' * (b * (V * W))) with ((X' * (V * W)) * (b * b')) in H1 by ring.
    apply Z.mul_le_mono_pos_r in H1; [assumption | nia]. }
  destruct (Z.lt_trichotomy E E') as [Hlt | [Heq | Hgt]].
  - now left.
  - right. split; [assumption|].
    apply round_half_even_mono; try assumption.
    subst W W'. rewrite Heq in Hcross.
    set (W' := 2 ^ (- E')) in *.
    replace (X * (V' * W')) with ((X * V') * W') in Hcross by ring.
    replace (X' * (V * W')) with ((X' * V) * W') in Hcross by ring.
    apply Z.mul_le_mono_pos_r in Hcross; assumption.
  - exfalso.
    assert (HWW : 2 * W <= W').
    { subst W W'. replace (- E') with (1 + (- E + (E - E' - 1))) by lia.
      rewrite !Z.pow_add_r by lia. change (2 ^ 1) with 2.
      pose proof (pow2_pos (E - E' - 1) ltac:(lia)).
      pose proof (pow2_pos (- E) ltac:(lia)). nia. }
    assert (H1 : 2 ^ 52 * V * (V' * W') <= X * (V' * W')).
    { apply Z.mul_le_mono_nonneg_r; [|lia].
      apply Z.mul_nonneg_nonneg; lia. }
    assert (H2 : X' * (V * W) < 2 ^ 53 * V' * (V * W)).
    { apply Z.mul_lt_mono_pos_r; [|lia]. apply Z.mul_pos_pos; lia. }
    assert (H3 : 2 ^ 53 * V' * (V * W) <= 2 ^ 52 * V * (V' * W')).
    { replace (2 ^ 53 * V' * (V * W)) with ((2 ^ 52 * V * V') * (2 * W))
        by (change (2 ^ 53) with (2 ^ 52 * 2); ring).
      replace (2 ^ 52 * V * (V' * W')) with ((2 ^ 52 * V * V') * W') by ring.
      apply Z.mul_le_mono_nonneg_l; [|assumption].
      repeat apply Z.mul_nonneg_nonneg; lia. }
    lia.
Qed.

(** ** The quotient of two lengths *)

Lemma Zdigits2_pos m : 0 < m -> 1 <= Zdigits2 m.
Proof. destruct m; cbn; lia. Qed.

Lemma Zdigits2_le m n : 0 < m -> m <= n -> Zdigits2 m <= Zdigits2 n.
Proof.
  intros Hm Hmn.
  pose proof (Zdigits2_bounds m Hm) as Bm.
  pose proof (Zdigits2_bounds n ltac:(lia)) as Bn.
  assert (H : 2 ^ (Zdigits2 m - 1) < 2 ^ Zdigits2 n) by lia.
  apply Z.pow_lt_mono_r_iff in H; [lia | lia |].
  pose proof (Zdigits2_pos n ltac:(lia)). lia.
Qed.

Lemma Zdigits2_le_bound m d : 0 < m -> 0 <= d -> m < 2 ^ d -> Zdigits2 m <= d.
Proof.
  intros Hm Hd Hlt.
  pose proof (Zdigits2_bounds m Hm) as Bm.
  assert (H : 2 ^ (Zdigits2 m - 1) < 2 ^ d) by lia.
  apply Z.pow_lt_mono_r_iff in H; lia.
Qed.

Lemma div_core_lengths k n :
  1 <= k <= n -> n <= 2 ^ 53 ->
  let s := 53 + Zdigits2 n - Zdigits2 k in
  SFdiv_core_binary F64.prec F64.emax k 0 n 0
    = ((k * 2 ^ s) / n, - s, new_location n ((k * 2 ^ s) mod n)).
Proof.
  intros Hk Hn s.
  pose proof (Zdigits2_le k n ltac:(lia) ltac:(lia)) as Hd.
  pose proof (Zdigits2_pos k ltac:(lia)) as Hd1.
  pose proof (Zdigits2_le_bound n 54 ltac:(lia) ltac:(lia) ltac:(lia)) as Hd2.
  unfold SFdiv_core_binary. rewrite fexp_binary64.
  replace (Z.min (Z.max (Zdigits2 k + 0 - (Zdigits2 n + 0) - 53) (-1074)) (0 - 0))
    with (- s) by (subst s; lia).
  replace (0 - 0 - - s) with s by lia.
  destruct s as [|p|p] eqn:Es; [subst s; lia | | subst s; lia].
  rewrite Z.shiftl_mul_pow2 by lia.
  rewrite div_eucl_div_mod. reflexivity.
Qed.

Lemma represents_of_quotient X V :
  0 < V -> 2 ^ 52 <= X / V < 2 ^ 53 -> 2 ^ 52 * V <= X < 2 ^ 53 * V.
Proof.
  intros HV Hq.
  pose proof (Z.mul_div_le X V HV). pose proof (Z.mul_succ_div_gt X V HV).
  nia.
Qed.

(** The exponent of a fraction that lies in [[2^-53, 1]]. *)
Lemma represents_exponent k n X V E :
  1 <= k <= n -> n <= 2 ^ 53 -> represents k n X V E -> -105 <= E <= -52.
Proof.
  intros Hk Hn (HV & Hbin & HE & Hval).
  split.
  - destruct (Z_le_gt_dec (-105) E) as [H|H]; [exact H|]. exfalso.
    assert (HW : 2 ^ 106 <= 2 ^ (- E)) by (apply Z.pow_le_mono_r; lia).
    assert (H1 : X * n < 2 ^ 53 * V * 2 ^ 53) by nia.
    assert (H2 : 1 * V * 2 ^ 106 <= k * V * 2 ^ (- E)).
    { apply Z.mul_le_mono_nonneg; try lia. nia. }
    change (2 ^ 106) with (2 ^ 53 * 2 ^ 53) in H2. nia.
  - destruct (Z_le_gt_dec E (-52)) as [H|H]; [exact H|]. exfalso.
    assert (HW : 2 ^ (- E) <= 2 ^ 51) by (apply Z.pow_le_mono_r; lia).
    pose proof (pow2_pos (- E) ltac:(lia)) as HW0.
    assert (H1 : 2 ^ 52 * V * n <= X * n) by nia.
    assert (H2 : k * V * 2 ^ (- E) <= n * V * 2 ^ 51).
    { apply Z.mul_le_mono_nonneg; try lia; nia. }
    change (2 ^ 52) with (2 * 2 ^ 51) in H1. nia.
Qed.

(** The quotient [k / n] of two lengths, [1 <= k <= n <= 2^53], is the
    fraction rounded to 53 digits. *)
Lemma div_lengths k n :
  1 <= k <= n -> n <= 2 ^ 53 ->
  exists X V E,
    represents k n X V E /\
    F64.div (int_raw k) (int_raw n) = normal (round_half_even X V) E.
Proof.
  intros Hk Hn.
  set (s := 53 + Zdigits2 n - Zdigits2 k).
  pose proof (Zdigits2_le k n ltac:(lia) ltac:(lia)) as Hd.
  pose proof (Zdigits2_pos k ltac:(lia)) as Hd1.
  pose proof (Zdigits2_le_bound n 54 ltac:(lia) ltac:(lia) ltac:(lia)) as Hd2.
  pose proof (Zdigits2_bounds k ltac:(lia)) as Bk.
  pose proof (Zdigits2_bounds n ltac:(lia)) as Bn.
  assert (Hs : 53 <= s <= 106) by (subst s; lia).
  set (X := k * 2 ^ s).
  assert (HX : 0 <= X) by (subst X; pose proof (pow2_pos s ltac:(lia)); nia).
  (* the quotient has 53 or 54 digits *)
  assert (Hq0 : 2 ^ 52 <= X / n < 2 ^ 54).
  { assert (E1 : 2 ^ (Zdigits2 k - 1) * 2 ^ s = 2 ^ 52 * 2 ^ Zdigits2 n).
    { rewrite <- !Z.pow_add_r by lia. f_equal. subst s. lia. }
    assert (E2 : 2 ^ Zdigits2 k * 2 ^ s = 2 ^ 54 * 2 ^ (Zdigits2 n - 1)).
    { rewrite <- !Z.pow_add_r by lia. f_equal. subst s. lia. }
    pose proof (pow2_pos s ltac:(lia)) as Hps.
    split.
    - apply Z.div_le_lower_bound; [lia|]. subst X. nia.
    - apply Z.div_lt_upper_bound; [lia|]. subst X. nia. }
  assert (Hdq : 53 <= Zdigits2 (X / n) <= 54).
  { split.
    - pose proof (Zdigits2_le (2 ^ 52) (X / n) ltac:(lia) ltac:(lia)) as H.
      exact H.
    - apply Zdigits2_le_bound; lia. }
  destruct (binary_round_aux_normal X n (X / n) (- s)
              (new_location n (X mod n)) HX ltac:(lia))
    as [Hbin Hround].
  { apply locates_division; lia. }
  { lia. }
  { lia. }
  set (sh := Zdigits2 (X / n) - 53) in *.
  pose proof (pow2_pos sh ltac:(subst sh; lia)) as Hpsh.
  exists X, (n * 2 ^ sh), (- s + sh).
  split.
  - split; [nia|]. split; [apply represents_of_quotient; [nia | assumption]|].
    split; [subst sh; lia|].
    subst X. replace (- (- s + sh)) with (s - sh) by lia.
    replace (k * 2 ^ s * n) with (k * n * 2 ^ s) by ring.
    replace (k * (n * 2 ^ sh) * 2 ^ (s - sh)) with (k * n * (2 ^ sh * 2 ^ (s - sh))) by ring.
    rewrite <- Z.pow_add_r by (subst sh; lia).
    do 2 f_equal. lia.
  - unfold F64.div, SFdiv.
    destruct k as [|pk|pk]; try lia. destruct n as [|pn|pn]; try lia.
    cbn [int_raw].
    rewrite (div_core_lengths (Zpos pk) (Zpos pn) Hk Hn). fold s. fold X.
    cbn [xorb]. exact Hround.
Qed.

(** ** One minus a quotient *)

Lemma pos_iter_xO p d : Zpos (Pos.iter xO p d) = Zpos p * 2 ^ Zpos d.
Proof.
  rewrite Pos2Nat.inj_iter. rewrite <- (positive_nat_Z d).
  induction (Pos.to_nat d) as [|j IH].
  - cbn. lia.
  - cbn [nat_rect]. rewrite Pos2Z.inj_xO, IH.
    rewrite Nat2Z.inj_succ, Z.pow_succ_r by lia. ring.
Qed.

Lemma shl_align_fst mx ex ex' :
  ex' <= ex -> Zpos (fst (shl_align mx ex ex')) = Zpos mx * 2 ^ (ex - ex').
Proof.
  intros H. unfold shl_align.
  destruct (ex' - ex) as [|d|d] eqn:E; cbn [fst].
  - replace (ex - ex') with 0 by lia. lia.
  - lia.
  - rewrite pos_iter_xO. do 2 f_equal. lia.
Qed.

Lemma shl_align_snd mx ex ex' :
  ex' <= ex -> snd (shl_align mx ex ex') = ex'.
Proof.
  intros H. unfold shl_align.
  destruct (ex' - ex) as [|d|d] eqn:E; cbn [snd]; lia.
Qed.

Lemma shl_align_id mx ex ex' : ex <= ex' -> shl_align mx ex ex' = (mx, ex).
Proof.
  intros H. unfold shl_align. destruct (ex' - ex) as [|d|d] eqn:E; try reflexivity. lia.
Qed.

(** Rounding a positive dyadic [D * 2^e] in the normal range. *)
Lemma binary_round_normal (D : positive) (e : Z) :
  -1074 <= Zdigits2 (Zpos D) + e - 53 < 971 ->
  exists X V E,
    0 < V /\ 2 ^ 52 * V <= X < 2 ^ 53 * V /\
    E = Zdigits2 (Zpos D) + e - 53 /\
    (forall W, 0 < W -> E <= 0 -> e <= 0 -> W = 2 ^ (- e) ->
       X * W = Zpos D * V * 2 ^ (- E)) /\
    binary_round F64.prec F64.emax false D e = normal (round_half_even X V) E.
Proof.
  intros Hrange. set (dD := Zdigits2 (Zpos D)) in *.
  pose proof (Zdigits2_bounds (Zpos D) ltac:(lia)) as BD. fold dD in BD.
  pose proof (Zdigits2_pos (Zpos D) ltac:(lia)) as HdD. fold dD in HdD.
  unfold binary_round. cbn [Zdigits2] in dD. fold dD. rewrite fexp_binary64.
  replace (Z.max (dD + e - 53) (-1074)) with (dD + e - 53) by lia.
  destruct (Z_lt_ge_dec dD 53) as [Hlt|Hge].
  - (* fewer than 53 digits: aligned to the left, exact *)
    pose proof (shl_align_fst D e (dD + e - 53) ltac:(lia)) as Hf.
    pose proof (shl_align_snd D e (dD + e - 53) ltac:(lia)) as Hs.
    destruct (shl_align D e (dD + e - 53)) as [mz ez]. cbn [fst snd] in Hf, Hs.
    subst ez. replace (e - (dD + e - 53)) with (53 - dD) in Hf by lia.
    assert (Hdz : Zdigits2 (Zpos mz) = 53).
    { apply Zdigits2_unique; [lia|]. rewrite Hf.
      pose proof (pow2_pos (53 - dD) ltac:(lia)) as Hp.
      assert (E1 : 2 ^ (dD - 1) * 2 ^ (53 - dD) = 2 ^ (53 - 1))
        by (rewrite <- Z.pow_add_r by lia; f_equal; lia).
      assert (E2 : 2 ^ dD * 2 ^ (53 - dD) = 2 ^ 53)
        by (rewrite <- Z.pow_add_r by lia; f_equal; lia).
      nia. }
    destruct (binary_round_aux_normal (Zpos mz) 1 (Zpos mz) (dD + e - 53) loc_Exact)
      as [Hbin Hround]; try lia.
    { apply locates_exact. lia. }
    rewrite Hdz in Hbin. rewrite Hdz in Hround.
    change (53 - 53) with 0 in Hbin. change (53 - 53) with 0 in Hround.
    change (1 * 2 ^ 0) with 1 in Hbin. change (1 * 2 ^ 0) with 1 in Hround.
    exists (Zpos mz), 1, (dD + e - 53).
    split; [lia|]. split; [apply represents_of_quotient; [lia | assumption]|].
    split; [reflexivity|]. split.
    + intros W HW HE He ->. rewrite Hf.
      replace (- (dD + e - 53)) with ((53 - dD) + - e) by lia.
      rewrite Z.pow_add_r by lia. ring.
    + rewrite Hround. now rewrite Z.add_0_r.
  - (* at least 53 digits: rounded *)
    rewrite shl_align_id by lia.
    destruct (binary_round_aux_normal (Zpos D) 1 (Zpos D) e loc_Exact)
      as [Hbin Hround];
      try (change (Zdigits2 (Z.pos D)) with dD; lia).
    { apply locates_exact. lia. }
    change (Zdigits2 (Z.pos D)) with dD in Hbin.
    change (Zdigits2 (Z.pos D)) with dD in Hround.
    pose proof (pow2_pos (dD - 53) ltac:(lia)) as Hp.
    exists (Zpos D), (1 * 2 ^ (dD - 53)), (dD + e - 53).
    split; [lia|]. split; [apply represents_of_quotient; [lia | assumption]|].
    split; [reflexivity|]. split.
    + intros W HW HE He ->.
      replace (Zpos D * (1 * 2 ^ (dD - 53)) * 2 ^ (- (dD + e - 53)))
        with (Zpos D * (2 ^ (dD - 53) * 2 ^ (- (dD + e - 53)))) by ring.
      rewrite <- Z.pow_add_r by lia. do 2 f_equal. lia.
    + rewrite Hround. f_equal. lia.
Qed.

(** [1.0 - q] for a float [q = m * 2^e] of [[2^-53, 1)]: the difference
    rounded to 53 digits. *)
Lemma sub_one_finite m e :
  2 ^ 52 <= m < 2 ^ 53 -> -105 <= e <= -53 ->
  exists X V E,
    represents (2 ^ (- e) - m) (2 ^ (- e)) X V E /\
    F64.sub F64.one (S754_finite false (Z.to_pos m) e)
      = normal (round_half_even X V) E.
Proof.
  intros Hm He.
  pose proof (pow2_pos (- e) ltac:(lia)) as HW.
  assert (HW53 : 2 ^ 53 <= 2 ^ (- e)) by (apply Z.pow_le_mono_r; lia).
  assert (HW105 : 2 ^ (- e) <= 2 ^ 105) by (apply Z.pow_le_mono_r; lia).
  set (W := 2 ^ (- e)) in *.
  assert (HD : 0 < W - m) by lia.
  unfold F64.sub, F64.one, SFsub.
  replace (Z.min (-52) e) with e by lia.
  pose proof (shl_align_fst 4503599627370496 (-52) e ltac:(lia)) as H1.
  rewrite (shl_align_id (Z.to_pos m) e e) by lia. cbn [fst cond_Zopp].
  assert (E1 : Zpos (fst (shl_align 4503599627370496 (-52) e)) = W).
  { rewrite H1. change (Zpos 4503599627370496) with (2 ^ 52).
    subst W. rewrite <- Z.pow_add_r by lia. f_equal. lia. }
  rewrite E1, Z2Pos.id by lia.
  destruct (W - m) as [|D|D] eqn:ED; try lia.
  cbn [binary_normalize].
  assert (HdD : Zdigits2 (Zpos D) <= - e).
  { apply Zdigits2_le_bound; [lia | lia |]. fold W. lia. }
  pose proof (Zdigits2_pos (Zpos D) ltac:(lia)) as HdD1.
  destruct (binary_round_normal D e ltac:(lia))
    as (X & V & E & HV & Hbin & HE & Hval & Hround).
  exists X, V, E. split; [|exact Hround].
  split; [assumption|]. split; [assumption|]. split; [lia|].
  apply Hval; first [lia | reflexivity].
Qed.

Lemma round_half_even_multiple c V : 0 < V -> round_half_even (c * V) V = c.
Proof.
  intros HV. unfold round_half_even.
  rewrite Z.div_mul, Z.mod_mul by lia.
  destruct (Z.ltb_spec (2 * 0) V); [reflexivity | lia].
Qed.

(** A fraction of at most [1 - 2^-53] rounds below [1.0]. *)
Lemma below_one a b X V E :
  0 < b -> represents a b X V E -> a * 2 ^ 53 <= b * (2 ^ 53 - 1) ->
  E <= -54 \/ (E = -53 /\ round_half_even X V < 2 ^ 53).
Proof.
  intros Hb (HV & Hbin & HE & Hval) Hle.
  pose proof (pow2_pos (- E) ltac:(lia)) as HW.
  assert (Ha : 0 < a).
  { destruct (Z_lt_le_dec 0 a) as [H|H]; [exact H|]. exfalso.
    assert (a * V * 2 ^ (- E) <= 0) by nia. nia. }
  assert (Hab : a < b) by lia.
  assert (HE53 : E <= -53).
  { destruct (Z_le_gt_dec E (-53)) as [H|H]; [exact H|]. exfalso.
    assert (HW52 : 2 ^ (- E) <= 2 ^ 52) by (apply Z.pow_le_mono_r; lia).
    assert (H1 : a * V * 2 ^ (- E) <= a * V * 2 ^ 52)
      by (apply Z.mul_le_mono_nonneg_l; nia).
    assert (H2 : a * V * 2 ^ 52 < b * V * 2 ^ 52) by nia.
    nia. }
  destruct (Z.eq_dec E (-53)) as [E53|NE]; [|left; lia].
  right. split; [assumption|].
  rewrite E53 in Hval. change (- -53) with 53 in Hval.
  assert (HX : X * V <= ((2 ^ 53 - 1) * V) * V).
  { apply Z.mul_le_mono_nonneg_r; [lia|].
    assert (H1 : X * b <= (2 ^ 53 - 1) * V * b).
    { rewrite Hval.
      replace (a * V * 2 ^ 53) with ((a * 2 ^ 53) * V) by ring.
      replace ((2 ^ 53 - 1) * V * b) with ((b * (2 ^ 53 - 1)) * V) by ring.
      apply Z.mul_le_mono_nonneg_r; lia. }
    apply Z.mul_le_mono_pos_r in H1; assumption. }
  pose proof (round_half_even_mono X V ((2 ^ 53 - 1) * V) V HV HV HX) as Hm.
  rewrite round_half_even_multiple in Hm by assumption. lia.
Qed.

Lemma normal_below_one M E :
  2 ^ 52 <= M <= 2 ^ 53 ->
  E <= -54 \/ (E = -53 /\ M < 2 ^ 53) ->
  exists m e,
    normal M E = S754_finite false (Z.to_pos m) e /\
    2 ^ 52 <= m < 2 ^ 53 /\ E <= e <= -53.
Proof.
  intros HM Hcase. unfold normal.
  destruct (Z.eqb_spec M (2 ^ 53)) as [EM|NM].
  - exists (2 ^ 52), (E + 1). split; [reflexivity|]. lia.
  - exists M, E. split; [reflexivity|]. lia.
Qed.

Lemma finite_ltb_one m e :
  2 ^ 52 <= m < 2 ^ 53 -> e <= -53 ->
  F64.ltb (S754_finite false (Z.to_pos m) e) F64.one = true.
Proof.
  intros Hm He. unfold F64.ltb, SFltb.
  rewrite SFcompare_rank by reflexivity.
  cbn [rank F64.one lex_compare]. rewrite Z2Pos.id by lia.
  destruct (Z.compare_spec e (-52)); try lia. reflexivity.
Qed.

Lemma finite_leb_inv m e m' e' :
  F64.leb (S754_finite false m e) (S754_finite false m' e') = true ->
  e < e' \/ (e = e' /\ Zpos m <= Zpos m').
Proof.
  unfold F64.leb, SFleb. rewrite SFcompare_rank by reflexivity.
  cbn [rank lex_compare].
  destruct (Z.compare_spec e e'); try discriminate; [|lia].
  destruct (Z.compare_spec (Zpos m) (Zpos m')); try discriminate; lia.
Qed.

(** The quotient of two lengths [1 <= k < n <= 2^53] is a float of
    [[2^-53, 1)]. *)
Lemma quotient_below_one k n :
  1 <= k < n -> n <= 2 ^ 53 ->
  exists m e,
    F64.div (int_raw k) (int_raw n) = S754_finite false (Z.to_pos m) e /\
    2 ^ 52 <= m < 2 ^ 53 /\ -105 <= e <= -53.
Proof.
  intros Hk Hn.
  destruct (div_lengths k n ltac:(lia) Hn) as (X & V & E & Hrep & Hdiv).
  pose proof (represents_exponent k n X V E ltac:(lia) Hn Hrep) as HE.
  assert (Hle : k * 2 ^ 53 <= n * (2 ^ 53 - 1)) by nia.
  pose proof (below_one k n X V E ltac:(lia) Hrep Hle) as Hcase.
  destruct Hrep as (HV & Hbin & _ & _).
  pose proof (round_half_even_bounds X V HV) as HM.
  assert (Hq : 2 ^ 52 <= X / V < 2 ^ 53).
  { split; [apply Z.div_le_lower_bound; lia | apply Z.div_lt_upper_bound; lia]. }
  destruct (normal_below_one (round_half_even X V) E ltac:(lia) Hcase)
    as (m & e & Hnorm & Hm & He).
  exists m, e. rewrite Hdiv, Hnorm. repeat split; lia.
Qed.

(** ** The rate as a function of the kept count *)

Lemma rate_of_zero n : 1 <= n -> rate_of 0 n = F64.one.
Proof. intros Hn. destruct n as [|p|p]; try lia. reflexivity. Qed.

Lemma rate_of_all n : 1 <= n -> rate_of n n = F64.zero.
Proof.
  intros Hn. destruct n as [|p|p]; try lia.
  unfold rate_of. rewrite div_self. reflexivity.
Qed.

Lemma rate_of_normal k n :
  1 <= k < n -> n <= 2 ^ 53 ->
  exists m e X V E,
    F64.div (int_raw k) (int_raw n) = S754_finite false (Z.to_pos m) e /\
    2 ^ 52 <= m < 2 ^ 53 /\ -105 <= e <= -53 /\
    represents (2 ^ (- e) - m) (2 ^ (- e)) X V E /\
    rate_of k n = normal (round_half_even X V) E.
Proof.
  intros Hk Hn.
  destruct (quotient_below_one k n Hk Hn) as (m & e & Hdiv & Hm & He).
  destruct (sub_one_finite m e Hm He) as (X & V & E & Hrep & Hsub).
  exists m, e, X, V, E. unfold rate_of. rewrite Hdiv. auto.
Qed.

Lemma rate_of_normal_below_one m e X V E :
  2 ^ 52 <= m < 2 ^ 53 -> -105 <= e <= -53 ->
  represents (2 ^ (- e) - m) (2 ^ (- e)) X V E ->
  F64.ltb (normal (round_half_even X V) E) F64.one = true.
Proof.
  intros Hm He Hrep.
  pose proof (pow2_pos (- e) ltac:(lia)) as HW.
  assert (HW105 : 2 ^ (- e) <= 2 ^ 105) by (apply Z.pow_le_mono_r; lia).
  assert (Hle : (2 ^ (- e) - m) * 2 ^ 53 <= 2 ^ (- e) * (2 ^ 53 - 1)).
  { change (2 ^ 105) with (2 ^ 52 * 2 ^ 53) in HW105. nia. }
  pose proof (below_one _ _ X V E HW Hrep Hle) as Hcase.
  destruct Hrep as (HV & Hbin & _ & _).
  pose proof (round_half_even_bounds X V HV) as HM.
  assert (Hq : 2 ^ 52 <= X / V < 2 ^ 53).
  { split; [apply Z.div_le_lower_bound; lia | apply Z.div_lt_upper_bound; lia]. }
  destruct (normal_below_one (round_half_even X V) E ltac:(lia) Hcase)
    as (m' & e' & -> & Hm' & He').
  apply finite_ltb_one; lia.
Qed.

(** With at least one point kept, among at most [2^53], the rate is
    strictly below [1.0]. *)
Lemma rate_of_lt_one k n :
  1 <= k <= n -> n <= 2 ^ 53 -> F64.ltb (rate_of k n) F64.one = true.
Proof.
  intros Hk Hn. destruct (Z.eq_dec k n) as [->|Hne].
  - rewrite rate_of_all by lia. reflexivity.
  - destruct (rate_of_normal k n ltac:(lia) Hn)
      as (m & e & X & V & E & _ & Hm & He & Hrep & ->).
    now apply rate_of_normal_below_one with m e.
Qed.

Lemma rate_of_not_nan k n :
  0 <= k <= n -> 1 <= n -> n <= 2 ^ 53 -> F64.is_nan (rate_of k n) = false.
Proof.
  intros Hk Hn1 Hn. destruct (Z.eq_dec k 0) as [->|Hk0].
  - now rewrite rate_of_zero.
  - assert (H : F64.ltb (rate_of k n) F64.one = true)
      by (apply rate_of_lt_one; lia).
    now apply ltb_not_nan in H.
Qed.

(** The more points are kept, the lower the rate. *)
Lemma rate_of_mono k k' n :
  0 <= k <= k' -> k' <= n -> 1 <= n -> n <= 2 ^ 53 ->
  F64.leb (rate_of k' n) (rate_of k n) = true.
Proof.
  intros Hk Hk' Hn1 Hn.
  destruct (Z.eq_dec k k') as [->|Hne].
  { apply leb_refl. apply rate_of_not_nan; lia. }
  destruct (Z.eq_dec k 0) as [->|Hk0].
  { rewrite (rate_of_zero n Hn1). apply ltb_leb. apply rate_of_lt_one; lia. }
  destruct (Z.eq_dec k' n) as [->|Hkn].
  { rewrite (rate_of_all n Hn1).
    destruct (rate_of_normal k n ltac:(lia) Hn)
      as (m & e & X & V & E & _ & _ & _ & _ & ->).
    unfold normal. destruct (_ =? _); reflexivity. }
  destruct (rate_of_normal k n ltac:(lia) Hn)
    as (m & e & X & V & E & Hdiv & Hm & He & Hrep & ->).
  destruct (rate_of_normal k' n ltac:(lia) Hn)
    as (m' & e' & X' & V' & E' & Hdiv' & Hm' & He' & Hrep' & ->).
  (* the quotients are ordered *)
  assert (Hq : F64.leb (F64.div (int_raw k) (int_raw n))
                       (F64.div (int_raw k') (int_raw n)) = true).
  { destruct (div_lengths k n ltac:(lia) Hn) as (Xq & Vq & Eq & Hrq & ->).
    destruct (div_lengths k' n ltac:(lia) Hn) as (Xq' & Vq' & Eq' & Hrq' & ->).
    apply normal_round_mono with k n k' n; try assumption; try lia. nia. }
  rewrite Hdiv, Hdiv' in Hq. apply finite_leb_inv in Hq.
  rewrite !Z2Pos.id in Hq by lia.
  pose proof (pow2_pos (- e) ltac:(lia)) as HW.
  pose proof (pow2_pos (- e') ltac:(lia)) as HW'.
  apply normal_round_mono
    with (2 ^ (- e') - m') (2 ^ (- e')) (2 ^ (- e) - m) (2 ^ (- e));
    try assumption.
  (* [m * 2^-e' <= m' * 2^-e] *)
  assert (Hcross : m * 2 ^ (- e') <= m' * 2 ^ (- e)).
  { destruct Hq as [Hlt | [Heq Hmm]].
    - assert (H2 : 2 * 2 ^ (- e') <= 2 ^ (- e)).
      { replace (- e) with (1 + (- e' + (e' - e - 1))) by lia.
        rewrite !Z.pow_add_r by lia. change (2 ^ 1) with 2.
        pose proof (pow2_pos (e' - e - 1) ltac:(lia)). nia. }
      change (2 ^ 53) with (2 * 2 ^ 52) in Hm. nia.
    - subst e'. nia. }
  nia.
Qed.

(** ** The rate of a completed run *)

Lemma select_length {A} (l : list A) (idx : list Z) :
  (forall i, In i idx -> 0 <= i < Z.of_nat (length l)) ->
  length (select l idx) = length idx.
Proof.
  unfold select. induction idx as [|i idx IH]; intros H; cbn; [reflexivity|].
  destruct (getitem_nth_error l i) as (x & Hx & _); [apply H; now left|].
  rewrite Hx. cbn. f_equal. apply IH. intros j Hj. apply H. now right.
Qed.

Lemma kept_indices_in_range c g i :
  In i (kept_indices c g) -> 0 <= i < Z.of_nat (length c).
Proof. intros H. now apply In_kept_indices in H. Qed.

Lemma kept_indices_length c g :
  (length (kept_indices c g) <= length c)%nat.
Proof.
  unfold kept_indices.
  etransitivity; [apply filter_length_le|]. rewrite range_length. lia.
Qed.

Lemma arange_sorted lo hi : StronglySorted Z.lt (arange lo hi).
Proof.
  remember (Z.to_nat (hi - lo)) as k eqn:Hk. revert lo Hk.
  induction k as [|k IH]; intros lo Hk.
  - rewrite arange_empty by lia. constructor.
  - rewrite arange_cons by lia. constructor.
    + apply IH. lia.
    + apply Forall_forall. intros j Hj. apply In_arange in Hj. lia.
Qed.

Lemma StronglySorted_filter {A} (R : A -> A -> Prop) (f : A -> bool) l :
  StronglySorted R l -> StronglySorted R (filter f l).
Proof.
  induction 1 as [|x l Hl IH Hx]; cbn [filter]; [constructor|].
  destruct (f x); [|exact IH].
  constructor; [exact IH|].
  apply Forall_forall. intros y Hy. apply filter_In in Hy.
  rewrite Forall_forall in Hx. now apply Hx.
Qed.

Lemma kept_indices_sorted c g : StronglySorted Z.lt (kept_indices c g).
Proof. unfold kept_indices, range. apply StronglySorted_filter, arange_sorted. Qed.

(** The kept indices are where the stored window maxima compare equal to
    the scores. *)
Lemma kept_indices_where g c mc j :
  max_scores g c = Ok mc ->
  In j (kept_indices c g) <->
  0 <= j < Z.of_nat (length c) /\
  F64.eqb (at_index mc j) (at_index c j) = true.
Proof.
  intros Hmc. rewrite In_kept_indices. split; intros [Hj H]; (split; [assumption|]).
  - unfold local_max in H. rewrite (max_scores_nth g c mc j Hmc Hj) in H. exact H.
  - unfold local_max. rewrite (max_scores_nth g c mc j Hmc Hj). exact H.
Qed.

Lemma In_select {A} (l : list A) (idx : list Z) i x :
  nth_error l (Z.to_nat i) = Some x -> In i idx -> In x (select l idx).
Proof.
  intros Hx Hi. unfold select. apply in_flat_map. exists i.
  split; [assumption|]. rewrite Hx. now left.
Qed.

(** The rate of a completed run, from the number of kept indices. *)
Lemma compression_rate_compressed_state a g c mc s :
  length c = length (position s) -> (1 <= length c)%nat ->
  fst (compression_rate (compressed_state a g c mc s))
    = Ok (rate_of (Z.of_nat (length (kept_indices c g))) (Z.of_nat (length c))).
Proof.
  intros Hlen Hpos.
  rewrite compression_rate_run
    with (stp := select (map snd (position s)) (kept_indices c g))
         (tp := map snd (position s)); try reflexivity.
  cbn [fst]. rewrite select_length.
  2:{ intros i Hi. apply kept_indices_in_range in Hi. rewrite length_map. lia. }
  rewrite length_map, <- Hlen. unfold int_truediv.
  replace (Z.of_nat (length c) =? 0) with false by (symmetry; apply Z.eqb_neq; lia).
  reflexivity.
Qed.

Lemma nan_free_window c i g : nan_free c -> nan_free (window i g c).
Proof.
  intros Hc v Hv. apply In_window in Hv. destruct Hv as (j & Hj & ->).
  apply Hc. unfold at_index. apply nth_In. lia.
Qed.

Lemma is_finite_not_nan x : F64.is_finite x = true -> F64.is_nan x = false.
Proof. destruct x; cbn; congruence. Qed.

(** C10.  On a trajectory of [n >= 1] rows with [gamma >= 1], when every
    score is a finite number, an index [i] whose score is the greatest of all
    is kept: its window contains it, so the window maximum that
    [update_max_coeff] stores for [i] compares equal to its own score, and
    [simplified_trajectory], which keeps the indices where the two compare
    equal, puts the smoothed row and the timestamp of [i] in the compressed
    trajectory.  Hence the run completes with a compressed trajectory of
    [k >= 1] rows and the compression rate is [1 - k / n], strictly less
    than 1; the binary64 value that [compression_rate] returns compares
    strictly below [1.0] for the lengths a float counts exactly,
    [n <= 2^53]. *)
Theorem C10_global_maximum_is_kept
    (corr : list float -> list float -> result float)
    (s0 s1 : FastStray) (g : Z) (c : list float) (i : Z) :
  sample_size s0 = Z.of_nat (length (position s0)) ->
  1 <= sample_size s0 ->
  dict_get (params s0) "gamma" = Ok g ->
  1 <= g ->
  bind moving_average (fun _ => update_coeff corr) s0 = (Ok tt, s1) ->
  coeff s1 = Some c ->
  (forall j, 0 <= j < sample_size s0 -> F64.is_finite (at_index c j) = true) ->
  0 <= i < sample_size s0 ->
  (forall j, 0 <= j < sample_size s0 -> F64.leb (at_index c j) (at_index c i) = true) ->
  let n := sample_size s0 in
  let ts := map snd (position s0) in
  exists s2 sm mc idx row t rate,
    run corr s0 = (Ok tt, s2) /\
    filtering_spatial_position s2 = Some sm /\
    filtering_temporal_position s2 = Some ts /\
    coeff s2 = Some c /\
    max_coeff s2 = Some mc /\
    In (at_index c i) (window i g c) /\
    py_max (window i g c) = Ok (at_index mc i) /\
    F64.eqb (at_index mc i) (at_index c i) = true /\
    (forall j, In j idx <->
       0 <= j < n /\ F64.eqb (at_index mc j) (at_index c j) = true) /\
    StronglySorted Z.lt idx /\
    simplified_spatial_position s2 = Some (select sm idx) /\
    simplified_temporal_position s2 = Some (select ts idx) /\
    In i idx /\
    nth_error sm (Z.to_nat i) = Some row /\ In row (select sm idx) /\
    nth_error ts (Z.to_nat i) = Some t /\ In t (select ts idx) /\
    1 <= Z.of_nat (length (select ts idx)) <= n /\
    fst (compression_rate s2) = Ok rate /\
    rate = rate_of (Z.of_nat (length (select ts idx))) n /\
    (n <= 2 ^ 53 -> F64.ltb rate F64.one = true).
Proof.
  intros Hn Hn1 Hg Hg1 Hscore Hc Hfin Hi Hmax n ts.
  destruct (scoring_ok_inv corr s0 s1 Hn Hscore) as (a & b & c' & Ha & Hb & Hc' & ->).
  cbn in Hc. inversion Hc; subst c'. clear Hc.
  destruct (max_scores_total g c Hg1) as (mc & Hmc).
  pose proof (scores_length _ _ _ _ _ Hc') as Hlc.
  rewrite smoothed_length, length_map in Hlc.
  assert (Hlen : Z.of_nat (length c) = n) by (subst n; lia).
  assert (Hnan : nan_free c).
  { intros v Hv. destruct (In_nth c v F64.nan Hv) as (j & Hj & <-).
    apply is_finite_not_nan.
    specialize (Hfin (Z.of_nat j) ltac:(lia)). unfold at_index in Hfin.
    now rewrite Nat2Z.id in Hfin. }
  assert (Hi' : 0 <= i < Z.of_nat (length c)) by lia.
  pose proof (centre_in_window c i g Hg1 Hi') as Hcentre.
  assert (Hlm : local_max c g i = true).
  { apply local_max_greatest; try assumption; [now apply nan_free_window|].
    split; [assumption|].
    intros v Hv. apply In_window in Hv. destruct Hv as (j & Hj & ->).
    apply Hmax. lia. }
  assert (Hkept : In i (kept_indices c g)) by (apply In_kept_indices; auto).
  pose proof (kept_indices_length c g) as Hk2.
  set (sm := smoothed a (map fst (position s0))).
  assert (Hlsm : length sm = length c)
    by (subst sm; now rewrite smoothed_length, length_map).
  assert (Hlts : length ts = length c) by (subst ts; now rewrite length_map).
  assert (Hsel : length (select ts (kept_indices c g)) = length (kept_indices c g)).
  { apply select_length. intros j Hj. apply kept_indices_in_range in Hj. lia. }
  assert (Hk1 : (1 <= length (kept_indices c g))%nat)
    by (destruct (kept_indices c g); [destruct Hkept | cbn; lia]).
  destruct (nth_error sm (Z.to_nat i)) as [row|] eqn:Erow;
    [|apply nth_error_None in Erow; lia].
  destruct (nth_error ts (Z.to_nat i)) as [t|] eqn:Et;
    [|apply nth_error_None in Et; lia].
  pose proof (proj1 (kept_indices_where g c mc i Hmc) Hkept) as [_ Heq].
  exists (compressed_state a g c mc s0), sm, mc, (kept_indices c g), row, t,
    (rate_of (Z.of_nat (length (kept_indices c g))) (Z.of_nat (length c))).
  split; [now apply run_compressed_state with (b := b)|].
  do 4 (split; [reflexivity|]).
  split; [assumption|].
  split; [now apply max_scores_nth|].
  split; [assumption|].
  split; [intros j; rewrite <- Hlen; now apply kept_indices_where|].
  split; [apply kept_indices_sorted|].
  do 2 (split; [reflexivity|]).
  split; [assumption|].
  split; [exact Erow|]. split; [now apply In_select with i|].
  split; [reflexivity|]. split; [now apply In_select with i|].
  split; [rewrite Hsel; lia|].
  split; [apply compression_rate_compressed_state; lia|].
  split; [now rewrite Hsel, Hlen|].
  intros Hbound. apply rate_of_lt_one; lia.
Qed.

Lemma C10_global_maximum_witness :
  exists s2 idx rate,
    run pearsonr diagonal_run = (Ok tt, s2) /\
    simplified_temporal_position s2 = Some (select (map snd (diagonal 8)) idx) /\
    In 7 idx /\
    In (F64.of_Z 7) (select (map snd (diagonal 8)) idx) /\
    simplified_temporal_position s2 = Some [F64.of_Z 2; F64.of_Z 7] /\
    fst (compression_rate s2) = Ok rate /\
    F64.ltb rate F64.one = true.
Proof.
  assert (Hcases : forall j, 0 <= j < 8 ->
            j = 0 \/ j = 1 \/ j = 2 \/ j = 3 \/ j = 4 \/ j = 5 \/ j = 6 \/ j = 7)
    by (intros; lia).
  destruct (C10_global_maximum_is_kept pearsonr diagonal_run
              (snd (bind moving_average (fun _ => update_coeff pearsonr) diagonal_run))
              2 diagonal_scores 7)
    as (s2 & sm & mc & idx & row & t & rate & Hrun & _ & _ & _ & _ & _ & _ & _ & _ & _
        & _ & Hts & Hin & _ & _ & Ht & Hint & _ & Hrate & _ & Hlt).
  - reflexivity.
  - change (1 <= 8). lia.
  - reflexivity.
  - lia.
  - vm_compute. reflexivity.
  - vm_compute. reflexivity.
  - intros j Hj. destruct (Hcases j Hj) as [->|[->|[->|[->|[->|[->|[->| ->]]]]]]];
      reflexivity.
  - change (0 <= 7 < 8). lia.
  - intros j Hj. destruct (Hcases j Hj) as [->|[->|[->|[->|[->|[->|[->| ->]]]]]]];
      vm_compute; reflexivity.
  - exists s2, idx, rate.
    split; [exact Hrun|]. split; [exact Hts|]. split; [exact Hin|].
    split; [vm_compute in Ht; inversion Ht; subst t; exact Hint|].
    split.
    + assert (Es : s2 = snd (run pearsonr diagonal_run)) by (now rewrite Hrun).
      rewrite Es. vm_compute. reflexivity.
    + split; [exact Hrate|]. apply Hlt. change (8 <= 2 ^ 53). lia.
Defined.

(** ** The suppression half-width *)

Lemma filter_length_le_imp {A} (f h : A -> bool) (l : list A) :
  (forall x, In x l -> f x = true -> h x = true) ->
  (length (filter f l) <= length (filter h l))%nat.
Proof.
  induction l as [|x l IH]; intros H; cbn; [lia|].
  assert (IH' : (length (filter f l) <= length (filter h l))%nat)
    by (apply IH; intros y Hy; apply H; now right).
  destruct (f x) eqn:Ef.
  - rewrite (H x (or_introl eq_refl) Ef). cbn. lia.
  - destruct (h x); cbn; lia.
Qed.

(** On scores without NaN, a wider suppression window keeps a subset. *)
Lemma local_max_widen c g1 g2 i :
  nan_free c -> 1 <= g1 <= g2 -> 0 <= i < Z.of_nat (length c) ->
  local_max c g2 i = true -> local_max c g1 i = true.
Proof.
  intros Hnan Hg Hi H2.
  apply local_max_greatest in H2; try lia; [|now apply nan_free_window].
  apply local_max_greatest; try lia; [now apply nan_free_window|].
  split; [apply centre_in_window; lia|].
  intros v Hv. apply H2. apply In_window in Hv. apply In_window.
  destruct Hv as (j & Hj & ->). exists j. split; [lia | reflexivity].
Qed.

Lemma kept_indices_widen c g1 g2 :
  nan_free c -> 1 <= g1 <= g2 ->
  (forall i, In i (kept_indices c g2) -> In i (kept_indices c g1)) /\
  (length (kept_indices c g2) <= length (kept_indices c g1))%nat.
Proof.
  intros Hnan Hg. split.
  - intros i Hi. apply In_kept_indices in Hi. destruct Hi as [Hi H2].
    apply In_kept_indices. split; [assumption|].
    now apply local_max_widen with g2.
  - unfold kept_indices. apply filter_length_le_imp.
    intros i Hi H2. apply In_range in Hi. now apply local_max_widen with g2.
Qed.

(** The claim as the specification states it fails: on six samples whose
    smoothed longitude is constant over a scoring window, three scores are
    NaN; with [gamma = 1] no index is kept (rate 1), with [gamma = 2] index 4
    is kept (rate 5/6): the kept set grows and the rate drops. *)
Lemma C7_counterexample :
  let s1 := snd (run pearsonr (jitter_run 1)) in
  let s2 := snd (run pearsonr (jitter_run 2)) in
  fst (run pearsonr (jitter_run 1)) = Ok tt /\
  fst (run pearsonr (jitter_run 2)) = Ok tt /\
  coeff s1 = coeff s2 /\
  simplified_temporal_position s1 = Some [] /\
  simplified_temporal_position s2 = Some [F64.of_Z 4] /\
  fst (compression_rate s1) = Ok F64.one /\
  fst (compression_rate s2) = Ok (rate_of 1 6) /\
  F64.leb F64.one (rate_of 1 6) = false /\
  F64.ltb (rate_of 1 6) F64.one = true.
Proof.
  cbv zeta. repeat split; vm_compute; reflexivity.
Qed.

(** C7, amended.  For a fixed trajectory (of [1 <= n <= 2^53] rows) and fixed
    [alpha] and [beta] whose scores contain no NaN, and for
    [1 <= gamma1 <= gamma2]: both runs complete, the set of indices kept
    under [gamma2] is a subset of the set kept under [gamma1], and the
    compression rate under [gamma2] is [>=] the rate under [gamma1].  With a
    NaN among the scores the built-in [max] depends on the order of the
    window and neither holds. *)
Theorem C7_rate_monotone_in_gamma_without_nan
    (corr : list float -> list float -> result float)
    (sA sB s1 : FastStray) (a b g1 g2 : Z) (c : list float) :
  position sA = position sB ->
  sample_size sA = sample_size sB ->
  sample_size sA = Z.of_nat (length (position sA)) ->
  1 <= sample_size sA <= 2 ^ 53 ->
  dict_get (params sA) "alpha" = Ok a -> dict_get (params sB) "alpha" = Ok a ->
  dict_get (params sA) "beta" = Ok b -> dict_get (params sB) "beta" = Ok b ->
  dict_get (params sA) "gamma" = Ok g1 -> dict_get (params sB) "gamma" = Ok g2 ->
  1 <= g1 <= g2 ->
  bind moving_average (fun _ => update_coeff corr) sA = (Ok tt, s1) ->
  coeff s1 = Some c ->
  nan_free c ->
  exists tA tB rA rB,
    run corr sA = (Ok tt, tA) /\
    run corr sB = (Ok tt, tB) /\
    coeff tA = Some c /\ coeff tB = Some c /\
    simplified_temporal_position tA
      = Some (select (map snd (position sA)) (kept_indices c g1)) /\
    simplified_temporal_position tB
      = Some (select (map snd (position sA)) (kept_indices c g2)) /\
    (forall i, In i (kept_indices c g2) -> In i (kept_indices c g1)) /\
    (length (kept_indices c g2) <= length (kept_indices c g1))%nat /\
    fst (compression_rate tA) = Ok rA /\
    fst (compression_rate tB) = Ok rB /\
    F64.leb rA rB = true.
Proof.
  intros Hpos Hsz Hn Hn1 HaA HaB HbA HbB HgA HgB Hg Hscore Hc Hnan.
  destruct (scoring_ok_inv corr sA s1 Hn Hscore) as (a' & b' & c' & Ha' & Hb' & Hc' & ->).
  rewrite HaA in Ha'. inversion Ha'; subst a'.
  rewrite HbA in Hb'. inversion Hb'; subst b'.
  cbn in Hc. inversion Hc; subst c'. clear Hc Ha' Hb'.
  pose proof (scores_length _ _ _ _ _ Hc') as Hlc.
  rewrite smoothed_length, length_map in Hlc.
  destruct (max_scores_total g1 c ltac:(lia)) as (mcA & HmcA).
  destruct (max_scores_total g2 c ltac:(lia)) as (mcB & HmcB).
  destruct (kept_indices_widen c g1 g2 Hnan Hg) as [Hsub Hlen].
  pose proof (kept_indices_length c g1) as Hk1.
  exists (compressed_state a g1 c mcA sA), (compressed_state a g2 c mcB sB),
    (rate_of (Z.of_nat (length (kept_indices c g1))) (Z.of_nat (length c))),
    (rate_of (Z.of_nat (length (kept_indices c g2))) (Z.of_nat (length c))).
  split; [now apply run_compressed_state with (b := b)|].
  split.
  { apply run_compressed_state with (b := b); try assumption; try lia.
    - now rewrite <- Hsz, <- Hpos.
    - now rewrite <- Hpos. }
  split; [reflexivity|]. split; [reflexivity|]. split; [reflexivity|].
  split; [cbn; now rewrite Hpos|].
  split; [assumption|]. split; [assumption|].
  split; [apply compression_rate_compressed_state; lia|].
  split; [apply compression_rate_compressed_state; rewrite <- ?Hpos; lia|].
  apply rate_of_mono; lia.
Qed.

Lemma C7_rate_monotone_witness :
  exists tA tB rA rB,
    run pearsonr (init (mk_params 2 2 1) (diagonal 8) 8) = (Ok tt, tA) /\
    run pearsonr (init (mk_params 2 2 2) (diagonal 8) 8) = (Ok tt, tB) /\
    fst (compression_rate tA) = Ok rA /\
    fst (compression_rate tB) = Ok rB /\
    F64.leb rA rB = true.
Proof.
  destruct (C7_rate_monotone_in_gamma_without_nan pearsonr
              (init (mk_params 2 2 1) (diagonal 8) 8)
              (init (mk_params 2 2 2) (diagonal 8) 8)
              (snd (bind moving_average (fun _ => update_coeff pearsonr)
                      (init (mk_params 2 2 1) (diagonal 8) 8)))
              2 2 1 2 diagonal_scores)
    as (tA & tB & rA & rB & HA & HB & _ & _ & _ & _ & _ & _ & HrA & HrB & Hle);
    try reflexivity.
  - cbn. lia.
  - lia.
  - intros v Hv. unfold diagonal_scores in Hv. cbn [In] in Hv.
    repeat (destruct Hv as [<-|Hv]; [reflexivity|]). destruct Hv.
  - exists tA, tB, rA, rB. repeat split; assumption.
Defined.

(** * Further properties of the methods *)

(** ** The stages on any object *)

Lemma update_coeff_any corr s :
  update_coeff corr s =
    match dict_get (params s) "beta" with
    | Raise e => (Raise e, s)
    | Ok b =>
        match rmap (score_window corr s) (windows b s) with
        | Ok c => (Ok tt, set_coeff c s)
        | Raise e => (Raise e, s)
        end
    end.
Proof.
  unfold update_coeff. unfold bind at 1. rewrite get_index_run.
  destruct (dict_get (params s) "beta") as [b|e]; cbn [rbind]; [|reflexivity].
  unfold bind at 1.
  rewrite mmap_read_only with (g := score_window corr s).
  - unfold windows. destruct (rmap _ _); reflexivity.
  - intros w _. unfold score_window, sub_spatial_array, sub_temporal_array,
      bind, attr, lift, rbind.
    destruct (filtering_spatial_position s) as [sm|]; [|reflexivity].
    destruct (take_rows sm w); [|reflexivity].
    destruct (filtering_temporal_position s) as [ts|]; [|reflexivity].
    destruct (take ts w); reflexivity.
Qed.

Lemma update_max_coeff_any s :
  update_max_coeff s =
    match dict_get (params s) "gamma" with
    | Raise e => (Raise e, s)
    | Ok g =>
        match rmap (max_window s) (windows g s) with
        | Ok mc => (Ok tt, set_max_coeff mc s)
        | Raise e => (Raise e, s)
        end
    end.
Proof.
  unfold update_max_coeff. unfold bind at 1. rewrite get_index_run.
  destruct (dict_get (params s) "gamma") as [g|e]; cbn [rbind]; [|reflexivity].
  unfold bind at 1.
  rewrite mmap_read_only with (g := max_window s).
  - unfold windows. destruct (rmap _ _); reflexivity.
  - intros w _. unfold max_window, sub_coeff, bind, attr, lift, rbind.
    destruct (coeff s) as [c|]; [|reflexivity].
    destruct (rmap (getitem c) w); reflexivity.
Qed.

Lemma dict_get_raise d k e : dict_get d k = Raise e -> e = KeyError.
Proof.
  induction d as [|[k' v] d IH]; cbn.
  - intros H. now inversion H.
  - destruct (String.eqb k' k); [discriminate | exact IH].
Qed.

Lemma dict_get_missing d k :
  (forall v, ~ In (k, v) d) -> dict_get d k = Raise KeyError.
Proof.
  induction d as [|[k' v] d IH]; intros H; cbn; [reflexivity|].
  destruct (String.eqb_spec k' k) as [->|Hne].
  - elim (H v). now left.
  - apply IH. intros v' Hin. apply (H v'). now right.
Qed.

Lemma dict_get_present d k :
  (exists v, In (k, v) d) -> exists v, dict_get d k = Ok v.
Proof.
  induction d as [|[k' v] d IH]; intros (v0 & Hin); [destruct Hin|].
  cbn. destruct (String.eqb_spec k' k) as [->|Hne]; [eauto|].
  apply IH. exists v0. destruct Hin as [E|Hin]; [inversion E; congruence | exact Hin].
Qed.

(** A completed run, on an object whose [sample_size] is its number of
    rows: the parameters were there, scoring and suppression returned, and
    the object is the compressed state. *)
Lemma run_ok_inv corr s t :
  sample_size s = Z.of_nat (length (position s)) ->
  1 <= sample_size s ->
  run corr s = (Ok tt, t) ->
  exists a b g c mc,
    dict_get (params s) "alpha" = Ok a /\
    dict_get (params s) "beta" = Ok b /\
    dict_get (params s) "gamma" = Ok g /\
    scores corr b (smoothed a (map fst (position s))) (map snd (position s)) = Ok c /\
    max_scores g c = Ok mc /\
    t = compressed_state a g c mc s.
Proof.
  intros Hn H1 Hrun. unfold run in Hrun.
  apply bind_ok_inv in Hrun. destruct Hrun as ([] & sA & Hma & Hrun).
  apply bind_ok_inv in Hrun. destruct Hrun as ([] & sB & Huc & Hrun).
  assert (Hscore : bind moving_average (fun _ => update_coeff corr) s = (Ok tt, sB))
    by (unfold bind; rewrite Hma; exact Huc).
  destruct (scoring_ok_inv corr s sB Hn Hscore) as (a & b & c & Ha & Hb & Hc & ->).
  pose proof (scores_length _ _ _ _ _ Hc) as Hlc.
  rewrite smoothed_length, length_map in Hlc.
  apply bind_ok_inv in Hrun. destruct Hrun as ([] & sC & Hmx & Hst).
  destruct (dict_get (params s) "gamma") as [g|e] eqn:Hg.
  2:{ rewrite update_max_coeff_any in Hmx. cbn [params set_coeff smoothed_state
        set_filtering_temporal_position set_filtering_spatial_position
        set_temporal_position set_spatial_position] in Hmx.
      rewrite Hg in Hmx. discriminate. }
  rewrite update_max_coeff_run with (g := g) (c := c) in Hmx;
    [| reflexivity | cbn; lia | exact Hg].
  destruct (max_scores g c) as [mc|e] eqn:Hmc; [|discriminate].
  inversion Hmx; subst sC.
  exists a, b, g, c, mc. repeat (split; [first [assumption | reflexivity]|]).
  pose proof (run_compressed_state corr s a b g c Hn H1 Ha Hb Hg Hc mc Hmc) as Hfull.
  unfold run in Hfull.
  rewrite bind_ok with (a := tt) (s' := sA) in Hfull by exact Hma.
  rewrite bind_ok with (a := tt) (s' := set_coeff c (smoothed_state a s)) in Hfull
    by exact Huc.
  rewrite bind_ok with (a := tt)
    (s' := set_max_coeff mc (set_coeff c (smoothed_state a s))) in Hfull.
  - rewrite Hst in Hfull. now inversion Hfull.
  - rewrite update_max_coeff_run with (g := g) (c := c);
      [now rewrite Hmc | reflexivity | cbn; lia | exact Hg].
Qed.

(** ** Missing parameters *)

(** X1.  A parameter missing from [params] ends the run in [KeyError] at the
    stage that looks it up: without ["alpha"], [moving_average] raises after
    it has assigned the two column views and before it assigns anything
    smoothed; without ["beta"] (smoothing done) [update_coeff] raises and
    leaves the object as smoothing left it; without ["gamma"] (scoring done)
    [update_max_coeff] raises and the scores stay assigned. *)
Theorem missing_parameter_raises_KeyError
    (corr : list float -> list float -> result float) (s : FastStray) :
  ((forall v, ~ In ("alpha"%string, v) (params s)) ->
     let s1 := set_temporal_position (map snd (position s))
                 (set_spatial_position (map fst (position s)) s) in
     moving_average s = (Raise KeyError, s1) /\
     run corr s = (Raise KeyError, s1) /\
     filtering_spatial_position s1 = filtering_spatial_position s) /\
  (forall s1, (forall v, ~ In ("beta"%string, v) (params s)) ->
     moving_average s = (Ok tt, s1) ->
     update_coeff corr s1 = (Raise KeyError, s1) /\
     run corr s = (Raise KeyError, s1)) /\
  (forall s2, (forall v, ~ In ("gamma"%string, v) (params s)) ->
     bind moving_average (fun _ => update_coeff corr) s = (Ok tt, s2) ->
     update_max_coeff s2 = (Raise KeyError, s2) /\
     run corr s = (Raise KeyError, s2)).
Proof.
  split; [|split].
  - intros Hmiss s1. apply dict_get_missing in Hmiss.
    assert (Hma : moving_average s = (Raise KeyError, s1))
      by (rewrite moving_average_run; cbv zeta; now rewrite Hmiss).
    split; [exact Hma|]. split; [|reflexivity].
    unfold run. now apply bind_raise.
  - intros s1 Hmiss Hma. apply dict_get_missing in Hmiss.
    assert (Hp : params s1 = params s).
    { rewrite moving_average_run in Hma. cbv zeta in Hma.
      destruct (dict_get (params s) "alpha"); [|discriminate].
      destruct (rmap _ _); [|discriminate]. inversion Hma. reflexivity. }
    assert (Huc : update_coeff corr s1 = (Raise KeyError, s1))
      by (rewrite update_coeff_any, Hp, Hmiss; reflexivity).
    split; [exact Huc|].
    unfold run. rewrite bind_ok with (a := tt) (s' := s1) by exact Hma.
    now apply bind_raise.
  - intros s2 Hmiss Hsc. apply dict_get_missing in Hmiss.
    apply bind_ok_inv in Hsc. destruct Hsc as ([] & s1 & Hma & Huc).
    assert (Hp1 : params s1 = params s).
    { rewrite moving_average_run in Hma. cbv zeta in Hma.
      destruct (dict_get (params s) "alpha"); [|discriminate].
      destruct (rmap _ _); [|discriminate]. inversion Hma. reflexivity. }
    assert (Hp2 : params s2 = params s).
    { rewrite update_coeff_any in Huc.
      destruct (dict_get (params s1) "beta"); [|discriminate].
      destruct (rmap _ _); [|discriminate]. inversion Huc. exact Hp1. }
    assert (Hmx : update_max_coeff s2 = (Raise KeyError, s2))
      by (rewrite update_max_coeff_any, Hp2, Hmiss; reflexivity).
    split; [exact Hmx|].
    unfold run. rewrite bind_ok with (a := tt) (s' := s1) by exact Hma.
    rewrite bind_ok with (a := tt) (s' := s2) by exact Huc.
    now apply bind_raise.
Qed.

Lemma missing_parameter_witness :
  let s := init [("beta"%string, 2); ("gamma"%string, 2)] (diagonal 3) 3 in
  fst (run pearsonr s) = Raise KeyError /\
  temporal_position (snd (run pearsonr s)) = Some (map snd (diagonal 3)) /\
  filtering_spatial_position (snd (run pearsonr s)) = None.
Proof.
  intros s.
  destruct (missing_parameter_raises_KeyError pearsonr s) as (H & _ & _).
  destruct H as (_ & Hrun & Hf).
  - intros v [E|[E|[]]]; discriminate.
  - rewrite Hrun. repeat split.
Defined.

(** ** A [sample_size] that is not the number of rows *)

Lemma getitem_ok_or_IndexError {A} (l : list A) (i : Z) :
  (exists x, getitem l i = Ok x) \/ getitem l i = Raise IndexError.
Proof.
  unfold getitem.
  destruct ((0 <=? i) && (i <? Z.of_nat (length l))).
  - destruct (nth_error l (Z.to_nat i)); [left; eauto | now right].
  - destruct ((- Z.of_nat (length l) <=? i) && (i <? 0)); [|now right].
    destruct (nth_error l (Z.to_nat (i + Z.of_nat (length l))));
      [left; eauto | now right].
Qed.

Lemma take_ok_or_IndexError {A} (l : list A) (idx : list Z) :
  (exists rows, take l idx = Ok rows) \/ take l idx = Raise IndexError.
Proof.
  unfold take. induction idx as [|i idx IH]; cbn [rmap]; [left; eauto|].
  destruct (getitem_ok_or_IndexError l i) as [(x & ->)| ->]; [|now right].
  destruct IH as [(rows & ->)| ->]; [left; eauto | now right].
Qed.

Lemma take_out_of_range {A} (l : list A) (idx : list Z) i :
  In i idx -> Z.of_nat (length l) <= i -> take l idx = Raise IndexError.
Proof.
  unfold take. induction idx as [|j idx IH]; intros Hin Hi; [destruct Hin|].
  cbn [rmap]. destruct (getitem_ok_or_IndexError l j) as [(x & Ej)|Ej]; rewrite Ej.
  - destruct Hin as [->|Hin].
    + rewrite getitem_out_of_range in Ej by assumption. discriminate.
    + now rewrite IH.
  - reflexivity.
Qed.

Lemma rmap_first_raise {A B} (f : A -> result B) (l : list A) e :
  (forall a, In a l -> (exists b, f a = Ok b) \/ f a = Raise e) ->
  (exists a, In a l /\ f a = Raise e) ->
  rmap f l = Raise e.
Proof.
  induction l as [|x l IH]; intros Hall (a & Hin & Ha); [destruct Hin|].
  cbn [rmap]. destruct (Hall x (or_introl eq_refl)) as [(b & Hb)|Hb]; rewrite Hb;
    [|reflexivity].
  destruct Hin as [->|Hin]; [congruence|].
  rewrite IH; [reflexivity | intros y Hy; apply Hall; now right | eauto].
Qed.

(** X2.  When [sample_size] exceeds the number of rows of [position] (as the
    class-level default of 1000 does for a shorter trajectory) and
    [alpha >= 1], [moving_average] raises [IndexError]: the window of the
    index just past the last row reaches a row that is not there.  The two
    column views are assigned, nothing smoothed is. *)
Theorem oversized_sample_size_raises_IndexError (s : FastStray) (a : Z) :
  Z.of_nat (length (position s)) < sample_size s ->
  dict_get (params s) "alpha" = Ok a ->
  1 <= a ->
  let s1 := set_temporal_position (map snd (position s))
              (set_spatial_position (map fst (position s)) s) in
  moving_average s = (Raise IndexError, s1) /\
  (forall corr, run corr s = (Raise IndexError, s1)).
Proof.
  intros Hbig Ha Ha1 s1.
  assert (Hma : moving_average s = (Raise IndexError, s1)).
  { rewrite moving_average_run. cbv zeta. rewrite Ha.
    rewrite rmap_first_raise with (e := IndexError); [reflexivity | |].
    - intros i _.
      destruct (take_ok_or_IndexError (map fst (position s))
                  (get_params_idx i a (sample_size s))) as [(rows & ->)| ->];
        cbn; eauto.
    - exists (Z.of_nat (length (position s))). split; [apply In_range; lia|].
      rewrite take_out_of_range with (i := Z.of_nat (length (position s))).
      + reflexivity.
      + apply In_get_params_idx. lia.
      + rewrite length_map. lia. }
  split; [exact Hma|]. intros corr. unfold run. now apply bind_raise.
Qed.

Lemma oversized_sample_size_witness :
  fst (run pearsonr oversized_run) = Raise IndexError.
Proof.
  destruct (oversized_sample_size_raises_IndexError oversized_run 1) as [_ H];
    [change (3 < 5); lia | reflexivity | lia |].
  now rewrite H.
Defined.

Lemma take_window_clipped {A} (l : list A) (i w n : Z) :
  n <= Z.of_nat (length l) ->
  take l (get_params_idx i w n) = Ok (slice (Z.max 0 (i - w)) (Z.min (i + w) n) l).
Proof. intros Hn. unfold get_params_idx. apply take_arange; lia. Qed.

(** X3.  When [sample_size] is at most the number of rows, [moving_average]
    returns normally but smooths only the first [sample_size] rows, with
    windows clipped at [sample_size] and not at the end of the trajectory;
    the temporal sequence that goes with them keeps every row. *)
Theorem undersized_sample_size_smooths_a_prefix (s : FastStray) (a : Z) :
  sample_size s <= Z.of_nat (length (position s)) ->
  dict_get (params s) "alpha" = Ok a ->
  let N := sample_size s in
  let sp := map fst (position s) in
  exists s' sm,
    moving_average s = (Ok tt, s') /\
    filtering_spatial_position s' = Some sm /\
    Z.of_nat (length sm) = Z.max 0 N /\
    (forall i, 0 <= i < N ->
       nth_error sm (Z.to_nat i)
         = Some (mean_axis0 (slice (Z.max 0 (i - a)) (Z.min (i + a) N) sp))) /\
    filtering_temporal_position s' = Some (map snd (position s)).
Proof.
  intros Hn Ha N sp.
  set (f := fun i => mean_axis0 (slice (Z.max 0 (i - a)) (Z.min (i + a) N) sp)).
  assert (Hmap : rmap (fun i => rbind (take sp (get_params_idx i a N))
                                  (fun rows => Ok (mean_axis0 rows))) (range N)
                 = Ok (map f (range N))).
  { apply rmap_ok_map. intros i _.
    rewrite take_window_clipped by (subst sp N; rewrite length_map; lia).
    reflexivity. }
  eexists. exists (map f (range N)). split.
  - rewrite moving_average_run. cbv zeta. rewrite Ha. fold sp N.
    rewrite Hmap. reflexivity.
  - split; [reflexivity|]. split; [rewrite length_map, range_length; lia|].
    split; [|reflexivity].
    intros i Hi. rewrite (nth_error_map_range f N i Hi). reflexivity.
Qed.

Lemma undersized_sample_size_witness :
  exists s' sm,
    moving_average undersized_run = (Ok tt, s') /\
    filtering_spatial_position s' = Some sm /\
    Z.of_nat (length sm) = 2 /\
    filtering_temporal_position s' = Some (map snd (diagonal 3)).
Proof.
  destruct (undersized_sample_size_smooths_a_prefix undersized_run 1)
    as (s' & sm & Hrun & Hsm & Hlen & _ & Hts);
    [change (2 <= 3); lia | reflexivity |].
  exists s', sm. repeat split; assumption.
Defined.

(** ** The shape of a window *)

(** X4.  For a centre in [[0, n)], the window is empty exactly when the
    half-width is [<= 0]; with a half-width [h >= 1] it contains the centre,
    reaches [h] rows below it and only [h - 1] above, has at most [2 * h]
    entries, and exactly [2 * h] away from both ends of the sequence. *)
Theorem window_size_and_emptiness (c h n : Z) :
  0 <= c < n ->
  (get_params_idx c h n = [] <-> h <= 0) /\
  (1 <= h ->
     In c (get_params_idx c h n) /\
     (In (c - h) (get_params_idx c h n) <-> h <= c) /\
     (In (c + h - 1) (get_params_idx c h n) <-> c + h <= n) /\
     ~ In (c + h) (get_params_idx c h n) /\
     Z.of_nat (length (get_params_idx c h n)) <= 2 * h /\
     (h <= c -> c + h <= n ->
        Z.of_nat (length (get_params_idx c h n)) = 2 * h)).
Proof.
  intros Hc. split.
  - split.
    + intros E. destruct (Z_le_gt_dec h 0) as [H|H]; [exact H|]. exfalso.
      assert (Hin : In c (get_params_idx c h n)) by (apply In_get_params_idx; lia).
      rewrite E in Hin. exact Hin.
    + intros H. unfold get_params_idx. apply arange_empty. lia.
  - intros Hh. rewrite !In_get_params_idx.
    unfold get_params_idx. rewrite arange_length.
    repeat split; intros; lia.
Qed.

Lemma window_size_witness :
  In 5 (get_params_idx 5 3 100) /\
  Z.of_nat (length (get_params_idx 5 3 100)) = 6.
Proof.
  destruct (window_size_and_emptiness 5 3 100) as [_ H]; [lia|].
  destruct (H ltac:(lia)) as (Hin & _ & _ & _ & _ & Hlen).
  split; [exact Hin | apply Hlen; lia].
Defined.

(** X5.  Windows grow with the half-width and with the length: every index
    of [window(c, h1, n1)] is an index of [window(c, h2, n2)] when
    [h1 <= h2] and [n1 <= n2]. *)
Theorem window_grows_with_half_width (c h1 h2 n1 n2 j : Z) :
  h1 <= h2 -> n1 <= n2 ->
  In j (get_params_idx c h1 n1) -> In j (get_params_idx c h2 n2).
Proof. intros Hh Hn. rewrite !In_get_params_idx. lia. Qed.

Lemma window_grows_witness : In 4 (get_params_idx 5 3 100).
Proof.
  apply (window_grows_with_half_width 5 2 3 10 100 4); [lia | lia |].
  apply In_get_params_idx. lia.
Defined.

(** ** A suppression half-width that is not positive *)

Lemma window_nonpositive_empty {A} (l : list A) i g : g <= 0 -> window i g l = [].
Proof.
  intros Hg. unfold window, slice, window_lo, window_hi.
  replace (Z.to_nat _) with 0%nat by lia. reflexivity.
Qed.

Lemma range_cons n : 1 <= n -> range n = 0 :: arange 1 n.
Proof. intros Hn. unfold range. now rewrite arange_cons by lia. Qed.

Lemma max_scores_nonpositive g c :
  g <= 0 -> (1 <= length c)%nat -> max_scores g c = Raise ValueError.
Proof.
  intros Hg Hc. unfold max_scores. rewrite range_cons by lia. cbn [rmap].
  now rewrite window_nonpositive_empty.
Qed.

(** X6.  With [gamma <= 0] every suppression window is empty and the
    built-in [max] of no item raises: on a trajectory of [n >= 1] rows whose
    scoring has returned, [update_max_coeff] raises [ValueError], so does
    [run], and the object is left as scoring left it, with its scores and no
    window maxima. *)
Theorem nonpositive_gamma_raises_ValueError
    (corr : list float -> list float -> result float)
    (s s1 : FastStray) (g : Z) :
  sample_size s = Z.of_nat (length (position s)) ->
  1 <= sample_size s ->
  dict_get (params s) "gamma" = Ok g ->
  g <= 0 ->
  bind moving_average (fun _ => update_coeff corr) s = (Ok tt, s1) ->
  update_max_coeff s1 = (Raise ValueError, s1) /\
  run corr s = (Raise ValueError, s1) /\
  (exists c, coeff s1 = Some c) /\
  max_coeff s1 = max_coeff s.
Proof.
  intros Hn H1 Hg Hg0 Hscore.
  destruct (scoring_ok_inv corr s s1 Hn Hscore) as (a & b & c & Ha & Hb & Hc & ->).
  pose proof (scores_length _ _ _ _ _ Hc) as Hlc.
  rewrite smoothed_length, length_map in Hlc.
  assert (Hmx : update_max_coeff (set_coeff c (smoothed_state a s))
                = (Raise ValueError, set_coeff c (smoothed_state a s))).
  { rewrite update_max_coeff_run with (g := g) (c := c);
      [| reflexivity | cbn; lia | exact Hg].
    rewrite max_scores_nonpositive by lia. reflexivity. }
  split; [exact Hmx|]. split; [|split; [now exists c | reflexivity]].
  apply bind_ok_inv in Hscore. destruct Hscore as ([] & sA & Hma & Huc).
  unfold run. rewrite bind_ok with (a := tt) (s' := sA) by exact Hma.
  rewrite bind_ok with (a := tt) (s' := set_coeff c (smoothed_state a s)) by exact Huc.
  now apply bind_raise.
Qed.

Lemma nonpositive_gamma_witness :
  fst (run pearsonr (init (mk_params 2 2 0) (diagonal 8) 8)) = Raise ValueError.
Proof.
  destruct (nonpositive_gamma_raises_ValueError pearsonr
              (init (mk_params 2 2 0) (diagonal 8) 8)
              (snd (bind moving_average (fun _ => update_coeff pearsonr)
                      (init (mk_params 2 2 0) (diagonal 8) 8))) 0)
    as (_ & Hrun & _);
    [reflexivity | change (1 <= 8); lia | reflexivity | lia
    | vm_compute; reflexivity |].
  now rewrite Hrun.
Defined.

(** ** Calling the stages out of order *)

Lemma windows_cons v s :
  1 <= sample_size s ->
  windows v s = get_params_idx 0 v (sample_size s)
                :: map (fun i => get_params_idx i v (sample_size s))
                       (arange 1 (sample_size s)).
Proof. intros H. unfold windows. now rewrite range_cons. Qed.

(** X7.  Each stage reads what the stage before it assigned: on an object
    with at least one window, [update_coeff] before [moving_average],
    [update_max_coeff] before [update_coeff], [simplified_trajectory] before
    [update_max_coeff] and [compression_rate] before
    [simplified_trajectory] raise [AttributeError] and leave the object
    unchanged. *)
Theorem stage_before_its_predecessor_raises_AttributeError
    (corr : list float -> list float -> result float) (s : FastStray) :
  (forall b, 1 <= sample_size s -> dict_get (params s) "beta" = Ok b ->
     filtering_spatial_position s = None ->
     update_coeff corr s = (Raise AttributeError, s)) /\
  (forall g, 1 <= sample_size s -> dict_get (params s) "gamma" = Ok g ->
     coeff s = None ->
     update_max_coeff s = (Raise AttributeError, s)) /\
  (max_coeff s = None -> simplified_trajectory s = (Raise AttributeError, s)) /\
  (simplified_temporal_position s = None ->
     compression_rate s = (Raise AttributeError, s)).
Proof.
  split; [|split; [|split]].
  - intros b H1 Hb Hnone. rewrite update_coeff_any, Hb, windows_cons by assumption.
    cbn [rmap]. unfold score_window at 1. now rewrite Hnone.
  - intros g H1 Hg Hnone. rewrite update_max_coeff_any, Hg, windows_cons by assumption.
    cbn [rmap]. unfold max_window at 1. now rewrite Hnone.
  - intros Hnone. unfold simplified_trajectory, bind, attr. now rewrite Hnone.
  - intros Hnone. unfold compression_rate, bind, attr. now rewrite Hnone.
Qed.

Lemma stage_order_witness :
  update_coeff pearsonr diagonal_run = (Raise AttributeError, diagonal_run) /\
  update_max_coeff diagonal_run = (Raise AttributeError, diagonal_run).
Proof.
  destruct (stage_before_its_predecessor_raises_AttributeError pearsonr diagonal_run)
    as (Huc & Hmx & _ & _).
  split.
  - apply (Huc 2); [change (1 <= 8); lia | reflexivity | reflexivity].
  - apply (Hmx 2); [change (1 <= 8); lia | reflexivity | reflexivity].
Defined.

(** ** A [sample_size] that is not positive *)

Lemma range_nonpositive n : n <= 0 -> range n = [].
Proof. intros H. unfold range. apply arange_empty. lia. Qed.

(** X8.  With a [sample_size <= 0] there is no window at all: whatever the
    trajectory and the correlation routine, smoothing, scoring and
    suppression return with empty results, and [run] ends in [IndexError]
    only at the selection, which indexes a smoothed array that has no
    second axis.  The compressed trajectory is never assigned. *)
Theorem nonpositive_sample_size_raises_at_selection
    (corr : list float -> list float -> result float)
    (s : FastStray) (a b g : Z) :
  sample_size s <= 0 ->
  dict_get (params s) "alpha" = Ok a ->
  dict_get (params s) "beta" = Ok b ->
  dict_get (params s) "gamma" = Ok g ->
  exists s',
    run corr s = (Raise IndexError, s') /\
    filtering_spatial_position s' = Some [] /\
    filtering_temporal_position s' = Some (map snd (position s)) /\
    coeff s' = Some [] /\
    max_coeff s' = Some [] /\
    simplified_spatial_position s' = simplified_spatial_position s /\
    simplified_temporal_position s' = simplified_temporal_position s.
Proof.
  intros Hn Ha Hb Hg.
  set (sA := set_filtering_temporal_position (map snd (position s))
               (set_filtering_spatial_position []
                  (set_temporal_position (map snd (position s))
                     (set_spatial_position (map fst (position s)) s)))).
  assert (Hma : moving_average s = (Ok tt, sA)).
  { rewrite moving_average_run. cbv zeta. rewrite Ha.
    rewrite range_nonpositive by assumption. reflexivity. }
  assert (Huc : update_coeff corr sA = (Ok tt, set_coeff [] sA)).
  { rewrite update_coeff_any. cbn [params sA set_filtering_temporal_position
      set_filtering_spatial_position set_temporal_position set_spatial_position].
    rewrite Hb. unfold windows. cbn [sample_size].
    rewrite range_nonpositive by assumption. reflexivity. }
  assert (Hmx : update_max_coeff (set_coeff [] sA)
                = (Ok tt, set_max_coeff [] (set_coeff [] sA))).
  { rewrite update_max_coeff_any. cbn [params set_coeff sA
      set_filtering_temporal_position set_filtering_spatial_position
      set_temporal_position set_spatial_position].
    rewrite Hg. unfold windows. cbn [sample_size].
    rewrite range_nonpositive by assumption. reflexivity. }
  exists (set_max_coeff [] (set_coeff [] sA)).
  split; [|repeat split].
  unfold run.
  rewrite bind_ok with (a := tt) (s' := sA) by exact Hma.
  rewrite bind_ok with (a := tt) (s' := set_coeff [] sA) by exact Huc.
  rewrite bind_ok with (a := tt) (s' := set_max_coeff [] (set_coeff [] sA)) by exact Hmx.
  reflexivity.
Qed.

Lemma nonpositive_sample_size_witness :
  fst (run pearsonr (init (mk_params 1 2 1) (diagonal 3) 0)) = Raise IndexError.
Proof.
  destruct (nonpositive_sample_size_raises_at_selection pearsonr
              (init (mk_params 1 2 1) (diagonal 3) 0) 1 2 1)
    as (s' & Hrun & _); [cbn; lia | reflexivity | reflexivity | reflexivity |].
  now rewrite Hrun.
Defined.

(** ** What a stage changes *)

(** X9.  [update_coeff] and [update_max_coeff] assign their attribute last:
    when they raise, the object is exactly as it was; when they return,
    nothing but [coeff] (for the one) or [max_coeff] (for the other) has
    changed.  [compression_rate] never changes the object. *)
Theorem stages_assign_only_their_attribute
    (corr : list float -> list float -> result float) (s s' : FastStray) :
  (forall e, update_coeff corr s = (Raise e, s') -> s' = s) /\
  (update_coeff corr s = (Ok tt, s') -> exists c, s' = set_coeff c s) /\
  (forall e, update_max_coeff s = (Raise e, s') -> s' = s) /\
  (update_max_coeff s = (Ok tt, s') -> exists mc, s' = set_max_coeff mc s) /\
  (forall r, compression_rate s = (r, s') -> s' = s).
Proof.
  split; [|split; [|split; [|split]]].
  - intros e. rewrite update_coeff_any.
    destruct (dict_get (params s) "beta"); [|now inversion 1].
    destruct (rmap _ _); [discriminate | now inversion 1].
  - rewrite update_coeff_any.
    destruct (dict_get (params s) "beta"); [|discriminate].
    destruct (rmap _ _) as [c|]; [|discriminate]. inversion 1. now exists c.
  - intros e. rewrite update_max_coeff_any.
    destruct (dict_get (params s) "gamma"); [|now inversion 1].
    destruct (rmap _ _); [discriminate | now inversion 1].
  - rewrite update_max_coeff_any.
    destruct (dict_get (params s) "gamma"); [|discriminate].
    destruct (rmap _ _) as [mc|]; [|discriminate]. inversion 1. now exists mc.
  - intros r. unfold compression_rate, bind, attr, lift, ret.
    destruct (simplified_temporal_position s); [|now inversion 1].
    destruct (temporal_position s); [|now inversion 1].
    destruct (int_truediv _ _); now inversion 1.
Qed.

Lemma stages_assign_witness :
  snd (update_coeff pearsonr (init (mk_params 1 1 1) (diagonal 3) 3))
    = init (mk_params 1 1 1) (diagonal 3) 3.
Proof.
  destruct (stages_assign_only_their_attribute pearsonr
              (init (mk_params 1 1 1) (diagonal 3) 3)
              (snd (update_coeff pearsonr (init (mk_params 1 1 1) (diagonal 3) 3))))
    as (H & _).
  apply (H AttributeError). vm_compute. reflexivity.
Defined.

(** ** NaN scores and the selection *)

Lemma fold_max_nan r x :
  F64.is_nan x = true ->
  fold_left (fun cur y => if F64.gtb y cur then y else cur) r x = x.
Proof.
  intros Hx. apply is_nan_eq in Hx. subst x.
  induction r as [|y r IH]; cbn [fold_left]; [reflexivity|].
  assert (E : F64.gtb y F64.nan = false) by reflexivity.
  rewrite E. exact IH.
Qed.

Lemma window_nonempty_first (c : list float) i g :
  1 <= g -> 0 <= i < Z.of_nat (length c) ->
  exists r, window i g c = at_index c (Z.max 0 (i - g)) :: r.
Proof.
  intros Hg Hi. rewrite window_map. unfold get_params_idx.
  rewrite arange_cons by lia. cbn [map]. eauto.
Qed.

Lemma local_max_not_nan c g i :
  1 <= g -> 0 <= i < Z.of_nat (length c) ->
  local_max c g i = true ->
  F64.is_nan (at_index c i) = false /\
  F64.is_nan (at_index c (Z.max 0 (i - g))) = false.
Proof.
  intros Hg Hi H. unfold local_max in H.
  destruct (window_nonempty_first c i g Hg Hi) as (r & Hw). rewrite Hw in H.
  cbn [py_max] in H. pose proof (eqb_not_nan _ _ H) as [Hm Hci].
  split; [exact Hci|].
  destruct (F64.is_nan (at_index c (Z.max 0 (i - g)))) eqn:E; [|reflexivity].
  rewrite (fold_max_nan r _ E) in Hm. congruence.
Qed.

(** X10.  After a completed run no kept index has a NaN score, and none has
    a window whose first score (the one at [max(0, i - gamma)]) is NaN: the
    built-in [max] of such a window is that NaN, which compares equal to
    nothing. *)
Theorem nan_scores_are_never_kept
    (corr : list float -> list float -> result float)
    (s t : FastStray) (g : Z) (c : list float) :
  sample_size s = Z.of_nat (length (position s)) ->
  1 <= sample_size s ->
  run corr s = (Ok tt, t) ->
  dict_get (params s) "gamma" = Ok g ->
  coeff t = Some c ->
  simplified_temporal_position t
    = Some (select (map snd (position s)) (kept_indices c g)) /\
  forall i, In i (kept_indices c g) ->
    F64.is_nan (at_index c i) = false /\
    F64.is_nan (at_index c (Z.max 0 (i - g))) = false.
Proof.
  intros Hn H1 Hrun Hg Hc.
  destruct (run_ok_inv corr s t Hn H1 Hrun)
    as (a & b & g' & c' & mc & Ha & Hb & Hg' & Hc' & Hmc & ->).
  rewrite Hg in Hg'. inversion Hg'; subst g'.
  cbn in Hc. inversion Hc; subst c'.
  split; [reflexivity|].
  intros i Hi. apply In_kept_indices in Hi. destruct Hi as [Hi Hlm].
  apply local_max_not_nan; try assumption.
  destruct (Z_le_gt_dec 1 g) as [H|H]; [exact H|]. exfalso.
  pose proof (scores_length _ _ _ _ _ Hc') as Hlc.
  rewrite smoothed_length, length_map in Hlc.
  rewrite max_scores_nonpositive in Hmc by lia. discriminate.
Qed.

Lemma nan_scores_witness :
  In 2 (kept_indices diagonal_scores 2) /\
  F64.is_nan (at_index diagonal_scores 2) = false /\
  F64.is_nan (at_index diagonal_scores (Z.max 0 (2 - 2))) = false.
Proof.
  assert (Hi : In 2 (kept_indices diagonal_scores 2))
    by (vm_compute; left; reflexivity).
  split; [exact Hi|].
  destruct (nan_scores_are_never_kept pearsonr diagonal_run
              (snd (run pearsonr diagonal_run)) 2 diagonal_scores)
    as [_ H];
    [reflexivity | change (1 <= 8); lia | vm_compute; reflexivity
    | reflexivity | vm_compute; reflexivity |].
  exact (H 2 Hi).
Defined.

(** ** The kept indices, NaN scores included *)

Lemma gtb_nan_l x y : F64.is_nan y = true -> F64.gtb y x = false.
Proof.
  intros Hy. apply is_nan_eq in Hy. subst y. destruct x; reflexivity.
Qed.

(** The built-in [max] of a sequence whose first item is a number: NaN
    items further on are passed over, and the result is the greatest of the
    items that are numbers. *)
Lemma fold_max_skip_nan r : forall x,
  F64.is_nan x = false ->
  let m := fold_left (fun cur y => if F64.gtb y cur then y else cur) r x in
  F64.is_nan m = false /\ (m = x \/ In m r) /\ F64.leb x m = true /\
  forall v, In v r -> F64.is_nan v = false -> F64.leb v m = true.
Proof.
  induction r as [|y r IH]; intros x Hx; cbn [fold_left]; cbv zeta.
  - split; [assumption|]. split; [now left|]. split; [now apply leb_refl|].
    intros v [].
  - destruct (F64.is_nan y) eqn:Hy.
    + rewrite (gtb_nan_l x y Hy).
      destruct (IH x Hx) as (Hm & Hin & Hxm & Hall).
      split; [assumption|]. split; [destruct Hin; [now left | right; now right]|].
      split; [assumption|].
      intros v [<-|Hv] Hnv; [congruence | now apply Hall].
    + rewrite (gtb_leb y x Hy Hx).
      destruct (F64.leb y x) eqn:L; cbn [negb].
      * destruct (IH x Hx) as (Hm & Hin & Hxm & Hall).
        split; [assumption|]. split; [destruct Hin; [now left | right; now right]|].
        split; [assumption|].
        intros v [<-|Hv] Hnv; [now apply leb_trans with x | now apply Hall].
      * destruct (IH y Hy) as (Hm & Hin & Hym & Hall).
        assert (Hxy : F64.leb x y = true)
          by (destruct (leb_total x y Hx Hy); congruence).
        split; [assumption|].
        split; [right; destruct Hin as [->|Hin]; [now left | now right]|].
        split; [now apply leb_trans with y|].
        intros v [<-|Hv] Hnv; [assumption | now apply Hall].
Qed.

(** The test of the suppression pass, without the built-in [max]: the
    first score of the window and the score of the index are numbers, and no
    number of the window is greater than the score of the index. *)
Lemma local_max_iff c g i :
  1 <= g -> 0 <= i < Z.of_nat (length c) ->
  local_max c g i = true <->
  F64.is_nan (at_index c (Z.max 0 (i - g))) = false /\
  F64.is_nan (at_index c i) = false /\
  forall j, Z.max 0 (i - g) <= j < Z.min (i + g) (Z.of_nat (length c)) ->
    F64.is_nan (at_index c j) = false ->
    F64.leb (at_index c j) (at_index c i) = true.
Proof.
  intros Hg Hi.
  destruct (window_nonempty_first c i g Hg Hi) as (r & Hw).
  pose proof (centre_in_window c i g Hg Hi) as Hcentre.
  split.
  - intros Hlm.
    destruct (local_max_not_nan c g i Hg Hi Hlm) as [Hni Hnf].
    split; [assumption|]. split; [assumption|].
    intros j Hj Hnj.
    unfold local_max in Hlm. rewrite Hw in Hlm. cbn [py_max] in Hlm.
    destruct (fold_max_skip_nan r _ Hnf) as (_ & _ & Hfm & Hall).
    apply eqb_leb in Hlm. destruct Hlm as [Hmi _].
    assert (Hin : In (at_index c j) (window i g c))
      by (apply In_window; exists j; split; [lia | reflexivity]).
    rewrite Hw in Hin. destruct Hin as [E|Hin].
    + rewrite <- E. eapply leb_trans; eassumption.
    + eapply leb_trans; [now apply Hall | assumption].
  - intros (Hnf & Hni & Hall).
    unfold local_max. rewrite Hw. cbn [py_max].
    destruct (fold_max_skip_nan r _ Hnf) as (Hm & Hin & Hfm & Hup).
    set (m := fold_left _ r _) in *.
    apply leb_antisym.
    + assert (Hmw : In m (window i g c))
        by (rewrite Hw; destruct Hin as [->|Hin]; [now left | now right]).
      apply In_window in Hmw. destruct Hmw as (j & Hj & Ej).
      rewrite Ej. apply Hall; [lia | now rewrite <- Ej].
    + rewrite Hw in Hcentre. destruct Hcentre as [E|Hc].
      * now rewrite <- E.
      * now apply Hup.
Qed.

(** The claim as the specification states it fails, whichever way "the
    maximum of the window" is read when a score is NaN.  On the jitter
    trajectory the scores at 0, 1 and 3 are NaN.  With [gamma = 1] the
    window of index 2 is [[nan; 3.33]]: the score of index 2 is in it and no
    score of the window is greater, yet index 2 is not kept (nothing is).
    With [gamma = 2] the window of index 4 is [[3.33; nan; 4.17; 2.33]]:
    index 4 is kept (it is the one row of the output), yet its score is not
    [>=] every score of its window.  With [gamma = 0] every window is empty
    and there is no compressed trajectory at all: the run raises. *)
Lemma C1_counterexample :
  let s0 := snd (run pearsonr (jitter_run 0)) in
  let s1 := snd (run pearsonr (jitter_run 1)) in
  let s2 := snd (run pearsonr (jitter_run 2)) in
  fst (run pearsonr (jitter_run 1)) = Ok tt /\
  fst (run pearsonr (jitter_run 2)) = Ok tt /\
  coeff s1 = Some jitter_scores /\
  coeff s2 = Some jitter_scores /\
  window 2 1 jitter_scores = [F64.nan; at_index jitter_scores 2] /\
  unsurpassed (at_index jitter_scores 2) (window 2 1 jitter_scores) /\
  simplified_temporal_position s1 = Some [] /\
  simplified_spatial_position s1 = Some [] /\
  nth_error (map snd jitter) 4 = Some (F64.of_Z 4) /\
  simplified_temporal_position s2 = Some [F64.of_Z 4] /\
  In F64.nan (window 4 2 jitter_scores) /\
  ~ greatest_of (at_index jitter_scores 4) (window 4 2 jitter_scores) /\
  fst (run pearsonr (jitter_run 0)) = Raise ValueError /\
  simplified_temporal_position s0 = None.
Proof.
  cbv zeta.
  assert (Hnan : In F64.nan (window 4 2 jitter_scores))
    by (vm_compute; right; left; reflexivity).
  split; [vm_compute; reflexivity|]. split; [vm_compute; reflexivity|].
  split; [vm_compute; reflexivity|]. split; [vm_compute; reflexivity|].
  split; [vm_compute; reflexivity|].
  split.
  { split.
    - vm_compute. right. left. reflexivity.
    - intros v Hv. vm_compute in Hv.
      destruct Hv as [<-|[<-|[]]]; vm_compute; reflexivity. }
  split; [vm_compute; reflexivity|]. split; [vm_compute; reflexivity|].
  split; [vm_compute; reflexivity|]. split; [vm_compute; reflexivity|].
  split; [exact Hnan|].
  split.
  { intros [_ Hall]. specialize (Hall F64.nan Hnan). vm_compute in Hall.
    discriminate. }
  split; vm_compute; reflexivity.
Qed.

(** C1, amended.  On a trajectory of [n >= 1] rows with [gamma >= 1], once
    smoothing and scoring have returned, the rest of [run] returns too, and
    the compressed trajectory is the subsequence of the smoothed rows, paired
    with the original timestamps, at the kept indices in ascending order.
    Index [i] is kept iff the first score of its window (the one at
    [max(0, i - gamma)]) is not NaN, [score[i]] is not NaN, and [score[i]]
    is [>=] every score of [window(i, gamma, n)] that is not NaN.  So for an
    index whose window holds no NaN: it is kept iff [score[i]] is the
    greatest score of the window, every index that ties for it included. *)
Theorem C1_kept_iff_window_maximum_without_nan
    (corr : list float -> list float -> result float) (s0 s1 : FastStray) (g : Z) :
  sample_size s0 = Z.of_nat (length (position s0)) ->
  1 <= sample_size s0 ->
  dict_get (params s0) "gamma" = Ok g ->
  1 <= g ->
  bind moving_average (fun _ => update_coeff corr) s0 = (Ok tt, s1) ->
  let n := sample_size s0 in
  exists s2 a sm ts c idx,
    run corr s0 = (Ok tt, s2) /\
    dict_get (params s0) "alpha" = Ok a /\
    sm = smoothed a (map fst (position s0)) /\
    ts = map snd (position s0) /\
    filtering_spatial_position s2 = Some sm /\
    filtering_temporal_position s2 = Some ts /\
    coeff s1 = Some c /\
    coeff s2 = Some c /\
    Z.of_nat (length c) = n /\
    simplified_spatial_position s2 = Some (select sm idx) /\
    simplified_temporal_position s2 = Some (select ts idx) /\
    StronglySorted Z.lt idx /\
    (forall i, In i idx -> 0 <= i < n) /\
    length (select sm idx) = length idx /\
    length (select ts idx) = length idx /\
    (forall i, 0 <= i < n ->
       (In i idx <->
        F64.is_nan (at_index c (Z.max 0 (i - g))) = false /\
        F64.is_nan (at_index c i) = false /\
        forall j, Z.max 0 (i - g) <= j < Z.min (i + g) n ->
          F64.is_nan (at_index c j) = false ->
          F64.leb (at_index c j) (at_index c i) = true)) /\
    (forall i, 0 <= i < n ->
       nan_free (window i g c) ->
       (In i idx <-> greatest_of (at_index c i) (window i g c))).
Proof.
  intros Hn H1 Hg Hg1 Hscore n.
  destruct (scoring_ok_inv corr s0 s1 Hn Hscore) as (a & b & c & Ha & Hb & Hc & ->).
  destruct (max_scores_total g c Hg1) as (mc & Hmc).
  pose proof (scores_length _ _ _ _ _ Hc) as Hlc.
  rewrite smoothed_length, length_map in Hlc.
  assert (Hlen : Z.of_nat (length c) = n) by (subst n; lia).
  assert (Hrange : forall i, In i (kept_indices c g) -> 0 <= i < n)
    by (intros i Hi; apply kept_indices_in_range in Hi; lia).
  exists (compressed_state a g c mc s0), a,
    (smoothed a (map fst (position s0))), (map snd (position s0)), c,
    (kept_indices c g).
  split; [now apply run_compressed_state with (b := b)|].
  do 8 (split; [first [assumption | reflexivity]|]).
  split; [reflexivity|]. split; [reflexivity|].
  split; [apply kept_indices_sorted|].
  split; [exact Hrange|].
  split; [apply select_length; intros i Hi; apply Hrange in Hi;
          rewrite smoothed_length, length_map; lia|].
  split; [apply select_length; intros i Hi; apply Hrange in Hi;
          rewrite length_map; lia|].
  split.
  - intros i Hi. rewrite In_kept_indices, Hlen.
    rewrite (local_max_iff c g i Hg1) by lia. rewrite Hlen. tauto.
  - intros i Hi Hnan. rewrite In_kept_indices, Hlen.
    rewrite <- (local_max_greatest c g i Hg1) by (assumption || lia).
    tauto.
Qed.

Lemma C1_kept_witness :
  exists s2 idx,
    run pearsonr diagonal_run = (Ok tt, s2) /\
    simplified_temporal_position s2 = Some (select (map snd (diagonal 8)) idx) /\
    In 7 idx /\
    simplified_temporal_position s2 = Some [F64.of_Z 2; F64.of_Z 7].
Proof.
  assert (Hcases : forall j, 0 <= j < 8 ->
            j = 0 \/ j = 1 \/ j = 2 \/ j = 3 \/ j = 4 \/ j = 5 \/ j = 6 \/ j = 7)
    by (intros; lia).
  destruct (C1_kept_iff_window_maximum_without_nan pearsonr diagonal_run
              (snd (bind moving_average (fun _ => update_coeff pearsonr) diagonal_run)) 2)
    as (s2 & a & sm & ts & c & idx & Hrun & _ & _ & Hts & _ & _ & Hc1 & _ & _ & _
        & Hst & _ & _ & _ & _ & Hiff & _);
    [reflexivity | change (1 <= 8); lia | reflexivity | lia
    | vm_compute; reflexivity |].
  assert (Ec : c = diagonal_scores)
    by (vm_compute in Hc1; inversion Hc1; reflexivity).
  subst c ts.
  exists s2, idx.
  split; [exact Hrun|]. split; [exact Hst|].
  split.
  - apply Hiff; [change (0 <= 7 < 8); lia|].
    split; [reflexivity|]. split; [reflexivity|].
    intros j Hj _. change (Z.max 0 (7 - 2)) with 5 in Hj.
    change (Z.min (7 + 2) (sample_size diagonal_run)) with 8 in Hj.
    assert (Hj' : j = 5 \/ j = 6 \/ j = 7) by lia.
    destruct Hj' as [->|[->| ->]]; vm_compute; reflexivity.
  - assert (Es : s2 = snd (run pearsonr diagonal_run)) by (now rewrite Hrun).
    rewrite Es. vm_compute. reflexivity.
Defined.

(** ** The compressed trajectory as a subsequence *)

Lemma subseq_refl {A} (l : list A) : subseq l l.
Proof. induction l; constructor; assumption. Qed.

Lemma subseq_length {A} (sub l : list A) :
  subseq sub l -> (length sub <= length l)%nat.
Proof. induction 1; cbn; lia. Qed.

Lemma select_cons {A} (l : list A) i idx x :
  nth_error l (Z.to_nat i) = Some x -> select l (i :: idx) = x :: select l idx.
Proof. intros H. unfold select. cbn [flat_map]. now rewrite H. Qed.

Lemma select_filter_subseq {A} (l : list A) (f : Z -> bool) (j : nat) :
  (j <= length l)%nat ->
  subseq (select l (filter f (arange (Z.of_nat (length l - j)) (Z.of_nat (length l)))))
         (skipn (length l - j) l).
Proof.
  induction j as [|j IH]; intros Hj.
  - rewrite arange_empty by lia. rewrite Nat.sub_0_r, skipn_all. constructor.
  - rewrite arange_cons by lia. cbn [filter].
    destruct (nth_error l (length l - S j)) as [x|] eqn:E.
    2:{ apply nth_error_None in E. lia. }
    rewrite (skipn_nth_error _ _ _ E).
    replace (S (length l - S j)) with (length l - j)%nat by lia.
    replace (Z.of_nat (length l - S j) + 1) with (Z.of_nat (length l - j)) by lia.
    specialize (IH ltac:(lia)).
    destruct (f (Z.of_nat (length l - S j))).
    + rewrite select_cons with (x := x) by (now rewrite Nat2Z.id).
      now constructor.
    + now constructor.
Qed.

Lemma select_kept_subseq {A} (l : list A) c g :
  length l = length c -> subseq (select l (kept_indices c g)) l.
Proof.
  intros Hlen. unfold kept_indices, range. rewrite <- Hlen.
  pose proof (select_filter_subseq l (local_max c g) (length l) (Nat.le_refl _)) as H.
  now rewrite Nat.sub_diag in H.
Qed.

(** X11.  The compressed trajectory of a completed run never reorders,
    repeats or invents a point: its spatial sequence is a subsequence of the
    smoothed rows, its temporal sequence a subsequence of the original
    timestamps, the two have the same length, and that length is at most
    the number of rows. *)
Theorem compressed_trajectory_is_a_subsequence
    (corr : list float -> list float -> result float) (s t : FastStray) :
  sample_size s = Z.of_nat (length (position s)) ->
  1 <= sample_size s ->
  run corr s = (Ok tt, t) ->
  exists sm ss ts,
    filtering_spatial_position t = Some sm /\
    simplified_spatial_position t = Some ss /\
    simplified_temporal_position t = Some ts /\
    subseq ss sm /\
    subseq ts (map snd (position s)) /\
    length ss = length ts /\
    (length ts <= length (position s))%nat.
Proof.
  intros Hn H1 Hrun.
  destruct (run_ok_inv corr s t Hn H1 Hrun)
    as (a & b & g & c & mc & Ha & Hb & Hg & Hc & Hmc & ->).
  pose proof (scores_length _ _ _ _ _ Hc) as Hlc.
  rewrite smoothed_length, length_map in Hlc.
  set (sm := smoothed a (map fst (position s))).
  set (tp := map snd (position s)).
  assert (Hlsm : length sm = length c)
    by (subst sm; now rewrite smoothed_length, length_map).
  assert (Hltp : length tp = length c) by (subst tp; now rewrite length_map).
  exists sm, (select sm (kept_indices c g)), (select tp (kept_indices c g)).
  split; [reflexivity|]. split; [reflexivity|]. split; [reflexivity|].
  split; [now apply select_kept_subseq|].
  split; [now apply select_kept_subseq|].
  assert (Hsel : forall A (l : list A), length l = length c ->
            length (select l (kept_indices c g)) = length (kept_indices c g)).
  { intros A l Hl. apply select_length. intros i Hi.
    apply kept_indices_in_range in Hi. lia. }
  split; [now rewrite !Hsel|].
  rewrite Hsel by assumption. pose proof (kept_indices_length c g). lia.
Qed.

Lemma compressed_subsequence_witness :
  exists ts,
    simplified_temporal_position (snd (run pearsonr diagonal_run)) = Some ts /\
    subseq ts (map snd (diagonal 8)).
Proof.
  destruct (compressed_trajectory_is_a_subsequence pearsonr diagonal_run
              (snd (run pearsonr diagonal_run)))
    as (sm & ss & ts & _ & _ & Hts & _ & Hsub & _);
    [reflexivity | change (1 <= 8); lia | vm_compute; reflexivity |].
  exists ts. split; assumption.
Defined.

(** ** The range of the compression rate *)

Lemma rate_of_nonneg k n :
  0 <= k <= n -> 1 <= n -> n <= 2 ^ 53 -> F64.leb F64.zero (rate_of k n) = true.
Proof.
  intros Hk Hn1 Hn.
  destruct (Z.eq_dec k 0) as [->|Hk0]; [now rewrite rate_of_zero|].
  destruct (Z.eq_dec k n) as [->|Hkn]; [now rewrite rate_of_all|].
  destruct (rate_of_normal k n ltac:(lia) Hn) as (m & e & X & V & E & _ & _ & _ & _ & ->).
  unfold normal. destruct (_ =? _); reflexivity.
Qed.

Lemma rate_of_one_iff k n :
  0 <= k <= n -> 1 <= n -> n <= 2 ^ 53 -> (rate_of k n = F64.one <-> k = 0).
Proof.
  intros Hk Hn1 Hn. split.
  - intros E. destruct (Z.eq_dec k 0) as [H|H]; [exact H|]. exfalso.
    pose proof (rate_of_lt_one k n ltac:(lia) Hn) as Hlt.
    rewrite E in Hlt. discriminate.
  - intros ->. now apply rate_of_zero.
Qed.

Lemma rate_of_zero_iff k n :
  0 <= k <= n -> 1 <= n -> n <= 2 ^ 53 -> (rate_of k n = F64.zero <-> k = n).
Proof.
  intros Hk Hn1 Hn. split.
  - intros E. destruct (Z.eq_dec k n) as [H|H]; [exact H|]. exfalso.
    destruct (Z.eq_dec k 0) as [->|Hk0].
    + rewrite rate_of_zero in E by assumption. discriminate.
    + destruct (rate_of_normal k n ltac:(lia) Hn)
        as (m & e & X & V & E' & _ & _ & _ & _ & Hr).
      rewrite Hr in E. unfold normal in E. destruct (_ =? _); discriminate.
  - intros ->. now apply rate_of_all.
Qed.

Lemma compression_rate_keeps_object s r s' :
  compression_rate s = (r, s') -> s' = s.
Proof.
  unfold compression_rate, bind, attr, lift, ret.
  destruct (simplified_temporal_position s); [|now inversion 1].
  destruct (temporal_position s); [|now inversion 1].
  destruct (int_truediv _ _); now inversion 1.
Qed.

(** X12.  After a completed run on at most [2^53] rows, [compression_rate]
    returns a float of [[0.0, 1.0]]; it is [1.0] exactly when no point is
    kept and [0.0] exactly when every point is. *)
Theorem compression_rate_is_in_the_unit_interval
    (corr : list float -> list float -> result float) (s t : FastStray) :
  sample_size s = Z.of_nat (length (position s)) ->
  1 <= sample_size s <= 2 ^ 53 ->
  run corr s = (Ok tt, t) ->
  exists ts r,
    simplified_temporal_position t = Some ts /\
    compression_rate t = (Ok r, t) /\
    F64.leb F64.zero r = true /\
    F64.leb r F64.one = true /\
    (r = F64.one <-> ts = []) /\
    (r = F64.zero <-> length ts = length (position s)).
Proof.
  intros Hn H1 Hrun.
  destruct (run_ok_inv corr s t Hn ltac:(lia) Hrun)
    as (a & b & g & c & mc & Ha & Hb & Hg & Hc & Hmc & ->).
  pose proof (scores_length _ _ _ _ _ Hc) as Hlc.
  rewrite smoothed_length, length_map in Hlc.
  pose proof (kept_indices_length c g) as Hk.
  set (tp := map snd (position s)).
  assert (Hlts : length (select tp (kept_indices c g)) = length (kept_indices c g)).
  { apply select_length. intros i Hi. apply kept_indices_in_range in Hi.
    subst tp. rewrite length_map. lia. }
  set (k := Z.of_nat (length (kept_indices c g))).
  set (n := Z.of_nat (length c)).
  exists (select tp (kept_indices c g)), (rate_of k n).
  split; [reflexivity|].
  split.
  { pose proof (compression_rate_compressed_state a g c mc s Hlc ltac:(lia)) as Hr.
    destruct (compression_rate (compressed_state a g c mc s)) as [r t'] eqn:E.
    cbn [fst] in Hr. subst r. f_equal.
    now rewrite (compression_rate_keeps_object _ _ _ E). }
  split; [apply rate_of_nonneg; subst k n; lia|].
  split.
  { rewrite <- (rate_of_zero n) by (subst n; lia).
    apply rate_of_mono; subst k n; lia. }
  split.
  - rewrite rate_of_one_iff by (subst k n; lia).
    split.
    + intros Hk0. destruct (select tp (kept_indices c g)); [reflexivity|].
      cbn in Hlts. subst k. lia.
    + intros E. rewrite E in Hlts. cbn in Hlts. subst k. lia.
  - rewrite rate_of_zero_iff by (subst k n; lia).
    rewrite Hlts. subst k n. lia.
Qed.

Lemma compression_rate_interval_witness :
  exists r,
    compression_rate (snd (run pearsonr diagonal_run))
      = (Ok r, snd (run pearsonr diagonal_run)) /\
    F64.leb F64.zero r = true /\ F64.leb r F64.one = true.
Proof.
  destruct (compression_rate_is_in_the_unit_interval pearsonr diagonal_run
              (snd (run pearsonr diagonal_run)))
    as (ts & r & _ & Hr & H0 & H1 & _);
    [reflexivity | change (1 <= 8 <= 2 ^ 53); lia | vm_compute; reflexivity |].
  exists r. repeat split; assumption.
Defined.

(** ** Running twice *)

(** X13.  A completed run leaves nothing behind that a second run would
    read: every attribute is recomputed from [params], [position] and
    [sample_size], so running again on the same object returns normally and
    leaves the object exactly as the first run did. *)
Theorem run_again_changes_nothing
    (corr : list float -> list float -> result float) (s t : FastStray) :
  sample_size s = Z.of_nat (length (position s)) ->
  1 <= sample_size s ->
  run corr s = (Ok tt, t) ->
  run corr t = (Ok tt, t).
Proof.
  intros Hn H1 Hrun.
  destruct (run_ok_inv corr s t Hn H1 Hrun)
    as (a & b & g & c & mc & Ha & Hb & Hg & Hc & Hmc & ->).
  rewrite (run_compressed_state corr (compressed_state a g c mc s) a b g c)
    with (mc := mc); try assumption; reflexivity.
Qed.

Lemma run_again_witness :
  run pearsonr (snd (run pearsonr diagonal_run))
    = (Ok tt, snd (run pearsonr diagonal_run)).
Proof.
  apply (run_again_changes_nothing pearsonr diagonal_run);
    [reflexivity | change (1 <= 8); lia | vm_compute; reflexivity].
Defined.

(** ** Half-widths that cover the whole trajectory *)

Lemma window_covers_all {A} (l : list A) i w :
  0 <= i < Z.of_nat (length l) -> Z.of_nat (length l) <= w -> window i w l = l.
Proof.
  intros Hi Hw. unfold window, slice, window_lo, window_hi.
  replace (Z.max 0 (i - w)) with 0 by lia.
  replace (Z.min (i + w) (Z.of_nat (length l))) with (Z.of_nat (length l)) by lia.
  rewrite Z.sub_0_r, Nat2Z.id. cbn [Z.to_nat skipn]. apply firstn_all.
Qed.

(** X14.  With a smoothing half-width [alpha] of at least the number of
    rows, every window is the whole trajectory: all the smoothed rows are
    the same point, the mean of all the rows. *)
Theorem covering_alpha_smooths_to_the_global_mean (s : FastStray) (a : Z) :
  sample_size s = Z.of_nat (length (position s)) ->
  dict_get (params s) "alpha" = Ok a ->
  sample_size s <= a ->
  exists s',
    moving_average s = (Ok tt, s') /\
    filtering_spatial_position s'
      = Some (repeat (mean_axis0 (map fst (position s))) (length (position s))).
Proof.
  intros Hn Ha Hbig. exists (smoothed_state a s).
  split; [now apply moving_average_smoothed_state|].
  cbn. f_equal. unfold smoothed.
  rewrite map_ext_in with (g := fun _ => mean_axis0 (map fst (position s))).
  - rewrite map_const, range_length, length_map. f_equal. lia.
  - intros i Hi. apply In_range in Hi. rewrite window_covers_all; [reflexivity | lia |].
    rewrite length_map. lia.
Qed.

Lemma covering_alpha_witness :
  exists s',
    moving_average (init (mk_params 3 2 2) (diagonal 3) 3) = (Ok tt, s') /\
    filtering_spatial_position s'
      = Some (repeat (F64.of_Z 1, F64.of_Z 1) 3).
Proof.
  destruct (covering_alpha_smooths_to_the_global_mean
              (init (mk_params 3 2 2) (diagonal 3) 3) 3)
    as (s' & Hrun & Hsm); [reflexivity | reflexivity | cbn; lia |].
  exists s'. split; [exact Hrun|]. rewrite Hsm. vm_compute. reflexivity.
Defined.

(** X15.  With a suppression half-width [gamma] of at least the number of
    rows and scores without NaN, every window is the whole score sequence:
    the kept indices of a completed run are exactly the indices whose score
    is the greatest of all, every index that ties for it included. *)
Theorem covering_gamma_keeps_the_global_maxima
    (corr : list float -> list float -> result float)
    (s t : FastStray) (g : Z) (c : list float) :
  sample_size s = Z.of_nat (length (position s)) ->
  1 <= sample_size s ->
  run corr s = (Ok tt, t) ->
  dict_get (params s) "gamma" = Ok g ->
  sample_size s <= g ->
  coeff t = Some c ->
  nan_free c ->
  simplified_temporal_position t
    = Some (select (map snd (position s)) (kept_indices c g)) /\
  forall i, In i (kept_indices c g) <->
    0 <= i < sample_size s /\
    forall j, 0 <= j < sample_size s -> F64.leb (at_index c j) (at_index c i) = true.
Proof.
  intros Hn H1 Hrun Hg Hbig Hc Hnan.
  destruct (run_ok_inv corr s t Hn H1 Hrun)
    as (a & b & g' & c' & mc & Ha & Hb & Hg' & Hc' & Hmc & ->).
  rewrite Hg in Hg'. inversion Hg'; subst g'.
  cbn in Hc. inversion Hc; subst c'.
  pose proof (scores_length _ _ _ _ _ Hc') as Hlc.
  rewrite smoothed_length, length_map in Hlc.
  split; [reflexivity|].
  intros i. rewrite In_kept_indices.
  assert (Hlen : Z.of_nat (length c) = sample_size s) by lia.
  rewrite Hlen. split.
  - intros [Hi Hlm]. split; [exact Hi|].
    apply local_max_greatest in Hlm; [| lia | lia | now apply nan_free_window].
    intros j Hj. apply Hlm. apply In_window. exists j. split; [lia | reflexivity].
  - intros [Hi Hall]. split; [exact Hi|].
    apply local_max_greatest; [lia | lia | now apply nan_free_window |].
    split; [apply centre_in_window; lia|].
    intros v Hv. apply In_window in Hv. destruct Hv as (j & Hj & ->).
    apply Hall. lia.
Qed.

Lemma covering_gamma_witness :
  In 7 (kept_indices diagonal_scores 8) /\ ~ In 2 (kept_indices diagonal_scores 8).
Proof.
  destruct (covering_gamma_keeps_the_global_maxima pearsonr
              (init (mk_params 2 2 8) (diagonal 8) 8)
              (snd (run pearsonr (init (mk_params 2 2 8) (diagonal 8) 8)))
              8 diagonal_scores)
    as [_ H];
    [reflexivity | change (1 <= 8); lia | vm_compute; reflexivity | reflexivity
    | cbn; lia | vm_compute; reflexivity | |].
  - intros v Hv. unfold diagonal_scores in Hv. cbn [In] in Hv.
    repeat (destruct Hv as [<-|Hv]; [reflexivity|]). destruct Hv.
  - split.
    + apply H. split; [cbn; lia|]. intros j Hj.
      assert (Hcase : j = 0 \/ j = 1 \/ j = 2 \/ j = 3 \/ j = 4 \/ j = 5 \/ j = 6 \/ j = 7)
        by (cbn in Hj; lia).
      destruct Hcase as [->|[->|[->|[->|[->|[->|[->| ->]]]]]]]; vm_compute; reflexivity.
    + intros Hin. apply H in Hin. destruct Hin as [_ Hall].
      specialize (Hall 7 ltac:(cbn; lia)). vm_compute in Hall. discriminate.
Defined.

(** ** A scoring half-width of 1 *)

Lemma window_first_single {A} (l : list A) x r :
  l = x :: r -> window 0 1 l = [x].
Proof.
  intros ->. unfold window, slice, window_lo, window_hi.
  replace (Z.max 0 (0 - 1)) with 0 by lia.
  replace (Z.min (0 + 1) (Z.of_nat (length (x :: r)))) with 1
    by (cbn [length]; lia).
  reflexivity.
Qed.

(** X16.  With [beta = 1] the scoring window of index 0 holds a single
    sample.  A correlation routine that rejects one-sample inputs (as
    [pearsonr] does, with [ValueError]) therefore makes [update_coeff], and
    [run], raise on every trajectory, once smoothing is done and before any
    score is assigned. *)
Theorem unit_beta_scores_a_single_sample
    (corr : list float -> list float -> result float)
    (s : FastStray) (a : Z) (e : exn) :
  sample_size s = Z.of_nat (length (position s)) ->
  1 <= sample_size s ->
  dict_get (params s) "alpha" = Ok a ->
  dict_get (params s) "beta" = Ok 1 ->
  (forall x y, corr [x] [y] = Raise e) ->
  length (window 0 1 (smoothed a (map fst (position s)))) = 1%nat /\
  update_coeff corr (smoothed_state a s) = (Raise e, smoothed_state a s) /\
  run corr s = (Raise e, smoothed_state a s).
Proof.
  intros Hn H1 Ha Hb Hcorr.
  set (sm := smoothed a (map fst (position s))).
  set (ts := map snd (position s)).
  assert (Hlsm : Z.of_nat (length sm) = sample_size s)
    by (subst sm; rewrite smoothed_length, length_map; lia).
  assert (Hlts : Z.of_nat (length ts) = sample_size s)
    by (subst ts; rewrite length_map; lia).
  destruct sm as [|p sm'] eqn:Esm; [cbn in Hlsm; lia|].
  destruct ts as [|t0 ts'] eqn:Ets; [cbn in Hlts; lia|].
  assert (Hw : window 0 1 (p :: sm') = [p]) by now apply window_first_single with sm'.
  assert (Hwt : window 0 1 (t0 :: ts') = [t0]) by now apply window_first_single with ts'.
  split; [now rewrite Hw|].
  assert (Huc : update_coeff corr (smoothed_state a s) = (Raise e, smoothed_state a s)).
  { rewrite (update_coeff_smoothed corr s a 1 Hn Hb). fold sm ts.
    rewrite Esm, Ets. unfold scores.
    replace (Z.of_nat (length (p :: sm'))) with (sample_size s) by lia.
    rewrite range_cons by assumption. cbn [rmap].
    rewrite Hw, Hwt. unfold ksi_func. cbn [map]. rewrite Hcorr. reflexivity. }
  split; [exact Huc|].
  unfold run.
  rewrite bind_ok with (a := tt) (s' := smoothed_state a s)
    by now apply moving_average_smoothed_state.
  now apply bind_raise.
Qed.

Lemma unit_beta_witness :
  fst (run pearsonr (init (mk_params 2 1 2) (diagonal 8) 8)) = Raise ValueError.
Proof.
  destruct (unit_beta_scores_a_single_sample pearsonr
              (init (mk_params 2 1 2) (diagonal 8) 8) 2 ValueError)
    as (_ & _ & Hrun);
    [reflexivity | change (1 <= 8); lia | reflexivity | reflexivity
    | intros x y; reflexivity |].
  now rewrite Hrun.
Defined.

(** ** The sign of rounded results *)

Lemma shr_1_nonneg mrs : 0 <= shr_m mrs -> 0 <= shr_m (shr_1 mrs).
Proof.
  destruct mrs as [m r s]. cbn [shr_m]. intros Hm.
  rewrite shr_1_spec by assumption. cbn [shr_m]. apply Z.div_pos; lia.
Qed.

Lemma shr_nonneg mrs e n : 0 <= shr_m mrs -> 0 <= shr_m (fst (shr mrs e n)).
Proof.
  intros Hm. destruct n as [|p|p]; cbn [shr fst]; try assumption.
  rewrite iter_pos_nat. induction (Pos.to_nat p) as [|j IH]; cbn [Nat.iter].
  - assumption.
  - now apply shr_1_nonneg.
Qed.

Lemma round_nearest_even_nonneg m l : 0 <= m -> 0 <= round_nearest_even m l.
Proof.
  intros Hm. unfold round_nearest_even.
  destruct l as [|[]]; try lia. destruct (Z.even m); lia.
Qed.

(** Rounding a non-negative mantissa gives [+0.0], a positive float or
    [+inf], never NaN. *)
Lemma binary_round_aux_nonneg mx ex lx :
  0 <= mx ->
  nonneg_float (binary_round_aux F64.prec F64.emax false mx ex lx) = true.
Proof.
  intros Hmx. unfold binary_round_aux, shr_fexp.
  pose proof (shr_nonneg (shr_record_of_loc mx lx) ex
                (fexp F64.prec F64.emax (Zdigits2 mx + ex) - ex)) as H1.
  rewrite shr_m_of_loc in H1. specialize (H1 Hmx).
  destruct (shr (shr_record_of_loc mx lx) ex _) as [mrs1 e1]. cbn [fst] in H1.
  pose proof (round_nearest_even_nonneg (shr_m mrs1) (loc_of_shr_record mrs1) H1) as HM.
  set (M := round_nearest_even (shr_m mrs1) (loc_of_shr_record mrs1)) in *.
  pose proof (shr_nonneg (shr_record_of_loc M loc_Exact) e1
                (fexp F64.prec F64.emax (Zdigits2 M + e1) - e1)) as H2.
  rewrite shr_m_of_loc in H2. specialize (H2 HM).
  destruct (shr (shr_record_of_loc M loc_Exact) e1 _) as [mrs2 e2]. cbn [fst] in H2.
  destruct (shr_m mrs2) as [|p|p]; [reflexivity | | lia].
  destruct (e2 <=? F64.emax - F64.prec); reflexivity.
Qed.

Lemma mul_self_nonneg r :
  F64.is_nan r = false -> nonneg_float (F64.mul r r) = true.
Proof.
  destruct r as [s|s| |s m e]; intros Hr; try discriminate.
  - destruct s; reflexivity.
  - destruct s; reflexivity.
  - unfold F64.mul, SFmul. replace (xorb s s) with false by (now destruct s).
    apply binary_round_aux_nonneg. lia.
Qed.

Lemma div_one_nonneg x :
  nonneg_float x = true -> nonneg_float (F64.div F64.one x) = true.
Proof.
  destruct x as [s|s| |s m e]; cbn [nonneg_float]; try discriminate;
    destruct s; try discriminate; intros _; try reflexivity.
  unfold F64.div, F64.one, SFdiv.
  destruct (SFdiv_core_binary F64.prec F64.emax 4503599627370496 (-52) (Z.pos m) e)
    as [[mz ez] lz] eqn:E.
  cbn [xorb]. apply binary_round_aux_nonneg.
  unfold SFdiv_core_binary in E.
  rewrite div_eucl_div_mod in E. inversion E. apply Z.div_pos; [|lia].
  match goal with |- 0 <= match ?d with _ => _ end => destruct d as [|q|q] end;
    try lia.
  rewrite Z.shiftl_mul_pow2 by lia.
  assert (0 < 2 ^ Z.pos q) by (apply pow2_pos; lia). lia.
Qed.

Lemma add_pinf_l y : nonneg_float y = true -> F64.add F64.pinf y = F64.pinf.
Proof. destruct y as [s|s| |s m e]; try destruct s; try discriminate; reflexivity. Qed.

Lemma add_pinf_r x : nonneg_float x = true -> F64.add x F64.pinf = F64.pinf.
Proof. destruct x as [s|s| |s m e]; try destruct s; try discriminate; reflexivity. Qed.

Lemma inverse_square_of_zero r :
  F64.eqb r F64.zero = true -> F64.div F64.one (F64.mul r r) = F64.pinf.
Proof.
  destruct r as [s|s| |s m e]; try destruct s; try discriminate; reflexivity.
Qed.

(** ** An axis that does not correlate with time *)

(** X17.  [ksi_func] divides by the squared correlation without a test: a
    correlation of exactly zero on one axis does not raise
    [ZeroDivisionError], it gives the score [+inf], whatever the correlation
    on the other axis, as long as that one is not NaN. *)
Theorem zero_correlation_scores_infinity
    (corr : list float -> list float -> result float)
    (pp : list (float * float)) (tt : list float) (rx ry : float) :
  corr (map fst pp) tt = Ok rx ->
  corr (map snd pp) tt = Ok ry ->
  (F64.eqb rx F64.zero = true /\ F64.is_nan ry = false) \/
  (F64.eqb ry F64.zero = true /\ F64.is_nan rx = false) ->
  ksi_func corr pp tt = Ok F64.pinf.
Proof.
  intros Hx Hy Hzero. rewrite (ksi_func_ok _ _ _ _ _ Hx Hy). f_equal.
  destruct Hzero as [[Hz Hn] | [Hz Hn]].
  - rewrite (inverse_square_of_zero rx Hz). apply add_pinf_l.
    apply div_one_nonneg. now apply mul_self_nonneg.
  - rewrite (inverse_square_of_zero ry Hz). apply add_pinf_r.
    apply div_one_nonneg. now apply mul_self_nonneg.
Qed.

Lemma zero_correlation_witness :
  ksi_func pearsonr detour_pp detour_tt = Ok F64.pinf.
Proof.
  apply (zero_correlation_scores_infinity pearsonr detour_pp detour_tt
           F64.zero
           (match pearsonr (map snd detour_pp) detour_tt with
            | Ok r => r
            | Raise _ => F64.nan
            end)).
  - vm_compute. reflexivity.
  - vm_compute. reflexivity.
  - left. split; vm_compute; reflexivity.
Defined.

(** ** The order of the two spatial axes *)

Lemma add_comm x y : F64.add x y = F64.add y x.
Proof.
  destruct x as [sx|sx| |sx mx ex], y as [sy|sy| |sy my ey];
    try destruct sx; try destruct sy; try reflexivity;
    unfold F64.add, SFadd; rewrite (Z.min_comm ey ex), Z.add_comm; reflexivity.
Qed.

(** X18.  The score does not depend on which spatial axis comes first: when
    the correlation routine returns on both axes, exchanging longitude and
    latitude in every row of a neighbourhood gives the same score. *)
Theorem score_is_symmetric_in_the_axes
    (corr : list float -> list float -> result float)
    (pp : list (float * float)) (tt : list float) (rx ry : float) :
  corr (map fst pp) tt = Ok rx ->
  corr (map snd pp) tt = Ok ry ->
  ksi_func corr (map swap_axes pp) tt = ksi_func corr pp tt.
Proof.
  intros Hx Hy.
  rewrite (ksi_func_ok corr pp tt rx ry Hx Hy).
  rewrite (ksi_func_ok corr (map swap_axes pp) tt ry rx).
  - now rewrite add_comm.
  - rewrite map_map. cbn [swap_axes fst]. exact Hy.
  - rewrite map_map. cbn [swap_axes snd]. exact Hx.
Qed.

Lemma score_symmetry_witness :
  ksi_func pearsonr (map swap_axes detour_pp) detour_tt
    = ksi_func pearsonr detour_pp detour_tt.
Proof.
  apply (score_is_symmetric_in_the_axes pearsonr detour_pp detour_tt
           F64.zero
           (match pearsonr (map snd detour_pp) detour_tt with
            | Ok r => r
            | Raise _ => F64.nan
            end)); vm_compute; reflexivity.
Defined.
